(** * mtgo-db: the upstream sync and the snapshot merge, verified

    A shallow embedding of the two reconciliation scripts of the
    repository: the upstream sync (diff engine, identity reconciler,
    dependency-ordered pipeline, batched upsert writer) and the
    merge-from-dump utility; of the recent-events report of the bridge;
    and of the [.env] and template handling of the tunnel setup.

    Conventions.
    - A table is a list of rows in insertion order, so that duplicate rows
      are expressible and their absence is a theorem.
    - JavaScript [number]s holding identifiers, counts and timestamps are
      integers ([Z]); array lengths and loop indices are [nat].
    - [Map] and [Set] objects are stdpp's [gmap] and [gset].
    - The target database is the only mutable state; it is threaded
      through a small state-and-exception monad together with a journal
      of the write statements issued against it.
    - A query throws when it binds more parameters than the driver
      sends, and a call throws when it spreads more arguments than the
      engine takes; what else a run depends on besides the tables (the
      order of the rows of a [UNION]) is a parameter of the model. *)

From stdpp Require Import base decidable option list gmap strings sorting.
From Stdlib Require Import ZArith Lia.

(** ** Rows of the six tables *)

(** [interface EventRecord] of the sync script. *)
Record EventRecord := mkEvent {
  e_id : Z;
  e_name : string;
  e_date : Z;
  e_format : string;
  e_kind : string;
  e_rounds : option Z;
  e_players : option Z
}.

(** [{ id: number; name: string }], a row of the target's [players]. *)
Record Player := mkPlayer {
  p_id : Z;
  p_name : string
}.

(** [{ id: number | null; name: string }], a row of the upstream
    [players] as the reconciler reads it. *)
Record UpstreamPlayer := mkUpstreamPlayer {
  up_id : option Z;
  up_name : string
}.

(** Columns [event_id, rank, player, record, points, omwp, gwp, owp]. *)
Record Standing := mkStanding {
  s_event_id : Z;
  s_rank : Z;
  s_player : string;
  s_record : string;
  s_points : Z;
  s_omwp : string;
  s_gwp : string;
  s_owp : string
}.

(** Columns [id, event_id, round, player, opponent, record, result,
    isbye, games]. *)
Record Match := mkMatch {
  m_id : Z;
  m_event_id : Z;
  m_round : Z;
  m_player : string;
  m_opponent : string;
  m_record : string;
  m_result : string;
  m_isbye : bool;
  m_games : string
}.

(** Columns [id, event_id, player, mainboard, sideboard]. *)
Record Deck := mkDeck {
  d_id : Z;
  d_event_id : Z;
  d_player : string;
  d_mainboard : string;
  d_sideboard : string
}.

(** Columns [id, deck_id, name, archetype, archetype_id]; [deck_id] is
    nullable. *)
Record Archetype := mkArchetype {
  a_id : Z;
  a_deck_id : option Z;
  a_name : string;
  a_archetype : string;
  a_archetype_id : option Z
}.

(** The target (and, in merge mode, the scratch database). *)
Record Database := mkDatabase {
  events : list EventRecord;
  players : list Player;
  standings : list Standing;
  matches : list Match;
  decks : list Deck;
  archetypes : list Archetype
}.

(** The upstream source, read-only. *)
Record Upstream := mkUpstream {
  u_events : list EventRecord;
  u_players : list UpstreamPlayer;
  u_standings : list Standing;
  u_matches : list Match;
  u_decks : list Deck;
  u_archetypes : list Archetype
}.

Definition with_events (t : list EventRecord) (db : Database) : Database :=
  mkDatabase t (players db) (standings db) (matches db) (decks db) (archetypes db).
Definition with_players (t : list Player) (db : Database) : Database :=
  mkDatabase (events db) t (standings db) (matches db) (decks db) (archetypes db).
Definition with_standings (t : list Standing) (db : Database) : Database :=
  mkDatabase (events db) (players db) t (matches db) (decks db) (archetypes db).
Definition with_matches (t : list Match) (db : Database) : Database :=
  mkDatabase (events db) (players db) (standings db) t (decks db) (archetypes db).
Definition with_decks (t : list Deck) (db : Database) : Database :=
  mkDatabase (events db) (players db) (standings db) (matches db) t (archetypes db).
Definition with_archetypes (t : list Archetype) (db : Database) : Database :=
  mkDatabase (events db) (players db) (standings db) (matches db) (decks db) t.

(** ** INSERT ... ON CONFLICT

    One statement against one table.  [conflict_target] is the unique key
    named in [ON CONFLICT (...)]; [constraint] stands for every other
    constraint of the table.  A statement is atomic: it either applies
    all of its rows or raises and applies none. *)

Section OnConflict.
Context {Row Key : Type} `{EqDecision Key}.
Variable conflict_target : Row -> Key.

(** [DO UPDATE SET col = EXCLUDED.col, ...]: the existing row and the
    proposed one give the row that is kept. *)
Variable do_update_set : Row -> Row -> Row.

Fixpoint upsert_row (t : list Row) (r : Row) : list Row :=
  match t with
  | [] => [r]
  | x :: t' =>
      if decide (conflict_target x = conflict_target r)
      then do_update_set x r :: t'
      else x :: upsert_row t' r
  end.

(** PostgreSQL rejects a [DO UPDATE] statement that proposes two rows
    with the same conflict key, and any statement one of whose rows
    breaks a constraint. *)
Definition insert_on_conflict_do_update
    (constraint : Row -> bool) (batch t : list Row) : option (list Row) :=
  if decide (NoDup (conflict_target <$> batch)) then
    if forallb constraint batch then Some (foldl upsert_row t batch) else None
  else None.

(** [DO NOTHING]: a row whose key is taken is dropped; a row whose key
    is free is appended, unless it breaks another constraint of the
    table as it stands then. *)
Fixpoint insert_on_conflict_do_nothing
    (constraint : list Row -> Row -> bool) (t batch : list Row)
    : option (list Row) :=
  match batch with
  | [] => Some t
  | r :: rest =>
      if decide (conflict_target r ∈ conflict_target <$> t)
      then insert_on_conflict_do_nothing constraint t rest
      else if constraint t r
           then insert_on_conflict_do_nothing constraint (t ++ [r]) rest
           else None
  end.
End OnConflict.

(** ** The schema of the target *)

(** Modelled from the spec: the referential constraints of the target
    schema ([schema.sql] is not among the sources).  Standings, matches
    and decks belong to an event and resolve to a player by name; an
    archetype belongs to a deck unless its [deck_id] is null. *)
Definition references_event (db : Database) (event_id : Z) : bool :=
  bool_decide (event_id ∈ e_id <$> events db).
Definition references_player (db : Database) (player : string) : bool :=
  bool_decide (player ∈ p_name <$> players db).
Definition references_deck (db : Database) (deck_id : option Z) : bool :=
  match deck_id with
  | None => true
  | Some i => bool_decide (i ∈ d_id <$> decks db)
  end.

Definition standing_fk (db : Database) (s : Standing) : bool :=
  references_event db (s_event_id s) && references_player db (s_player s).
Definition match_fk (db : Database) (m : Match) : bool :=
  references_event db (m_event_id m) && references_player db (m_player m).
Definition deck_fk (db : Database) (d : Deck) : bool :=
  references_event db (d_event_id d) && references_player db (d_player d).
Definition archetype_fk (db : Database) (a : Archetype) : bool :=
  references_deck db (a_deck_id a).

(** The unique keys are those the statements name as conflict targets:
    [players (id)] and [players (name)], [events (id)],
    [standings (event_id, player)], [matches (event_id, round, player)],
    [decks (id)], [archetypes (id)]. *)
Definition standing_key (s : Standing) : Z * string :=
  (s_event_id s, s_player s).
Definition match_key (m : Match) : Z * Z * string :=
  (m_event_id m, m_round m, m_player m).

(** The [SET] lists of the sync script's upserts. *)
Definition event_excluded (old new : EventRecord) : EventRecord :=
  mkEvent (e_id old) (e_name new) (e_date new) (e_format new) (e_kind new)
          (e_rounds new) (e_players new).
Definition standing_excluded (old new : Standing) : Standing :=
  mkStanding (s_event_id old) (s_rank new) (s_player old) (s_record new)
             (s_points new) (s_omwp new) (s_gwp new) (s_owp new).
Definition match_excluded (old new : Match) : Match :=
  mkMatch (m_id new) (m_event_id old) (m_round old) (m_player old)
          (m_opponent new) (m_record new) (m_result new) (m_isbye new)
          (m_games new).
Definition deck_excluded (old new : Deck) : Deck :=
  mkDeck (d_id old) (d_event_id new) (d_player new) (d_mainboard new)
         (d_sideboard new).
Definition archetype_excluded (old new : Archetype) : Archetype :=
  mkArchetype (a_id old) (a_deck_id new) (a_name new) (a_archetype new)
              (a_archetype_id new).

(** Modelled from the spec: a player's id is an "integer id", the 32-bit
    [integer] of PostgreSQL ([schema.sql] is not among the sources).  A
    statement that binds a value outside the range of the column is
    rejected as a whole. *)
Definition integer_column (i : Z) : bool :=
  ((-2147483648 <=? i) && (i <=? 2147483647))%Z.

(** The sync script's statements, each against the whole database. *)
Definition insert_players (batch : list Player) (db : Database) : option Database :=
  if forallb (λ p, integer_column (p_id p)) batch then
    t ← insert_on_conflict_do_nothing p_name
          (λ t r, bool_decide (p_id r ∉ p_id <$> t)) (players db) batch;
    Some (with_players t db)
  else None.
Definition upsert_events (batch : list EventRecord) (db : Database) : option Database :=
  t ← insert_on_conflict_do_update e_id event_excluded (λ _, true) batch (events db);
  Some (with_events t db).
Definition upsert_standings (batch : list Standing) (db : Database) : option Database :=
  t ← insert_on_conflict_do_update standing_key standing_excluded
        (standing_fk db) batch (standings db);
  Some (with_standings t db).
Definition upsert_matches (batch : list Match) (db : Database) : option Database :=
  t ← insert_on_conflict_do_update match_key match_excluded
        (match_fk db) batch (matches db);
  Some (with_matches t db).
Definition upsert_decks (batch : list Deck) (db : Database) : option Database :=
  t ← insert_on_conflict_do_update d_id deck_excluded
        (deck_fk db) batch (decks db);
  Some (with_decks t db).
Definition upsert_archetypes (batch : list Archetype) (db : Database) : option Database :=
  t ← insert_on_conflict_do_update a_id archetype_excluded
        (archetype_fk db) batch (archetypes db);
  Some (with_archetypes t db).

(** ** The pipeline's effects *)

Inductive Stage :=
  Players | Events | Standings | Matches | Decks | Archetypes.

#[global] Instance Stage_eq_dec : EqDecision Stage.
Proof. solve_decision. Defined.

(** The target and the journal of write statements issued so far, oldest
    first: the stage that issued the statement and the number of rows it
    carried. *)
Record World := mkWorld {
  target : Database;
  journal : list (Stage * nat)
}.

Inductive outcome (A : Type) :=
  | Returned (a : A)
  | Thrown.
Arguments Returned {A} a.
Arguments Thrown {A}.

Definition M (A : Type) : Type := World -> outcome A * World.

Definition ret {A} (a : A) : M A := fun w => (Returned a, w).
Definition bind {A B} (c : M A) (k : A -> M B) : M B :=
  fun w => match c w with
           | (Returned a, w') => k a w'
           | (Thrown, w') => (Thrown, w')
           end.

Notation "'await' x <- c ; k" := (bind c (fun x => k))
  (at level 10, x name, c at level 100, k at level 200).

Definition throw {A} : M A := fun w => (Thrown, w).

(** postgres.js refuses a query that binds 65534 parameters or more
    ([MAX_PARAMETERS_EXCEEDED]); the batch sizes are chosen for this
    limit (the "65,534 parameters" of [syncMatches]). *)
Definition PARAMETER_LIMIT : nat := 65534.

(** [await sql`... ${sql(values)} ...`] with [parameters] bound values:
    beyond the limit the driver throws and nothing reaches the server. *)
Definition bound {A} (parameters : nat) (c : M A) : M A :=
  if decide (parameters < PARAMETER_LIMIT) then c else throw.

(** What a run depends on besides the tables of the two databases: the
    number of arguments the JavaScript engine takes in one call (it
    depends on the engine and on its stack), and the order in which the
    upstream server returns the rows of a [UNION] that has no [ORDER BY],
    which may be any order. *)
Class Platform := {
  max_arguments : nat;
  union_order : list string -> list string;
  union_order_perm : forall names, union_order names ≡ₚ names
}.

(** [f(...xs)] with [arguments] elements in [xs]: beyond what the engine
    takes the call throws a [RangeError]. *)
Definition spread `{Platform} {A} (arguments : nat) (c : M A) : M A :=
  if decide (arguments <= max_arguments) then c else throw.

(** [await local`...`]: the statement is journalled, then applied; a
    rejected statement throws and leaves the target as it was. *)
Definition exec {Row} (stage : Stage) (statement : list Row -> Database -> option Database)
    (batch : list Row) : M unit :=
  fun w =>
    let j := journal w ++ [(stage, length batch)] in
    match statement batch (target w) with
    | Some db => (Returned (), mkWorld db j)
    | None => (Thrown, mkWorld (target w) j)
    end.

(** ** The batch loop

    [for (let i = 0; i < rows.length; i += BATCH_SIZE)] with
    [rows.slice(i, i + BATCH_SIZE)].  The index grows by [BATCH_SIZE]
    each turn, so [fuel = rows.length] turns are enough whenever
    [BATCH_SIZE] is positive (lemma [for_batches_fuel]). *)

Definition slice {A} (i j : nat) (l : list A) : list A :=
  take (j - i) (drop i l).

Section BatchLoop.
Context {Row : Type}.
Variable stage : Stage.
Variable statement : list Row -> Database -> option Database.
Variable BATCH_SIZE : nat.

Fixpoint for_batches (fuel i totalSynced : nat) (rows : list Row) : M nat :=
  match fuel with
  | O => ret totalSynced
  | S fuel' =>
      if decide (i < length rows) then
        let batch := slice i (i + BATCH_SIZE) rows in
        await _ <- exec stage statement batch;
        for_batches fuel' (i + BATCH_SIZE) (totalSynced + length batch) rows
      else ret totalSynced
  end.

(** The slices the loop takes, in order. *)
Fixpoint batches (fuel i : nat) (rows : list Row) : list (list Row) :=
  match fuel with
  | O => []
  | S fuel' =>
      if decide (i < length rows)
      then slice i (i + BATCH_SIZE) rows :: batches fuel' (i + BATCH_SIZE) rows
      else []
  end.

Definition write_batches (rows : list Row) : M nat :=
  for_batches (length rows) 0 0 rows.
End BatchLoop.

(** A [SELECT] against the target. *)
Definition query {A} (q : Database -> A) : M A :=
  fun w => (Returned (q (target w)), w).

(** [try { body } catch (err) { handler }]. *)
Definition try_catch {A} (body handler : M A) : M A :=
  fun w => match body w with
           | (Thrown, w') => handler w'
           | r => r
           end.

(** * The upstream sync *)

(** ** Diff engine *)

(** [new Set(events.map(e => e.id))] over [SELECT id FROM events]. *)
Definition getLocalEventIds (db : Database) : gset Z :=
  list_to_set (e_id <$> events db).

(** [e.players > 0]; a null count compares as unknown and is rejected. *)
Definition players_positive (e : EventRecord) : bool :=
  match e_players e with
  | Some n => bool_decide (0 < n)%Z
  | None => false
  end.

(** [EXISTS (SELECT 1 FROM standings s WHERE s.event_id = e.id)], and the
    same for matches. *)
Definition exists_standing (db : Database) (e : EventRecord) : bool :=
  bool_decide (e_id e ∈ s_event_id <$> standings db).
Definition exists_match (db : Database) (e : EventRecord) : bool :=
  bool_decide (e_id e ∈ m_event_id <$> matches db).

(** The [WHERE] clause of the incompleteness query. *)
Definition where_incomplete (db : Database) (e : EventRecord) : bool :=
  players_positive e && (negb (exists_standing db e) || negb (exists_match db e)).

(** [ORDER BY e.date DESC, e.id DESC] on the selected [(id, name, date)]. *)
Definition date_desc_id_desc (a b : Z * string * Z) : Prop :=
  (b.2 < a.2 \/ (a.2 = b.2 /\ b.1.1 <= a.1.1))%Z.

#[global] Instance date_desc_id_desc_dec a b : Decision (date_desc_id_desc a b).
Proof. unfold date_desc_id_desc. apply _. Defined.

(** [SELECT DISTINCT e.id, e.name, e.date ... LIMIT 100]. *)
Definition incompleteEvents (db : Database) : list (Z * string * Z) :=
  take 100
    (merge_sort date_desc_id_desc
       (remove_dups
          ((fun e => (e_id e, e_name e, e_date e))
             <$> filter (fun e => where_incomplete db e) (events db)))).

Definition getIncompleteEventIds (db : Database) : list Z :=
  (fun e => e.1.1) <$> incompleteEvents db.

(** [ORDER BY date DESC, id DESC] on whole event rows. *)
Definition event_date_desc_id_desc (a b : EventRecord) : Prop :=
  (e_date b < e_date a \/ (e_date a = e_date b /\ e_id b <= e_id a))%Z.

#[global] Instance event_date_desc_id_desc_dec a b :
  Decision (event_date_desc_id_desc a b).
Proof. unfold event_date_desc_id_desc. apply _. Defined.

(** One bound parameter for each excluded id. *)
Definition getUpstreamEvents (upstream : Upstream) (excludeIds : gset Z)
    : M (list EventRecord) :=
  if decide (size excludeIds = 0) then
    ret (merge_sort event_date_desc_id_desc (u_events upstream))
  else
    bound (size excludeIds)
      (ret (merge_sort event_date_desc_id_desc
              (filter (fun e => e_id e ∉ excludeIds) (u_events upstream)))).

(** ** Identity reconciler *)

(** The [UNION] of the three [SELECT DISTINCT player ... WHERE event_id IN
    eventIds]: every referenced name once, in the order the server
    chooses. *)
Definition referencedPlayerNames `{Platform} (upstream : Upstream) (eventIds : list Z)
    : list string :=
  union_order
    (remove_dups
       ((s_player <$> filter (fun s => s_event_id s ∈ eventIds) (u_standings upstream))
        ++ (m_player <$> filter (fun m => m_event_id m ∈ eventIds) (u_matches upstream))
        ++ (d_player <$> filter (fun d => d_event_id d ∈ eventIds) (u_decks upstream)))).

(** [SELECT p.id, p.name FROM players p WHERE p.name IN playerNames]. *)
Definition upstreamPlayers (upstream : Upstream) (playerNames : list string)
    : list UpstreamPlayer :=
  filter (fun p => up_name p ∈ playerNames) (u_players upstream).

(** [new Map(rows.map(p => [p.name, p.id]))]: a later entry for the same
    name replaces an earlier one. *)
Definition upstreamPlayerMap (rows : list UpstreamPlayer) : gmap string (option Z) :=
  foldl (fun m p => <[up_name p := up_id p]> m) ∅ rows.
Definition localPlayerNameMap (localPlayers : list Player) : gmap string Z :=
  foldl (fun m p => <[p_name p := p_id p]> m) ∅ localPlayers.
Definition localPlayerIdSet (localPlayers : list Player) : gset Z :=
  list_to_set (p_id <$> localPlayers).

(** [negativeIds.length > 0 ? Math.min(...negativeIds) : 0]. *)
Definition negativeIds (localPlayers : list Player) : list Z :=
  p_id <$> filter (fun p => (p_id p < 0)%Z) localPlayers.
Definition minNegativeId (localPlayers : list Player) : Z :=
  match negativeIds localPlayers with
  | [] => 0
  | i :: rest => foldl Z.min i rest
  end.

Section Reconcile.
Variable upstreamMap : gmap string (option Z).
Variable localNameMap : gmap string Z.
Variable localIdSet : gset Z.

(** [upstreamPlayerMap.get(playerName) ?? nextNegativeId--]: the id and
    the counter afterwards. *)
Definition upstream_or_next (playerName : string) (nextNegativeId : Z) : Z * Z :=
  match upstreamMap !! playerName with
  | Some (Some id) => (id, nextNegativeId)
  | _ => (nextNegativeId, nextNegativeId - 1)%Z
  end.

(** [if (id > 0 && localPlayerIdSet.has(id)) id = nextNegativeId--]. *)
Definition avoid_collision (id nextNegativeId : Z) : Z * Z :=
  if decide ((0 < id)%Z /\ id ∈ localIdSet)
  then (nextNegativeId, nextNegativeId - 1)%Z
  else (id, nextNegativeId).

(** The body of [for (const playerName of playerNames)], with the two
    variables it updates. *)
Fixpoint reconcile (playerNames : list string) (nextNegativeId : Z)
    (playersToSync : list Player) : Z * list Player :=
  match playerNames with
  | [] => (nextNegativeId, playersToSync)
  | playerName :: rest =>
      if decide (is_Some (localNameMap !! playerName)) then
        reconcile rest nextNegativeId playersToSync
      else
        let '(id, next) := upstream_or_next playerName nextNegativeId in
        let '(id, next) := avoid_collision id next in
        reconcile rest next (playersToSync ++ [mkPlayer id playerName])
  end.
End Reconcile.

(** The value of [playersToSync] when the loop ends. *)
Definition playersToSync (upstream : Upstream) (playerNames : list string)
    (localPlayers : list Player) : list Player :=
  (reconcile (upstreamPlayerMap (upstreamPlayers upstream playerNames))
     (localPlayerNameMap localPlayers) (localPlayerIdSet localPlayers)
     playerNames (minNegativeId localPlayers - 1)%Z []).2.

(** The first query binds [eventIds] three times, the second binds the
    names, [Math.min] is called with the negative ids spread (with none,
    [minNegativeId] is 0 and nothing is spread), and the [INSERT] binds
    an id and a name for each row. *)
Definition syncPlayers `{Platform} (upstream : Upstream) (eventIds : list Z) : M nat :=
  if decide (length eventIds = 0) then ret 0 else
  await playerNames <- bound (3 * length eventIds)
                         (ret (referencedPlayerNames upstream eventIds));
  if decide (length playerNames = 0) then ret 0 else
  await upstreamRows <- bound (length playerNames)
                          (ret (upstreamPlayers upstream playerNames));
  await localPlayers <- query players;
  await lowest <- spread (length (negativeIds localPlayers))
                    (ret (minNegativeId localPlayers));
  let toSync :=
    (reconcile (upstreamPlayerMap upstreamRows)
       (localPlayerNameMap localPlayers) (localPlayerIdSet localPlayers)
       playerNames (lowest - 1)%Z []).2 in
  await _ <- (if decide (0 < length toSync)
              then bound (2 * length toSync) (exec Players insert_players toSync)
              else ret ());
  ret (length toSync).

(** ** Pipeline stages *)

(** One statement for all the events, seven bound columns each. *)
Definition syncEvents (newEvents : list EventRecord) : M nat :=
  if decide (length newEvents = 0) then ret 0 else
  await _ <- bound (7 * length newEvents) (exec Events upsert_events newEvents);
  ret (length newEvents).

(** The [ORDER BY] clauses of the four extraction queries. *)
Definition by_event_rank (a b : Standing) : Prop :=
  (s_event_id a < s_event_id b
   \/ (s_event_id a = s_event_id b /\ s_rank a <= s_rank b))%Z.
Definition by_event_round_player (a b : Match) : Prop :=
  (m_event_id a < m_event_id b)%Z
  \/ (m_event_id a = m_event_id b
      /\ ((m_round a < m_round b)%Z
          \/ (m_round a = m_round b /\ String.leb (m_player a) (m_player b)))).
Definition by_event_player (a b : Deck) : Prop :=
  (d_event_id a < d_event_id b)%Z
  \/ (d_event_id a = d_event_id b /\ String.leb (d_player a) (d_player b)).
Definition by_id (a b : Archetype) : Prop := (a_id a <= a_id b)%Z.

#[global] Instance by_event_rank_dec a b : Decision (by_event_rank a b).
Proof. unfold by_event_rank. apply _. Defined.
#[global] Instance by_event_round_player_dec a b :
  Decision (by_event_round_player a b).
Proof. unfold by_event_round_player. apply _. Defined.
#[global] Instance by_event_player_dec a b : Decision (by_event_player a b).
Proof. unfold by_event_player. apply _. Defined.
#[global] Instance by_id_dec a b : Decision (by_id a b).
Proof. unfold by_id. apply _. Defined.

Definition upstreamStandings (upstream : Upstream) (eventIds : list Z) : list Standing :=
  merge_sort by_event_rank
    (filter (fun s => s_event_id s ∈ eventIds) (u_standings upstream)).
Definition upstreamMatches (upstream : Upstream) (eventIds : list Z) : list Match :=
  merge_sort by_event_round_player
    (filter (fun m => m_event_id m ∈ eventIds) (u_matches upstream)).
Definition upstreamDecks (upstream : Upstream) (eventIds : list Z) : list Deck :=
  merge_sort by_event_player
    (filter (fun d => d_event_id d ∈ eventIds) (u_decks upstream)).

(** [SELECT id FROM decks WHERE event_id IN eventIds], unordered. *)
Definition upstreamDeckIds (upstream : Upstream) (eventIds : list Z) : list Z :=
  d_id <$> filter (fun d => d_event_id d ∈ eventIds) (u_decks upstream).
(** [deck_id IN deckIdArray]: a null [deck_id] is in no list. *)
Definition deck_id_in (deckIdArray : list Z) (a : Archetype) : bool :=
  match a_deck_id a with
  | Some i => bool_decide (i ∈ deckIdArray)
  | None => false
  end.
Definition upstreamArchetypes (upstream : Upstream) (deckIdArray : list Z)
    : list Archetype :=
  merge_sort by_id
    (filter (fun a => deck_id_in deckIdArray a) (u_archetypes upstream)).

(** Each extraction query binds the identifiers of its [IN] list.  The
    statements of the batch loops bind at most 8000 * 8, 7000 * 9 and
    13000 * 5 parameters, which the driver sends (lemma
    [categories_batch_sizes]). *)
Definition syncStandings (upstream : Upstream) (eventIds : list Z) : M nat :=
  if decide (length eventIds = 0) then ret 0 else
  await rows <- bound (length eventIds) (ret (upstreamStandings upstream eventIds));
  if decide (length rows = 0) then ret 0 else
  await _ <- write_batches Standings upsert_standings 8000 rows;
  ret (length rows).

Definition syncMatches (upstream : Upstream) (eventIds : list Z) : M nat :=
  if decide (length eventIds = 0) then ret 0 else
  await rows <- bound (length eventIds) (ret (upstreamMatches upstream eventIds));
  if decide (length rows = 0) then ret 0 else
  await _ <- write_batches Matches upsert_matches 7000 rows;
  ret (length rows).

Definition syncDecks (upstream : Upstream) (eventIds : list Z) : M nat :=
  if decide (length eventIds = 0) then ret 0 else
  await rows <- bound (length eventIds) (ret (upstreamDecks upstream eventIds));
  if decide (length rows = 0) then ret 0 else
  await _ <- write_batches Decks upsert_decks 13000 rows;
  ret (length rows).

Definition syncArchetypes (upstream : Upstream) (eventIds : list Z) : M nat :=
  if decide (length eventIds = 0) then ret 0 else
  await deckIds <- bound (length eventIds) (ret (upstreamDeckIds upstream eventIds));
  if decide (length deckIds = 0) then ret 0 else
  await rows <- bound (length deckIds) (ret (upstreamArchetypes upstream deckIds));
  if decide (length rows = 0) then ret 0 else
  await _ <- write_batches Archetypes upsert_archetypes 13000 rows;
  ret (length rows).

(** ** The run *)

Record SyncStats := mkStats {
  stats_events : nat;
  stats_players : nat;
  stats_matches : nat;
  stats_decks : nat;
  stats_standings : nat;
  stats_archetypes : nat
}.

(** What the closing summary prints: new, updated and total events, then
    the per-category counts. *)
Record Summary := mkSummary {
  new_events : nat;
  updated_events : nat;
  total_events : nat;
  stats : SyncStats
}.

Definition no_stats : SyncStats := mkStats 0 0 0 0 0 0.

Definition sync `{Platform} (upstream : Upstream) : M Summary :=
  await localEventIds <- query getLocalEventIds;
  await incompleteEventIds <- query getIncompleteEventIds;
  await newEvents <- getUpstreamEvents upstream localEventIds;
  let allEventIds := (e_id <$> newEvents) ++ incompleteEventIds in
  if decide (length allEventIds = 0) then ret (mkSummary 0 0 0 no_stats) else
  await n_players <- syncPlayers upstream allEventIds;
  await n_events <- (if decide (0 < length newEvents)
                     then syncEvents newEvents
                     else ret 0);
  await n_standings <- syncStandings upstream allEventIds;
  await n_matches <- syncMatches upstream allEventIds;
  await n_decks <- syncDecks upstream allEventIds;
  await n_archetypes <- syncArchetypes upstream allEventIds;
  ret (mkSummary (length newEvents) (length incompleteEventIds) (length allEventIds)
         (mkStats n_events n_players n_matches n_decks n_standings n_archetypes)).

(** * The merge from a snapshot *)

(** The merge script's statements: one row each, [ON CONFLICT ... DO
    NOTHING]. *)
Definition merge_insert_player (batch : list Player) (db : Database) : option Database :=
  t ← insert_on_conflict_do_nothing p_id
        (λ t r, bool_decide (p_name r ∉ p_name <$> t)) (players db) batch;
  Some (with_players t db).
Definition merge_insert_event (batch : list EventRecord) (db : Database) : option Database :=
  t ← insert_on_conflict_do_nothing e_id (λ _ _, true) (events db) batch;
  Some (with_events t db).
Definition merge_insert_deck (batch : list Deck) (db : Database) : option Database :=
  t ← insert_on_conflict_do_nothing d_id (λ _ r, deck_fk db r) (decks db) batch;
  Some (with_decks t db).
Definition merge_insert_match (batch : list Match) (db : Database) : option Database :=
  t ← insert_on_conflict_do_nothing match_key (λ _ r, match_fk db r) (matches db) batch;
  Some (with_matches t db).
Definition merge_insert_standing (batch : list Standing) (db : Database) : option Database :=
  t ← insert_on_conflict_do_nothing standing_key (λ _ r, standing_fk db r)
        (standings db) batch;
  Some (with_standings t db).
Definition merge_insert_archetype (batch : list Archetype) (db : Database) : option Database :=
  t ← insert_on_conflict_do_nothing a_id (λ _ r, archetype_fk db r)
        (archetypes db) batch;
  Some (with_archetypes t db).

(** The selections from the scratch database; the [dblink] subqueries
    read the target as it stands when the selection runs. *)
Definition newPlayers (snapshot db : Database) : list Player :=
  filter (fun p => p_id p ∉ p_id <$> players db) (players snapshot).
Definition newEvents (snapshot db : Database) : list EventRecord :=
  filter (fun e => e_id e ∉ e_id <$> events db) (events snapshot).
Definition newDecks (snapshot db : Database) : list Deck :=
  filter (fun d => (d_id d ∉ (d_id <$> decks db))
                   /\ d_player d ∈ (p_name <$> players db)) (decks snapshot).
Definition newMatches (snapshot db : Database) : list Match :=
  filter (fun m => (match_key m ∉ (match_key <$> matches db))
                   /\ m_player m ∈ (p_name <$> players db)
                   /\ m_event_id m ∈ (e_id <$> events db)) (matches snapshot).
Definition newStandings (snapshot db : Database) : list Standing :=
  filter (fun s => (standing_key s ∉ (standing_key <$> standings db))
                   /\ s_player s ∈ (p_name <$> players db)
                   /\ s_event_id s ∈ (e_id <$> events db)) (standings snapshot).
Definition newArchetypes (snapshot db : Database) : list Archetype :=
  filter (fun a => (a_id a ∉ (a_id <$> archetypes db))
                   /\ (a_deck_id a = None
                       \/ a_deck_id a ∈ (Some <$> (d_id <$> decks db))))
         (archetypes snapshot).

Section ForOf.
Context {Row : Type}.
Variable stage : Stage.
Variable statement : list Row -> Database -> option Database.

(** [for (const row of rows) { await sql`INSERT ...`; count++ }]. *)
Fixpoint for_each (rows : list Row) (count : nat) : M nat :=
  match rows with
  | [] => ret count
  | row :: rest =>
      await _ <- exec stage statement [row];
      for_each rest (count + 1)
  end.

(** [for (const row of rows) { try { await sql`INSERT ...`; count++ }
    catch (err) { } }]. *)
Fixpoint for_each_try (rows : list Row) (count : nat) : M nat :=
  match rows with
  | [] => ret count
  | row :: rest =>
      await count' <- try_catch
                        (await _ <- exec stage statement [row]; ret (count + 1))
                        (ret count);
      for_each_try rest count'
  end.
End ForOf.

Definition mergeDatabases (snapshot : Database) : M SyncStats :=
  await rows <- query (newPlayers snapshot);
  await n_players <- for_each Players merge_insert_player rows 0;
  await rows <- query (newEvents snapshot);
  await n_events <- for_each Events merge_insert_event rows 0;
  await rows <- query (newDecks snapshot);
  await n_decks <- for_each_try Decks merge_insert_deck rows 0;
  await rows <- query (newMatches snapshot);
  await n_matches <- for_each_try Matches merge_insert_match rows 0;
  await rows <- query (newStandings snapshot);
  await n_standings <- for_each_try Standings merge_insert_standing rows 0;
  await rows <- query (newArchetypes snapshot);
  await n_archetypes <- for_each_try Archetypes merge_insert_archetype rows 0;
  ret (mkStats n_events n_players n_matches n_decks n_standings n_archetypes).

(** * The recent-events report *)

(** [SELECT id, name, date, format, kind, rounds, players FROM events
    ORDER BY date DESC, id DESC LIMIT 10], the rows that
    [fetchRecentEvents] prints. *)
Definition fetchRecentEvents (db : Database) : list EventRecord :=
  take 10 (merge_sort event_date_desc_id_desc (events db)).

(** * The tunnel setup: the [.env] file and the configuration template

    A JavaScript string is the list of its UTF-16 code units; the regular
    expressions of the script have no [u] flag and work on code units. *)

Definition js_string : Type := list N.

(** A string literal of the script (ASCII). *)
Definition js (s : string) : js_string :=
  Ascii.N_of_ascii <$> String.list_ascii_of_string s.

Definition in_range (lo hi c : N) : bool := (lo <=? c)%N && (c <=? hi)%N.

(** [\s], which is also what [trim()] removes: the white space and line
    terminator code units. *)
Definition is_space (c : N) : bool :=
  in_range 9 13 c || (c =? 32)%N || (c =? 160)%N || (c =? 5760)%N
  || in_range 8192 8202 c || (c =? 8232)%N || (c =? 8233)%N || (c =? 8239)%N
  || (c =? 8287)%N || (c =? 12288)%N || (c =? 65279)%N.

(** What [.] does not match. *)
Definition is_line_terminator (c : N) : bool :=
  (c =? 10)%N || (c =? 13)%N || (c =? 8232)%N || (c =? 8233)%N.

(** [[A-Z0-9_]] and [[A-Z_]]. *)
Definition is_env_char (c : N) : bool :=
  in_range 65 90 c || in_range 48 57 c || (c =? 95)%N.
Definition is_placeholder_char (c : N) : bool :=
  in_range 65 90 c || (c =? 95)%N.

(** [\w]: the characters that stand for themselves when a key is pasted
    into a regular expression. *)
Definition is_word_char (c : N) : bool :=
  in_range 65 90 c || in_range 97 122 c || in_range 48 57 c || (c =? 95)%N.

(** A greedy [[class]*]: the longest run at the head, and the rest. *)
Fixpoint span (class : N -> bool) (s : js_string) : js_string * js_string :=
  match s with
  | [] => ([], [])
  | c :: s' =>
      if class c then let '(run, rest) := span class s' in (c :: run, rest)
      else ([], s)
  end.

(** [^key] for a [key] of word characters: what follows the key at the
    head of [line]. *)
Fixpoint after_literal (key line : js_string) : option js_string :=
  match key, line with
  | [], _ => Some line
  | k :: key', c :: line' =>
      if decide (k = c) then after_literal key' line' else None
  | _ :: _, [] => None
  end.

(** [line.match(new RegExp(`^${key}\\s*=`))], for a [key] of word
    characters. *)
Definition assigns (key line : js_string) : bool :=
  match after_literal key line with
  | Some rest =>
      match (span is_space rest).2 with
      | c :: _ => (c =? 61)%N
      | [] => false
      end
  | None => false
  end.

(** [lines.findIndex(p)], with [None] for [-1]. *)
Fixpoint findIndex {A} (p : A -> bool) (l : list A) : option nat :=
  match l with
  | [] => None
  | x :: l' => if p x then Some 0 else S <$> findIndex p l'
  end.

(** [`${key}=${value}`]. *)
Definition assignment (key value : js_string) : js_string :=
  key ++ 61%N :: value.

(** [setEnvVar], which updates [lines] in place: the array afterwards. *)
Definition setEnvVar (lines : list js_string) (key value : js_string)
    : list js_string :=
  match findIndex (assigns key) lines with
  | Some idx => <[idx := assignment key value]> lines
  | None => lines ++ [assignment key value]
  end.

(** [line.match] with the pattern [^([A-Z0-9_]+)=] followed by a group
    of any characters but line terminators that reaches the end of the
    line: the two groups. *)
Definition match_assignment (line : js_string) : option (js_string * js_string) :=
  match span is_env_char line with
  | ((_ :: _) as name, c :: value) =>
      if (c =? 61)%N && forallb (fun c => negb (is_line_terminator c)) value
      then Some (name, value) else None
  | _ => None
  end.

(** The body of the loop of [parseEnvFile]: a line that matches sets its
    name, replacing what the name held. *)
Definition parse_line (envObj : gmap js_string js_string) (line : js_string)
    : gmap js_string js_string :=
  match match_assignment line with
  | Some (name, value) => <[name := value]> envObj
  | None => envObj
  end.

Definition parseEnvFile (lines : list js_string) : gmap js_string js_string :=
  foldl parse_line ∅ lines.

(** [content.split('\n')] and [lines.join('\n')]. *)
Fixpoint split_lines (content : js_string) : list js_string :=
  match content with
  | [] => [[]]
  | c :: content' =>
      if (c =? 10)%N then [] :: split_lines content'
      else match split_lines content' with
           | line :: lines => (c :: line) :: lines
           | [] => [[c]]
           end
  end.
Fixpoint join_lines (lines : list js_string) : js_string :=
  match lines with
  | [] => []
  | [line] => line
  | line :: lines' => line ++ 10%N :: join_lines lines'
  end.

(** [envLines.filter(l => l.trim() !== '').join('\n')], what [main]
    writes to [.env]. *)
Definition envFileContent (envLines : list js_string) : js_string :=
  join_lines (filter (fun l => forallb is_space l = false) envLines).

(** The three updates of [main], in its order. *)
Definition updateEnv (envLines : list js_string)
    (hostname tunnelName tunnelId : js_string) : list js_string :=
  setEnvVar
    (setEnvVar
       (setEnvVar envLines (js "CLOUDFLARED_TUNNEL_HOSTNAME") hostname)
       (js "CLOUDFLARED_TUNNEL_NAME") tunnelName)
    (js "CLOUDFLARED_TUNNEL_ID") tunnelId.

(** One attempt of [/\$\{([A-Z_]+)\}/] at the head of [s]: the name and
    what follows the match. *)
Definition match_placeholder (s : js_string) : option (js_string * js_string) :=
  match s with
  | dollar :: brace :: s' =>
      if (dollar =? 36)%N && (brace =? 123)%N then
        match span is_placeholder_char s' with
        | ((_ :: _) as name, close :: rest) =>
            if (close =? 125)%N then Some (name, rest) else None
        | _ => None
        end
      else None
  | _ => None
  end.

(** [template.replace(/\$\{([A-Z_]+)\}/g, (_, key) => value key)]: the
    matches are taken from left to right and do not overlap.  Every turn
    consumes a code unit, so [fuel] above the length of [s] is enough
    (lemma [replace_fuel]). *)
Fixpoint replace (value : js_string -> js_string) (fuel : nat) (s : js_string)
    : js_string :=
  match fuel with
  | O => s
  | S fuel' =>
      match match_placeholder s with
      | Some (name, rest) => value name ++ replace value fuel' rest
      | None =>
          match s with
          | [] => []
          | c :: s' => c :: replace value fuel' s'
          end
      end
  end.

(** [process.env[key] ?? envVars[key]], and [''] when both are
    undefined. *)
Definition lookup_variable (processEnv envVars : gmap js_string js_string)
    (key : js_string) : js_string :=
  match processEnv !! key with
  | Some value => value
  | None => default [] (envVars !! key)
  end.

(** The text of [config.yml]. *)
Definition configYml (processEnv envVars : gmap js_string js_string)
    (template : js_string) : js_string :=
  replace (lookup_variable processEnv envVars) (S (length template)) template.

(** * Vocabulary of the statements proved below *)

(** The rows of a record set applied one after the other. *)
Definition upsert_all {Row Key : Type} `{EqDecision Key}
    (key : Row -> Key) (upd : Row -> Row -> Row) (t rows : list Row) : list Row :=
  foldl (upsert_row key upd) t rows.

(** [present key t r]: a lookup of [r]'s key in [t] finds exactly [r]. *)
Definition present {Row Key : Type} (key : Row -> Key) (t : list Row) (r : Row) : Prop :=
  exists pre post, t = pre ++ r :: post /\ key r ∉ key <$> pre.

(** A list of statements issued in order, stopping at the first that
    throws. *)
Fixpoint exec_each {Row} (stage : Stage)
    (statement : list Row -> Database -> option Database)
    (bs : list (list Row)) : M unit :=
  match bs with
  | [] => ret ()
  | b :: bs' => await _ <- exec stage statement b; exec_each stage statement bs'
  end.

(** The upstream events whose id is not in [excludeIds], most recent
    first: the rows of either query of [getUpstreamEvents]. *)
Definition upstreamEvents (upstream : Upstream) (excludeIds : gset Z)
    : list EventRecord :=
  merge_sort event_date_desc_id_desc
    (filter (fun e => e_id e ∉ excludeIds) (u_events upstream)).

(** The list of event identifiers a run works on. *)
Definition allEventIdsToSync (upstream : Upstream) (db : Database) : list Z :=
  (e_id <$> upstreamEvents upstream (getLocalEventIds db))
  ++ getIncompleteEventIds db.

(** The Players stage stays within what the driver sends and the engine
    takes: the three [IN] lists of the first query and, when a name is
    referenced, the names bound by the second query, the negative ids
    spread into [Math.min] and the rows bound by the [INSERT]. *)
Definition players_stage_within `{Platform} (upstream : Upstream)
    (eventIds : list Z) (localPlayers : list Player) : Prop :=
  let playerNames := referencedPlayerNames upstream eventIds in
  3 * length eventIds < PARAMETER_LIMIT
  /\ (playerNames <> [] ->
      length playerNames < PARAMETER_LIMIT
      /\ length (negativeIds localPlayers) <= max_arguments
      /\ 2 * length (playersToSync upstream playerNames localPlayers)
         < PARAMETER_LIMIT).

#[global] Instance players_stage_within_dec `{Platform} upstream eventIds localPlayers :
  Decision (players_stage_within upstream eventIds localPlayers).
Proof. unfold players_stage_within. apply _. Defined.

(** The four categories written by the batch loop: the rows, their unique
    key, their table, the statement, the number of columns bound per row
    and the batch size. *)
Record Category := mkCategory {
  row : Type;
  key_type : Type;
  key_eq_dec : EqDecision key_type;
  unique_key : row -> key_type;
  table_of : Database -> list row;
  stage_of : Stage;
  statement_of : list row -> Database -> option Database;
  columns : nat;
  BATCH_SIZE : nat
}.

Definition standings_category : Category :=
  mkCategory Standing (Z * string) _ standing_key standings
             Standings upsert_standings 8 8000.
Definition matches_category : Category :=
  mkCategory Match (Z * Z * string) _ match_key matches
             Matches upsert_matches 9 7000.
Definition decks_category : Category :=
  mkCategory Deck Z _ d_id decks Decks upsert_decks 5 13000.
Definition archetypes_category : Category :=
  mkCategory Archetype Z _ a_id archetypes Archetypes upsert_archetypes 5 13000.

Definition categories : list Category :=
  [standings_category; matches_category; decks_category; archetypes_category].

(** The batch loop of a category, as [syncStandings], [syncMatches],
    [syncDecks] and [syncArchetypes] run it. *)
Definition write (c : Category) (rows : list (row c)) : M nat :=
  write_batches (stage_of c) (statement_of c) (BATCH_SIZE c) rows.

(** What PostgreSQL accepts as one upsert statement: distinct conflict
    keys and no row that breaks a constraint. *)
Definition accepted {Row Key : Type} (key : Row -> Key)
    (fk : Database -> Row -> bool) (db : Database) (batch : list Row) : Prop :=
  NoDup (key <$> batch) /\ forallb (fk db) batch = true.

(** Each category's statement is an upsert on its own table, its [SET]
    list overwrites every bound column that is not part of the key, and
    its constraints look at other tables only. *)
Definition upsert_laws (c : Category) : Prop :=
  exists (upd : row c -> row c -> row c) (fk : Database -> row c -> bool)
         (with_table : list (row c) -> Database -> Database),
    (forall x r, unique_key c x = unique_key c r -> upd x r = r)
    /\ (forall batch db,
          statement_of c batch db =
          (t ← @insert_on_conflict_do_update _ _ (key_eq_dec c) (unique_key c) upd
                 (fk db) batch (table_of c db);
           Some (with_table t db)))
    /\ (forall t db, table_of c (with_table t db) = t)
    /\ (forall t t' db, with_table t (with_table t' db) = with_table t db)
    /\ (forall db, with_table (table_of c db) db = db)
    /\ (forall t db, fk (with_table t db) = fk db).

(** A name draws its id from the negative counter when it has no
    upstream id, or when its upstream id is positive and taken on the
    target. *)
Definition synthesizes (upstreamMap : gmap string (option Z)) (localIds : list Z)
    (name : string) : Prop :=
  match upstreamMap !! name with
  | Some (Some id) => (0 < id)%Z /\ id ∈ localIds
  | _ => True
  end.

#[global] Instance synthesizes_dec upstreamMap localIds name :
  Decision (synthesizes upstreamMap localIds name).
Proof. unfold synthesizes. destruct (upstreamMap !! name) as [[?|]|]; apply _. Defined.

(** The identifier prescribed for [name] when the names in [earlier] were
    resolved before it in the same run and [floor] is the lowest negative
    identifier on the target (0 if there is none). *)
Definition resolved_id (upstreamMap : gmap string (option Z)) (localIds : list Z)
    (floor : Z) (earlier : list string) (name : string) : Z :=
  let drawn := Z.of_nat (length (filter (synthesizes upstreamMap localIds) earlier)) in
  match upstreamMap !! name with
  | Some (Some id) =>
      if decide ((0 < id)%Z /\ id ∈ localIds) then (floor - 1 - drawn)%Z else id
  | _ => (floor - 1 - drawn)%Z
  end.

(** The entries the reconciler is to produce for the names that are not
    on the target, in order, starting from the counter [next]. *)
Fixpoint assign_ids (upstreamMap : gmap string (option Z)) (localIds : list Z)
    (names : list string) (next : Z) : list Player :=
  match names with
  | [] => []
  | name :: rest =>
      if decide (synthesizes upstreamMap localIds name)
      then mkPlayer next name :: assign_ids upstreamMap localIds rest (next - 1)
      else mkPlayer (default 0%Z (default None (upstreamMap !! name))) name
             :: assign_ids upstreamMap localIds rest next
  end.

(** The entries of a run's [playersToSync] whose id was drawn from the
    negative counter. *)
Definition synthesized `{Platform} (upstream : Upstream) (eventIds : list Z)
    (localPlayers : list Player) : list Player :=
  let playerNames := referencedPlayerNames upstream eventIds in
  filter (fun p => synthesizes (upstreamPlayerMap (upstreamPlayers upstream playerNames))
                     (p_id <$> localPlayers) (p_name p))
         (playersToSync upstream playerNames localPlayers).

(** One run of the Players stage against the target, and the synthesized
    entries that reached the target so far. *)
Definition players_run `{Platform} (st : Database * list Player)
    (run : Upstream * list Z)
    : Database * list Player :=
  match syncPlayers run.1 run.2 (mkWorld st.1 []) with
  | (Returned _, w') => (target w', st.2 ++ synthesized run.1 run.2 (players st.1))
  | (Thrown, w') => (target w', st.2)
  end.

Definition players_runs `{Platform} (db : Database)
    (runs : list (Upstream * list Z))
    : Database * list Player :=
  foldl players_run (db, []) runs.

(** The invariant of the players table over runs of the Players stage. *)
Definition players_inv (db0 : Database) (st : Database * list Player) : Prop :=
  NoDup (p_id <$> players st.1)
  /\ NoDup (p_id <$> st.2)
  /\ (forall p, p ∈ st.2 ->
        (p_id p < 0)%Z /\ p ∈ players st.1 /\ p_id p ∉ p_id <$> players db0)
  /\ exists ext, players st.1 = players db0 ++ ext.

(** The tail shared by the four extraction stages: nothing to do for an
    empty record set, otherwise the batch loop and the number of rows. *)
Definition guarded_write {Row} (stage : Stage)
    (statement : list Row -> Database -> option Database) (B : nat)
    (rows : list Row) : M nat :=
  if decide (length rows = 0) then ret 0 else
  await _ <- write_batches stage statement B rows;
  ret (length rows).

(** The target a run leaves behind when every stage returns. *)
Definition sync_result `{Platform} (upstream : Upstream) (db : Database) : Database :=
  let newEvents := upstreamEvents upstream (getLocalEventIds db) in
  let allEventIds := allEventIdsToSync upstream db in
  mkDatabase
    (upsert_all e_id event_excluded (events db) newEvents)
    (players db
     ++ playersToSync upstream (referencedPlayerNames upstream allEventIds) (players db))
    (upsert_all standing_key standing_excluded (standings db)
       (upstreamStandings upstream allEventIds))
    (upsert_all match_key match_excluded (matches db)
       (upstreamMatches upstream allEventIds))
    (upsert_all d_id deck_excluded (decks db) (upstreamDecks upstream allEventIds))
    (upsert_all a_id archetype_excluded (archetypes db)
       (upstreamArchetypes upstream (upstreamDeckIds upstream allEventIds))).

(** The summary such a run prints. *)
Definition sync_summary `{Platform} (upstream : Upstream) (db : Database) : Summary :=
  let newEvents := upstreamEvents upstream (getLocalEventIds db) in
  let allEventIds := allEventIdsToSync upstream db in
  mkSummary (length newEvents) (length (getIncompleteEventIds db)) (length allEventIds)
    (mkStats
       (length newEvents)
       (length (playersToSync upstream (referencedPlayerNames upstream allEventIds)
                  (players db)))
       (length (upstreamMatches upstream allEventIds))
       (length (upstreamDecks upstream allEventIds))
       (length (upstreamStandings upstream allEventIds))
       (length (upstreamArchetypes upstream (upstreamDeckIds upstream allEventIds)))).

(** The upstream tables satisfy the unique keys of the schema. *)
Definition upstream_keys_unique (upstream : Upstream) : Prop :=
  NoDup (standing_key <$> u_standings upstream)
  /\ NoDup (match_key <$> u_matches upstream)
  /\ NoDup (d_id <$> u_decks upstream)
  /\ NoDup (a_id <$> u_archetypes upstream).

(** The position of a stage in the dependency order. *)
Definition stage_rank (s : Stage) : nat :=
  match s with
  | Players => 0 | Events => 1 | Standings => 2
  | Matches => 3 | Decks => 4 | Archetypes => 5
  end.
Definition stage_le (a b : Stage) : Prop := stage_rank a <= stage_rank b.

(** The computations of [stages] one after the other, each started in
    the world the one before it left; the first that throws ends the
    sequence.  The counts that were returned, in order. *)
Fixpoint in_order (stages : list (M nat)) : M (list nat) :=
  match stages with
  | [] => ret []
  | stage :: rest =>
      await n <- stage;
      await counts <- in_order rest;
      ret (n :: counts)
  end.

(** The six stages of a run over the worklist [allEventIds], of which
    [newEvents] are the events that are new. *)
Definition pipeline `{Platform} (upstream : Upstream) (newEvents : list EventRecord)
    (allEventIds : list Z) : list (M nat) :=
  [syncPlayers upstream allEventIds;
   if decide (0 < length newEvents) then syncEvents newEvents else ret 0;
   syncStandings upstream allEventIds;
   syncMatches upstream allEventIds;
   syncDecks upstream allEventIds;
   syncArchetypes upstream allEventIds].

(** [emits lo hi c w]: run from [w], the computation [c] journals
    statements of stages between [lo] and [hi] only, in dependency
    order. *)
Definition emits {A} (lo hi : nat) (c : M A) (w : World) : Prop :=
  exists j', journal (c w).2 = journal w ++ j'
             /\ StronglySorted stage_le j'.*1
             /\ Forall (fun e => lo <= stage_rank e.1 <= hi) j'.

(** [keeps proj c w]: run from [w], the computation [c] leaves the part
    [proj] of the target as it is. *)
Definition keeps {A X} (proj : Database -> X) (c : M A) (w : World) : Prop :=
  proj (target (c w).2) = proj (target w).

(** One guarded insert of the merge: the target and the count after a
    row whose statement was accepted, or both unchanged after a row whose
    statement was rejected. *)
Definition try_insert {Row} (statement : list Row -> Database -> option Database)
    (st : Database * nat) (row : Row) : Database * nat :=
  match statement [row] st.1 with
  | Some db => (db, st.2 + 1)
  | None => st
  end.

(** ** Relations between the target before and after a computation *)

(** [evolves R c w]: run from [w], the computation [c] leaves a target
    that [R] relates to the one it started from, whether it returns or
    throws. *)
Definition evolves {A} (R : relation Database) (c : M A) (w : World) : Prop :=
  R (target w) (target (c w).2).

(** A statement that moves the target along [R] whenever it is
    accepted. *)
Definition respects {Row} (R : relation Database)
    (statement : list Row -> Database -> option Database) : Prop :=
  forall batch db db', statement batch db = Some db' -> R db db'.

(** No row of [db] was deleted or moved and no key was rewritten: the
    player rows of [db] open the players table of [db'], and the keys of
    every other table of [db], in order, open the keys of that table in
    [db']. *)
Definition keys_kept (db db' : Database) : Prop :=
  players db `prefix_of` players db'
  /\ (e_id <$> events db) `prefix_of` (e_id <$> events db')
  /\ (standing_key <$> standings db) `prefix_of` (standing_key <$> standings db')
  /\ (match_key <$> matches db) `prefix_of` (match_key <$> matches db')
  /\ (d_id <$> decks db) `prefix_of` (d_id <$> decks db')
  /\ (a_id <$> archetypes db) `prefix_of` (a_id <$> archetypes db').

(** Every table of [db'] is the table of [db] with rows added behind
    it. *)
Definition appended (db db' : Database) : Prop :=
  players db `prefix_of` players db'
  /\ events db `prefix_of` events db'
  /\ standings db `prefix_of` standings db'
  /\ matches db `prefix_of` matches db'
  /\ decks db `prefix_of` decks db'
  /\ archetypes db `prefix_of` archetypes db'.

(** The upstream tables satisfy the unique keys of the schema, and the
    player ids that are not null are positive integers of the column's
    range. *)
Definition upstream_schema (upstream : Upstream) : Prop :=
  upstream_keys_unique upstream
  /\ NoDup (e_id <$> u_events upstream)
  /\ NoDup (omap up_id (u_players upstream))
  /\ forall p id, p ∈ u_players upstream -> up_id p = Some id ->
       (0 < id <= 2147483647)%Z.

(** A run from the target [db] stays within the limits: the opening
    query binds the target's event ids, the Players stage sends its
    queries and its call, the Events stage binds seven columns for each
    new event, the Archetypes stage binds the deck ids of the worklist,
    and counting down by one for each referenced name from the lowest
    negative id of the target stays in the range of the id column. *)
Definition run_within `{Platform} (upstream : Upstream) (db : Database) : Prop :=
  let newEvents := upstreamEvents upstream (getLocalEventIds db) in
  let allEventIds := allEventIdsToSync upstream db in
  size (getLocalEventIds db) < PARAMETER_LIMIT
  /\ players_stage_within upstream allEventIds (players db)
  /\ 7 * length newEvents < PARAMETER_LIMIT
  /\ length (upstreamDeckIds upstream allEventIds) < PARAMETER_LIMIT
  /\ (-2147483648 <=
      minNegativeId (players db)
      - Z.of_nat (length (referencedPlayerNames upstream allEventIds)))%Z.

(** The rows carried by the statements that a journal records for a
    stage. *)
Definition rows_sent (stage : Stage) (j : list (Stage * nat)) : nat :=
  sum_list (snd <$> filter (fun e => e.1 = stage) j).

(** The snapshot tables satisfy the unique keys of the schema. *)
Definition snapshot_keys_unique (snapshot : Database) : Prop :=
  NoDup (p_id <$> players snapshot)
  /\ NoDup (e_id <$> events snapshot)
  /\ NoDup (d_id <$> decks snapshot)
  /\ NoDup (match_key <$> matches snapshot)
  /\ NoDup (standing_key <$> standings snapshot)
  /\ NoDup (a_id <$> archetypes snapshot).

(** Everything the snapshot offers is on the target: every player and
    event id; every match and standing whose player and event are on the
    target; every archetype whose deck is null or on the target; and
    every deck whose player is on the target, unless its event is not. *)
Definition merged (snapshot db : Database) : Prop :=
  (forall p, p ∈ players snapshot -> p_id p ∈ p_id <$> players db)
  /\ (forall e, e ∈ events snapshot -> e_id e ∈ e_id <$> events db)
  /\ (forall d, d ∈ decks snapshot -> d_player d ∈ p_name <$> players db ->
        d_id d ∈ d_id <$> decks db \/ d_event_id d ∉ e_id <$> events db)
  /\ (forall m, m ∈ matches snapshot -> m_player m ∈ p_name <$> players db ->
        m_event_id m ∈ e_id <$> events db -> match_key m ∈ match_key <$> matches db)
  /\ (forall s, s ∈ standings snapshot -> s_player s ∈ p_name <$> players db ->
        s_event_id s ∈ e_id <$> events db ->
        standing_key s ∈ standing_key <$> standings db)
  /\ (forall a, a ∈ archetypes snapshot ->
        a_deck_id a = None \/ a_deck_id a ∈ Some <$> (d_id <$> decks db) ->
        a_id a ∈ a_id <$> archetypes db).

(** One loop of the merge as a function of the target: the selection is
    read from the target as it stands, then every selected row is tried
    in order; the target and the number of accepted statements
    afterwards. *)
Definition merge_stage {Row} (statement : list Row -> Database -> option Database)
    (select : Database -> list Row) (db : Database) : Database * nat :=
  foldl (try_insert statement) (db, 0) (select db).

(** The target after each loop of a merge whose two unguarded loops meet
    no rejected row, and the counts of such a merge. *)
Definition after_players (snapshot db : Database) : Database :=
  (merge_stage merge_insert_player (newPlayers snapshot) db).1.
Definition after_events (snapshot db : Database) : Database :=
  (merge_stage merge_insert_event (newEvents snapshot) (after_players snapshot db)).1.
Definition after_decks (snapshot db : Database) : Database :=
  (merge_stage merge_insert_deck (newDecks snapshot) (after_events snapshot db)).1.
Definition after_matches (snapshot db : Database) : Database :=
  (merge_stage merge_insert_match (newMatches snapshot) (after_decks snapshot db)).1.
Definition after_standings (snapshot db : Database) : Database :=
  (merge_stage merge_insert_standing (newStandings snapshot)
     (after_matches snapshot db)).1.
Definition after_archetypes (snapshot db : Database) : Database :=
  (merge_stage merge_insert_archetype (newArchetypes snapshot)
     (after_standings snapshot db)).1.

Definition merge_stats (snapshot db : Database) : SyncStats :=
  mkStats
    (merge_stage merge_insert_event (newEvents snapshot) (after_players snapshot db)).2
    (merge_stage merge_insert_player (newPlayers snapshot) db).2
    (merge_stage merge_insert_match (newMatches snapshot) (after_decks snapshot db)).2
    (merge_stage merge_insert_deck (newDecks snapshot) (after_events snapshot db)).2
    (merge_stage merge_insert_standing (newStandings snapshot)
       (after_matches snapshot db)).2
    (merge_stage merge_insert_archetype (newArchetypes snapshot)
       (after_standings snapshot db)).2.

(** The two targets differ in their players table at most. *)
Definition players_apart (db db' : Database) : Prop :=
  events db' = events db /\ standings db' = standings db
  /\ matches db' = matches db /\ decks db' = decks db
  /\ archetypes db' = archetypes db.

(** ** Vocabulary for the [.env] file *)

(** A key that stands for itself when pasted into a regular expression:
    word characters only. *)
Definition literal_key (key : js_string) : Prop :=
  forallb is_word_char key = true.

(** A name that [parseEnvFile] recognises. *)
Definition env_name (key : js_string) : Prop :=
  key <> [] /\ forallb is_env_char key = true.

(** A value without line terminators. *)
Definition one_line (value : js_string) : Prop :=
  forallb (fun c => negb (is_line_terminator c)) value = true.

(** At most one line of [lines] assigns [key]. *)
Definition assigned_once (key : js_string) (lines : list js_string) : Prop :=
  length (filter (fun line => assigns key line = true) lines) <= 1.

(** [${name}]. *)
Definition placeholder (name : js_string) : js_string :=
  36%N :: 123%N :: name ++ [125%N].

(** * Concrete inputs *)

Module Examples.
#[local] Open Scope string_scope.
#[local] Open Scope Z_scope.

Definition event (id date : Z) (players : option Z) : EventRecord :=
  mkEvent id "Modern Challenge" date "Modern" "Challenge" (Some 7) players.
Definition standing (event_id rank : Z) (player : string) : Standing :=
  mkStanding event_id rank player "3-0" 9 "0.66" "0.75" "0.60".
Definition game (id event_id round : Z) (player opponent : string) : Match :=
  mkMatch id event_id round player opponent "2-0" "win" false "[]".
Definition deck (id event_id : Z) (player : string) : Deck :=
  mkDeck id event_id player "[]" "[]".

Definition empty_db : Database := mkDatabase [] [] [] [] [] [].

(** An engine that takes 100000 arguments in one call, and a server that
    returns the names of a [UNION] in the order of their first
    occurrence. *)
Definition node : Platform :=
  {| max_arguments := 100000;
     union_order := fun names => names;
     union_order_perm := fun names => Permutation_refl names |}.

(** Scenario 1 and 2 of the specification: event 100 is new, its
    standings reference Alice, who is player 7 upstream. *)
Definition upstream_alice : Upstream :=
  mkUpstream [event 100 20240101 (Some 8)] [mkUpstreamPlayer (Some 7) "Alice"]
             [standing 100 1 "Alice"] [] [] [].
Definition target_bob : Database :=
  mkDatabase [] [mkPlayer 7 "Bob"] [] [] [] [].

(** An upstream that is itself a synced copy: Alice carries the
    synthesized id -1 there, which the target gave to Bob. *)
Definition upstream_negative : Upstream :=
  mkUpstream [event 100 20240101 (Some 8)] [mkUpstreamPlayer (Some (-1)) "Alice"]
             [standing 100 1 "Alice"] [] [] [].
Definition target_negative : Database :=
  mkDatabase [] [mkPlayer (-1) "Bob"] [] [] [] [].

(** An event that declares a negative player count and has no rows. *)
Definition target_negative_count : Database :=
  mkDatabase [event 6 20240301 (Some (-3))] [] [] [] [] [].

(** Scenario 3: event 200 has players and matches but no standings. *)
Definition target_incomplete : Database :=
  mkDatabase [event 200 20240201 (Some 8); event 201 20240202 (Some 0)]
             [mkPlayer 1 "Alice"; mkPlayer 2 "Bob"] []
             [game 1 200 1 "Alice" "Bob"] [] [].

Definition target_ready : Database :=
  mkDatabase [event 100 20240101 (Some 8)]
             [mkPlayer 1 "Alice"; mkPlayer 2 "Bob"] [] [] [] [].
Definition three_games : list Match :=
  [game 1 100 1 "Alice" "Bob"; game 2 100 1 "Bob" "Alice";
   game 3 100 2 "Alice" "Bob"].

(** A target with 101 incomplete events, and an upstream that has a
    standing and a match for each of them. *)
Definition many_ids : list Z := Z.of_nat <$> seq 1 101.
Definition upstream_many : Upstream :=
  mkUpstream ((fun i => event i i (Some 8)) <$> many_ids)
             [mkUpstreamPlayer (Some 1) "Alice"]
             ((fun i => standing i 1 "Alice") <$> many_ids)
             ((fun i => game i i 1 "Alice" "Bob") <$> many_ids) [] [].
Definition target_many : Database :=
  mkDatabase ((fun i => event i i (Some 8)) <$> many_ids)
             [mkPlayer 1 "Alice"] [] [] [] [].

(** A snapshot whose only deck belongs to an event the target lacks. *)
Definition snapshot_orphan : Database :=
  mkDatabase [] [] [] [] [deck 5 999 "Alice"] [].

(** An upstream whose first match names a player the target lacks. *)
Definition upstream_ghost : Upstream :=
  mkUpstream [] [] []
             [game 1 100 1 "Ghost" "Alice"; game 2 100 2 "Alice" "Bob"] [] [].
End Examples.

Module Scenarios.
Import Examples.
#[local] Open Scope string_scope.
#[local] Open Scope Z_scope.

Definition archetype (id deck_id : Z) : Archetype :=
  mkArchetype id (Some deck_id) "Burn" "Aggro" (Some 3).

(** An upstream with one event and a row in every table; Bob has no
    upstream id. *)
Definition upstream_full : Upstream :=
  mkUpstream [event 100 20240101 (Some 8)]
             [mkUpstreamPlayer (Some 7) "Alice"; mkUpstreamPlayer None "Bob"]
             [standing 100 1 "Alice"; standing 100 2 "Bob"]
             [game 1 100 1 "Alice" "Bob"]
             [deck 5 100 "Alice"]
             [archetype 9 5].

(** A target on which Alice is known. *)
Definition target_alice : Database :=
  mkDatabase [] [mkPlayer 1 "Alice"] [] [] [] [].

(** A snapshot with a new player, a new event and its rows, and a deck
    of an event that neither the snapshot nor the target holds. *)
Definition snapshot_small : Database :=
  mkDatabase [event 100 20240101 (Some 8); event 300 20240301 (Some 8)]
             [mkPlayer 1 "Alice"; mkPlayer 3 "Carol"]
             [standing 300 1 "Carol"]
             [game 7 300 1 "Carol" "Alice"]
             [deck 5 300 "Carol"; deck 6 999 "Alice"]
             [archetype 9 5].

(** A snapshot in which Alice carries another id than on the target. *)
Definition snapshot_clash : Database :=
  mkDatabase [] [mkPlayer 42 "Alice"] [] [] [] [].

(** A [.env] file of three lines, the last one empty. *)
Definition env_lines : list js_string :=
  [js "POSTGRES_DB=mtgo"; js "CLOUDFLARED_TUNNEL_ID = old"; js ""].
End Scenarios.

(** * The batched upsert writer *)

(** ** One table under a sequence of upserts *)

Section UpsertFacts.
Context {Row Key : Type} `{EqDecision Key}.
Variable key : Row -> Key.
Variable upd : Row -> Row -> Row.
Hypothesis upd_key : forall x r, key x = key r -> upd x r = r.

Notation "t ⊕ r" := (upsert_row key upd t r) (at level 50, left associativity).

Lemma upsert_row_fresh t r :
  key r ∉ key <$> t -> t ⊕ r = t ++ [r].
Proof.
  induction t as [|x t IH]; simpl; intros Hn; [done|].
  rewrite not_elem_of_cons in Hn. destruct Hn as [Hx Ht].
  case_decide; [congruence|]. by rewrite IH.
Qed.

Lemma upsert_row_keys t r :
  key r ∈ key <$> t -> key <$> (t ⊕ r) = key <$> t.
Proof.
  induction t as [|x t IH]; simpl; intros Hin.
  - by apply elem_of_nil in Hin.
  - case_decide as Hk.
    + simpl. by rewrite (upd_key _ _ Hk), Hk.
    + simpl. f_equal. apply IH.
      apply elem_of_cons in Hin as [?|?]; [congruence|done].
Qed.

Lemma upsert_row_keys_mono t r k :
  k ∈ key <$> t -> k ∈ key <$> (t ⊕ r).
Proof.
  intros Hk. destruct (decide (key r ∈ key <$> t)) as [Hin|Hn].
  - by rewrite upsert_row_keys.
  - rewrite upsert_row_fresh by done. rewrite fmap_app. set_solver.
Qed.

Lemma upsert_row_key_in t r : key r ∈ key <$> (t ⊕ r).
Proof.
  destruct (decide (key r ∈ key <$> t)) as [Hin|Hn].
  - by rewrite upsert_row_keys.
  - rewrite upsert_row_fresh by done. rewrite fmap_app. set_solver.
Qed.

Lemma upsert_row_NoDup t r :
  NoDup (key <$> t) -> NoDup (key <$> (t ⊕ r)).
Proof.
  intros Hnd. destruct (decide (key r ∈ key <$> t)) as [Hin|Hn].
  - by rewrite upsert_row_keys.
  - rewrite upsert_row_fresh by done. rewrite fmap_app. simpl.
    apply NoDup_app. split_and!; [done| |apply NoDup_singleton].
    intros k Hk Hk'. apply list_elem_of_singleton in Hk'. by subst.
Qed.

Ltac upsert_simp :=
  repeat first
    [ rewrite decide_True by congruence
    | rewrite decide_False by congruence
    | rewrite upd_key by congruence ].

Lemma upsert_row_absorb t r r' :
  key r = key r' -> t ⊕ r ⊕ r' = t ⊕ r'.
Proof.
  intros Hk. induction t as [|x t IH]; simpl.
  - by upsert_simp.
  - destruct (decide (key x = key r)) as [Hx|Hx]; simpl.
    + by upsert_simp.
    + upsert_simp. by rewrite IH.
Qed.

Lemma upsert_row_comm t r r' :
  key r <> key r' -> key r' ∈ key <$> t -> t ⊕ r ⊕ r' = t ⊕ r' ⊕ r.
Proof.
  intros Hne. induction t as [|x t IH]; simpl; intros Hin.
  - by apply elem_of_nil in Hin.
  - destruct (decide (key x = key r)) as [Hx|Hx];
    destruct (decide (key x = key r')) as [Hx'|Hx']; simpl.
    + congruence.
    + by upsert_simp.
    + by upsert_simp.
    + upsert_simp. f_equal. apply IH.
      apply elem_of_cons in Hin as [?|?]; [congruence|done].
Qed.

Notation upsert_all := (upsert_all key upd).
Notation present := (present key).

Lemma upsert_all_keys_mono t rows k :
  k ∈ key <$> t -> k ∈ key <$> upsert_all t rows.
Proof.
  revert t. induction rows as [|r rows IH]; simpl; intros t Hk; [done|].
  apply IH. by apply upsert_row_keys_mono.
Qed.

Lemma upsert_all_keys_in t rows r :
  r ∈ rows -> key r ∈ key <$> upsert_all t rows.
Proof.
  revert t. induction rows as [|r' rows IH]; simpl; intros t Hin.
  - by apply elem_of_nil in Hin.
  - apply elem_of_cons in Hin as [->|Hin]; [|by apply IH].
    apply upsert_all_keys_mono, upsert_row_key_in.
Qed.

Lemma upsert_all_NoDup t rows :
  NoDup (key <$> t) -> NoDup (key <$> upsert_all t rows).
Proof.
  revert t. induction rows as [|r rows IH]; simpl; intros t Hnd; [done|].
  by apply IH, upsert_row_NoDup.
Qed.

Lemma upsert_all_app t rows1 rows2 :
  upsert_all t (rows1 ++ rows2) = upsert_all (upsert_all t rows1) rows2.
Proof. apply foldl_app. Qed.

(** A write that is followed by the same rows and then by itself again
    could as well be left out. *)
Lemma upsert_all_absorb t rows r :
  (forall r', r' ∈ rows -> key r' ∈ key <$> t) ->
  upsert_all (t ⊕ r) rows ⊕ r = upsert_all t rows ⊕ r.
Proof.
  revert t. induction rows as [|r' rows IH]; simpl; intros t Hin.
  - by apply upsert_row_absorb.
  - destruct (decide (key r = key r')) as [Hk|Hk].
    + by rewrite upsert_row_absorb.
    + rewrite upsert_row_comm; [|done|apply Hin; set_solver].
      apply IH. intros r'' Hr''. apply upsert_row_keys_mono, Hin. set_solver.
Qed.

Lemma upsert_all_idemp t rows :
  upsert_all (upsert_all t rows) rows = upsert_all t rows.
Proof.
  revert t. induction rows as [|r rows IH] using rev_ind; intros t; [done|].
  rewrite !upsert_all_app. simpl.
  rewrite upsert_all_absorb.
  - by rewrite IH.
  - intros r' Hr'. by apply upsert_all_keys_in.
Qed.

Lemma present_elem_of t r : present t r -> r ∈ t.
Proof. intros (pre & post & -> & _). set_solver. Qed.

Lemma present_noop t r : present t r -> t ⊕ r = t.
Proof.
  intros (pre & post & -> & Hn). induction pre as [|x pre IH]; simpl.
  - by upsert_simp.
  - rewrite fmap_cons, not_elem_of_cons in Hn. destruct Hn as [? ?].
    upsert_simp. f_equal. by apply IH.
Qed.

Lemma present_upsert_row t r : present (t ⊕ r) r.
Proof.
  induction t as [|x t IH]; simpl.
  - exists [], []. split; [done|]. apply not_elem_of_nil.
  - case_decide as Hx.
    + exists [], t. rewrite upd_key by done. split; [done|]. apply not_elem_of_nil.
    + destruct IH as (pre & post & -> & Hn).
      exists (x :: pre), post. split; [done|].
      rewrite fmap_cons, not_elem_of_cons. split; [congruence|done].
Qed.

Lemma present_upsert_other t r r' :
  key r' <> key r -> present t r -> present (t ⊕ r') r.
Proof.
  intros Hne (pre & post & -> & Hn).
  induction pre as [|x pre IH]; simpl.
  - upsert_simp. exists [], (post ⊕ r'). split; [done|]. apply not_elem_of_nil.
  - rewrite fmap_cons, not_elem_of_cons in Hn. destruct Hn as [Hx Hn].
    case_decide as Hx'.
    + exists (upd x r' :: pre), post. split; [done|].
      rewrite fmap_cons, not_elem_of_cons. rewrite upd_key by done.
      split; [congruence|done].
    + destruct (IH Hn) as (pre' & post' & Heq & Hn').
      exists (x :: pre'), post'. rewrite Heq. split; [done|].
      rewrite fmap_cons, not_elem_of_cons. done.
Qed.

Lemma present_upsert_all t rows r :
  NoDup (key <$> rows) -> r ∈ rows -> present (upsert_all t rows) r.
Proof.
  revert t. induction rows as [|r' rows IH]; simpl; intros t Hnd Hin.
  - by apply elem_of_nil in Hin.
  - apply NoDup_cons in Hnd as [Hr' Hnd].
    apply elem_of_cons in Hin as [->|Hin]; [|by apply IH].
    clear IH. assert (Hp : present (t ⊕ r') r') by apply present_upsert_row.
    revert Hp. generalize (t ⊕ r'). clear t.
    induction rows as [|x rows IH]; simpl; intros t Hp; [done|].
    rewrite fmap_cons, not_elem_of_cons in Hr'. destruct Hr' as [? ?].
    apply NoDup_cons in Hnd as [? ?].
    apply IH; [done|done|]. apply present_upsert_other; [congruence|done].
Qed.

Lemma present_upsert_all_noop t rows :
  (forall r, r ∈ rows -> present t r) -> upsert_all t rows = t.
Proof.
  induction rows as [|r rows IH]; simpl; intros Hp; [done|].
  rewrite present_noop by (apply Hp; set_solver).
  apply IH. intros r' Hr'. apply Hp. set_solver.
Qed.
End UpsertFacts.

(** ** The slices of the batch loop *)

Section BatchFacts.
Context {Row : Type}.
Variable B : nat.
Hypothesis B_pos : 0 < B.

Lemma slice_batch i (rows : list Row) :
  slice i (i + B) rows = take B (drop i rows).
Proof. unfold slice. f_equal. lia. Qed.

(** The loop leaves through its test, not through its fuel. *)
Lemma batches_concat fuel i (rows : list Row) :
  length rows - i <= fuel -> concat (batches B fuel i rows) = drop i rows.
Proof.
  revert i. induction fuel as [|fuel IH]; intros i Hfuel; simpl.
  - symmetry. apply drop_ge. lia.
  - case_decide as Hi.
    + simpl. rewrite IH by lia. rewrite slice_batch.
      rewrite <- (drop_drop rows B i). apply take_drop.
    + symmetry. apply drop_ge. lia.
Qed.

Lemma batches_fuel fuel fuel' i (rows : list Row) :
  length rows - i <= fuel -> length rows - i <= fuel' ->
  batches B fuel i rows = batches B fuel' i rows.
Proof.
  revert fuel' i. induction fuel as [|fuel IH]; intros [|fuel'] i H1 H2; simpl;
    try done.
  - rewrite decide_False by lia. done.
  - rewrite decide_False by lia. done.
  - case_decide; [|done]. f_equal. apply IH; lia.
Qed.


Lemma batches_sublist fuel i (rows : list Row) :
  Forall (fun b => b `sublist_of` rows) (batches B fuel i rows).
Proof.
  revert i. induction fuel as [|fuel IH]; intros i; simpl; [constructor|].
  case_decide as Hi; [|constructor].
  constructor; [|apply IH].
  rewrite slice_batch. etrans; [apply sublist_take|apply sublist_drop].
Qed.

(** A record set no larger than the batch size goes out as one
    statement. *)
Lemma batches_single (rows : list Row) :
  0 < length rows <= B -> batches B (length rows) 0 rows = [rows].
Proof.
  intros [Hpos Hle]. destruct rows as [|r rows]; simpl in *; [lia|].
  unfold slice. simpl. rewrite Nat.sub_0_r.
  destruct B as [|b]; [lia|]. simpl. rewrite take_ge by lia. f_equal.
  destruct (length rows) as [|n] eqn:Hn; [done|]. simpl.
  rewrite decide_False; [done|]. simpl. lia.
Qed.

Variable stage : Stage.
Variable statement : list Row -> Database -> option Database.

(** The loop issues exactly the statements of [batches], in order, and
    counts the rows it has sent. *)
Lemma for_batches_exec_each fuel i n (rows : list Row) w :
  for_batches stage statement B fuel i n rows w =
  match exec_each stage statement (batches B fuel i rows) w with
  | (Returned _, w') => (Returned (n + length (concat (batches B fuel i rows))), w')
  | (Thrown, w') => (Thrown, w')
  end.
Proof.
  revert i n w. induction fuel as [|fuel IH]; intros i n w; simpl.
  - unfold ret. f_equal. f_equal. simpl. lia.
  - case_decide as Hi; simpl.
    + unfold bind. destruct (exec stage statement _ w) as [[[]|] w1]; [|done].
      rewrite IH. destruct (exec_each _ _ _ w1) as [[[]|] w2]; [|done].
      f_equal. f_equal. rewrite length_app. lia.
    + unfold ret. f_equal. f_equal. simpl. lia.
Qed.

(** Any fuel that covers the rows left gives the same run. *)
Lemma for_batches_fuel fuel fuel' i n (rows : list Row) w :
  length rows - i <= fuel -> length rows - i <= fuel' ->
  for_batches stage statement B fuel i n rows w
  = for_batches stage statement B fuel' i n rows w.
Proof.
  intros H1 H2. rewrite !for_batches_exec_each.
  by rewrite (batches_fuel fuel fuel').
Qed.

Lemma write_batches_exec_each (rows : list Row) w :
  write_batches stage statement B rows w =
  match exec_each stage statement (batches B (length rows) 0 rows) w with
  | (Returned _, w') => (Returned (length rows), w')
  | (Thrown, w') => (Thrown, w')
  end.
Proof.
  unfold write_batches. rewrite for_batches_exec_each.
  rewrite batches_concat by lia. simpl. done.
Qed.
End BatchFacts.

(** ** An upsert statement against the database *)

Section StatementFacts.
Context {Row Key : Type} `{EqDecision Key}.
Variable key : Row -> Key.
Variable upd : Row -> Row -> Row.
Variable fk : Database -> Row -> bool.
Variable table : Database -> list Row.
Variable with_table : list Row -> Database -> Database.
Variable stage : Stage.
Variable statement : list Row -> Database -> option Database.

Hypothesis statement_eq : forall batch db,
  statement batch db =
  (t ← insert_on_conflict_do_update key upd (fk db) batch (table db);
   Some (with_table t db)).
Hypothesis table_with : forall t db, table (with_table t db) = t.
Hypothesis with_with : forall t t' db,
  with_table t (with_table t' db) = with_table t db.
Hypothesis with_same : forall db, with_table (table db) db = db.
Hypothesis fk_with : forall t db, fk (with_table t db) = fk db.

Notation accepted := (accepted key fk).

Lemma statement_accepted batch db :
  accepted db batch ->
  statement batch db = Some (with_table (upsert_all key upd (table db) batch) db).
Proof.
  intros [Hnd Hfk]. rewrite statement_eq. unfold insert_on_conflict_do_update.
  rewrite decide_True by done. rewrite Hfk. done.
Qed.

Lemma statement_Some batch db db' :
  statement batch db = Some db' ->
  accepted db batch /\ db' = with_table (upsert_all key upd (table db) batch) db.
Proof.
  rewrite statement_eq. unfold insert_on_conflict_do_update, accepted.
  case_decide; [|done]. destruct (forallb _ _); [|done].
  simpl. intros [= <-]. done.
Qed.

Lemma statement_rejected batch db :
  ~ accepted db batch -> statement batch db = None.
Proof.
  intros Hn. destruct (statement batch db) as [db'|] eqn:Hs; [|done].
  apply statement_Some in Hs as [? _]. done.
Qed.

Lemma accepted_with t db batch :
  accepted (with_table t db) batch <-> accepted db batch.
Proof. unfold accepted. by rewrite fk_with. Qed.

Lemma accepted_sublist db b rows :
  b `sublist_of` rows -> accepted db rows -> accepted db b.
Proof.
  intros Hsub [Hnd Hfk]. split.
  - eapply sublist_NoDup; [done|]. by apply fmap_sublist.
  - apply forallb_forall. intros r Hr. rewrite forallb_forall in Hfk.
    apply Hfk, list_elem_of_In. eapply elem_of_sublist; [|done].
    by apply list_elem_of_In.
Qed.

(** Accepted statements compose into one pass over the concatenated
    rows. *)
Lemma exec_each_accepted bs w :
  Forall (accepted (target w)) bs ->
  exec_each stage statement bs w =
  (Returned (),
   mkWorld (with_table (upsert_all key upd (table (target w)) (concat bs)) (target w))
           (journal w ++ ((fun b => (stage, length b)) <$> bs))).
Proof.
  revert w. induction bs as [|b bs IH]; intros [db j] Hacc; simpl.
  - unfold ret. rewrite with_same, app_nil_r. done.
  - apply Forall_cons in Hacc as [Hb Hbs]. simpl in *.
    unfold bind, exec. simpl. rewrite statement_accepted by done.
    rewrite IH; simpl.
    + rewrite table_with, with_with. unfold upsert_all. rewrite foldl_app.
      by rewrite <- app_assoc.
    + eapply Forall_impl; [done|]. intros b' Hb'. by apply accepted_with.
Qed.

Lemma exec_each_Returned bs w u w' :
  exec_each stage statement bs w = (Returned u, w') ->
  Forall (accepted (target w)) bs.
Proof.
  revert w. induction bs as [|b bs IH]; intros [db j]; simpl; [by constructor|].
  unfold bind, exec. simpl.
  destruct (statement b db) as [db1|] eqn:Hs; [|done].
  apply statement_Some in Hs as [Hb ->]. intros Hrest.
  constructor; [done|]. apply IH in Hrest. simpl in Hrest.
  eapply Forall_impl; [done|]. intros b'. apply accepted_with.
Qed.

(** The first rejected statement throws; what was written before it
    stays written, and nothing after it is issued. *)
Lemma exec_each_Thrown bs1 b bs2 w :
  Forall (accepted (target w)) bs1 -> ~ accepted (target w) b ->
  exec_each stage statement (bs1 ++ b :: bs2) w =
  (Thrown,
   mkWorld (with_table (upsert_all key upd (table (target w)) (concat bs1)) (target w))
           (journal w ++ ((fun b => (stage, length b)) <$> (bs1 ++ [b])))).
Proof.
  revert w. induction bs1 as [|b1 bs1 IH]; intros [db j] Hacc Hb; simpl in *.
  - unfold bind, exec. simpl. rewrite statement_rejected by done.
    by rewrite with_same.
  - apply Forall_cons in Hacc as [Hb1 Hbs1].
    unfold bind, exec. simpl. rewrite statement_accepted by done.
    rewrite IH; simpl.
    + rewrite table_with, with_with. unfold upsert_all. rewrite foldl_app.
      by rewrite <- app_assoc.
    + eapply Forall_impl; [done|]. intros b' Hb'. by apply accepted_with.
    + by rewrite accepted_with.
Qed.
End StatementFacts.

(** ** The four categories *)

Lemma standing_excluded_key x r :
  standing_key x = standing_key r -> standing_excluded x r = r.
Proof. destruct x, r. unfold standing_key. simpl. by intros [= -> ->]. Qed.
Lemma match_excluded_key x r :
  match_key x = match_key r -> match_excluded x r = r.
Proof. destruct x, r. unfold match_key. simpl. by intros [= -> -> ->]. Qed.
Lemma deck_excluded_key x r : d_id x = d_id r -> deck_excluded x r = r.
Proof. destruct x, r. simpl. by intros ->. Qed.
Lemma archetype_excluded_key x r : a_id x = a_id r -> archetype_excluded x r = r.
Proof. destruct x, r. simpl. by intros ->. Qed.
Lemma event_excluded_key x r : e_id x = e_id r -> event_excluded x r = r.
Proof. destruct x, r. simpl. by intros ->. Qed.

Lemma categories_laws c : c ∈ categories -> upsert_laws c.
Proof.
  unfold categories. rewrite !elem_of_cons, elem_of_nil.
  intros [->|[->|[->|[->|[]]]]].
  - exists standing_excluded, standing_fk, with_standings.
    split_and!; try done; try (by intros []); apply standing_excluded_key.
  - exists match_excluded, match_fk, with_matches.
    split_and!; try done; try (by intros []); apply match_excluded_key.
  - exists deck_excluded, deck_fk, with_decks.
    split_and!; try done; try (by intros []); apply deck_excluded_key.
  - exists archetype_excluded, archetype_fk, with_archetypes.
    split_and!; try done; try (by intros []); apply archetype_excluded_key.
Qed.

Lemma categories_batch_sizes c :
  c ∈ categories ->
  0 < BATCH_SIZE c /\ BATCH_SIZE c * columns c < PARAMETER_LIMIT.
Proof.
  unfold categories. rewrite !elem_of_cons, elem_of_nil.
  intros [->|[->|[->|[->|[]]]]]; split;
    apply Nat.ltb_lt; vm_compute; reflexivity.
Qed.


(** * The identity reconciler *)

Lemma localPlayerNameMap_is_Some localPlayers name :
  is_Some (localPlayerNameMap localPlayers !! name) <-> name ∈ p_name <$> localPlayers.
Proof.
  unfold localPlayerNameMap.
  assert (Hgen : forall (m : gmap string Z),
    is_Some (foldl (fun m p => <[p_name p := p_id p]> m) m localPlayers !! name)
    <-> is_Some (m !! name) \/ name ∈ p_name <$> localPlayers).
  { induction localPlayers as [|p l IH]; intros m; simpl.
    - rewrite elem_of_nil. tauto.
    - rewrite IH, elem_of_cons. rewrite lookup_insert_is_Some.
      destruct (decide (p_name p = name)); naive_solver. }
  rewrite Hgen. rewrite lookup_empty. split; [intros [[? [=]]|]|]; auto.
Qed.

Lemma localPlayerIdSet_elem_of localPlayers id :
  id ∈ localPlayerIdSet localPlayers <-> id ∈ p_id <$> localPlayers.
Proof. unfold localPlayerIdSet. apply elem_of_list_to_set. Qed.

Section ReconcileFacts.
Variable upstreamMap : gmap string (option Z).
Variable localPlayers : list Player.

Notation localIds := (p_id <$> localPlayers).
Notation fresh := (fun name : string => name ∉ p_name <$> localPlayers).

Lemma reconcile_step_synthesizes name next :
  (next < 0)%Z -> synthesizes upstreamMap localIds name ->
  (let '(id, next') := upstream_or_next upstreamMap name next in
   avoid_collision (localPlayerIdSet localPlayers) id next')
  = (next, (next - 1)%Z).
Proof.
  intros Hneg. unfold synthesizes, upstream_or_next, avoid_collision.
  destruct (upstreamMap !! name) as [[id|]|]; intros Hs.
  - rewrite decide_True; [done|]. by rewrite localPlayerIdSet_elem_of.
  - rewrite decide_False by lia. done.
  - rewrite decide_False by lia. done.
Qed.

Lemma reconcile_step_adopts name next :
  ~ synthesizes upstreamMap localIds name ->
  (let '(id, next') := upstream_or_next upstreamMap name next in
   avoid_collision (localPlayerIdSet localPlayers) id next')
  = (default 0%Z (default None (upstreamMap !! name)), next).
Proof.
  unfold synthesizes, upstream_or_next, avoid_collision.
  destruct (upstreamMap !! name) as [[id|]|]; intros Hs; [|tauto..].
  rewrite decide_False; [done|]. by rewrite localPlayerIdSet_elem_of.
Qed.

Lemma reconcile_assign names next acc :
  (next < 0)%Z ->
  reconcile upstreamMap (localPlayerNameMap localPlayers)
    (localPlayerIdSet localPlayers) names next acc
  = ((next - Z.of_nat (length (filter (synthesizes upstreamMap localIds)
                                 (filter fresh names))))%Z,
     acc ++ assign_ids upstreamMap localIds (filter fresh names) next).
Proof.
  revert next acc. induction names as [|name names IH]; intros next acc Hneg; simpl.
  - rewrite app_nil_r. f_equal. lia.
  - rewrite filter_cons. case_decide as Hloc.
    + apply localPlayerNameMap_is_Some in Hloc.
      rewrite decide_False by (intros Hn; by apply Hn). by apply IH.
    + rewrite localPlayerNameMap_is_Some in Hloc. rewrite decide_True by done.
      simpl. rewrite filter_cons.
      destruct (decide (synthesizes upstreamMap localIds name)) as [Hs|Hs].
      * pose proof (reconcile_step_synthesizes name next Hneg Hs) as Hstep.
        destruct (upstream_or_next upstreamMap name next) as [id next'].
        rewrite Hstep. rewrite IH by lia. rewrite <- app_assoc. simpl.
        f_equal. lia.
      * pose proof (reconcile_step_adopts name next Hs) as Hstep.
        destruct (upstream_or_next upstreamMap name next) as [id next'].
        rewrite Hstep. rewrite IH by lia. rewrite <- app_assoc. done.
Qed.

Lemma assign_ids_names names next :
  p_name <$> assign_ids upstreamMap localIds names next = names.
Proof.
  revert next. induction names as [|name names IH]; intros next; simpl; [done|].
  case_decide; simpl; by rewrite IH.
Qed.

Lemma assign_ids_position names next pre p post :
  assign_ids upstreamMap localIds names next = pre ++ p :: post ->
  p_id p = resolved_id upstreamMap localIds (next + 1) (p_name <$> pre) (p_name p).
Proof.
  revert names next. induction pre as [|q pre IH]; intros names next Heq.
  - destruct names as [|name names]; simpl in Heq; [done|].
    unfold resolved_id. simpl.
    case_decide as Hs; injection Heq as <- _; simpl; unfold synthesizes in Hs.
    + destruct (upstreamMap !! name) as [[id|]|]; [|lia..].
      rewrite decide_True by done. lia.
    + destruct (upstreamMap !! name) as [[id|]|]; [|tauto..].
      rewrite decide_False by done. done.
  - destruct names as [|name names]; simpl in Heq; [done|].
    case_decide as Hs; injection Heq as <- Heq; apply IH in Heq; rewrite Heq;
      unfold resolved_id; cbn [fmap list_fmap p_name]; rewrite filter_cons.
    + rewrite decide_True by done. cbn [length].
      destruct (upstreamMap !! p_name p) as [[id|]|]; [case_decide|..]; lia.
    + rewrite decide_False by done.
      destruct (upstreamMap !! p_name p) as [[id|]|]; [case_decide|..]; lia.
Qed.
End ReconcileFacts.

Section MoreReconcileFacts.
Variable upstreamMap : gmap string (option Z).
Variable localIds : list Z.

Notation synth := (fun p : Player => synthesizes upstreamMap localIds (p_name p)).

Lemma assign_ids_synth_le names next p :
  p ∈ assign_ids upstreamMap localIds names next ->
  synthesizes upstreamMap localIds (p_name p) -> (p_id p <= next)%Z.
Proof.
  revert next. induction names as [|name names IH]; intros next; simpl.
  - by rewrite elem_of_nil.
  - case_decide as Hs; rewrite elem_of_cons; intros [->|Hin] Hp; simpl in *.
    + lia.
    + apply IH in Hin; [lia|done].
    + done.
    + by apply IH.
Qed.

Lemma assign_ids_synth_NoDup names next :
  NoDup (p_id <$> filter synth (assign_ids upstreamMap localIds names next)).
Proof.
  revert next. induction names as [|name names IH]; intros next; simpl.
  - constructor.
  - case_decide as Hs; rewrite filter_cons; simpl.
    + rewrite decide_True by done. simpl. apply NoDup_cons. split; [|apply IH].
      intros Hin. apply list_elem_of_fmap in Hin as (p & Hid & Hp).
      apply list_elem_of_filter in Hp as [Hsp Hp].
      apply assign_ids_synth_le in Hp; [lia|done].
    + rewrite decide_False by done. apply IH.
Qed.

Lemma assign_ids_synth_ge names next p :
  p ∈ assign_ids upstreamMap localIds names next ->
  synthesizes upstreamMap localIds (p_name p) ->
  (next - Z.of_nat (length names) < p_id p)%Z.
Proof.
  revert next. induction names as [|name names IH]; intros next; simpl length.
  - simpl. by rewrite elem_of_nil.
  - simpl assign_ids. case_decide as Hs; rewrite elem_of_cons; intros [->|Hin] Hp.
    + simpl. lia.
    + apply IH in Hin; [lia|done].
    + done.
    + apply IH in Hin; [lia|done].
Qed.

Lemma assign_ids_not_synth names next p :
  p ∈ assign_ids upstreamMap localIds names next ->
  ~ synthesizes upstreamMap localIds (p_name p) ->
  upstreamMap !! p_name p = Some (Some (p_id p)).
Proof.
  revert next. induction names as [|name names IH]; intros next; simpl.
  - by rewrite elem_of_nil.
  - case_decide as Hs; rewrite elem_of_cons; intros [->|Hin] Hp; simpl in *.
    + done.
    + by eapply IH.
    + unfold synthesizes in Hs.
      destruct (upstreamMap !! name) as [[id|]|]; simpl; tauto.
    + by eapply IH.
Qed.
End MoreReconcileFacts.

(** ** The floor of the negative identifiers *)

Lemma foldl_min_le (i : Z) (l : list Z) :
  (foldl Z.min i l <= i)%Z /\ (forall x, x ∈ l -> (foldl Z.min i l <= x)%Z)
  /\ (foldl Z.min i l = i \/ foldl Z.min i l ∈ l).
Proof.
  revert i. induction l as [|y l IH]; intros i; simpl.
  - split_and!; [lia| |by left]. intros x Hx. by apply elem_of_nil in Hx.
  - destruct (IH (Z.min i y)) as (H1 & H2 & H3). split_and!.
    + lia.
    + intros x Hx. apply elem_of_cons in Hx as [->|Hx]; [lia|by apply H2].
    + destruct H3 as [H3|H3]; [rewrite H3|right; set_solver].
      destruct (Z.min_spec i y) as [[_ ->]|[_ ->]]; [by left|right; set_solver].
Qed.

Lemma minNegativeId_le localPlayers p :
  p ∈ localPlayers -> (p_id p < 0)%Z -> (minNegativeId localPlayers <= p_id p)%Z.
Proof.
  intros Hp Hneg. unfold minNegativeId.
  assert (Hin : p_id p ∈ negativeIds localPlayers).
  { unfold negativeIds. apply list_elem_of_fmap. exists p. split; [done|].
    by apply list_elem_of_filter. }
  destruct (negativeIds localPlayers) as [|i rest]; [by apply elem_of_nil in Hin|].
  destruct (foldl_min_le i rest) as (H1 & H2 & _).
  apply elem_of_cons in Hin as [->|Hin]; [done|by apply H2].
Qed.

Lemma minNegativeId_nonpos localPlayers : (minNegativeId localPlayers <= 0)%Z.
Proof.
  unfold minNegativeId.
  destruct (negativeIds localPlayers) as [|i rest] eqn:Hn; [done|].
  assert (Hi : i ∈ negativeIds localPlayers) by (rewrite Hn; set_solver).
  unfold negativeIds in Hi. apply list_elem_of_fmap in Hi as (p & -> & Hp).
  apply list_elem_of_filter in Hp as [Hneg _].
  destruct (foldl_min_le (p_id p) rest) as (H1 & _). lia.
Qed.

Lemma minNegativeId_none localPlayers :
  (forall p, p ∈ localPlayers -> (0 <= p_id p)%Z) -> minNegativeId localPlayers = 0%Z.
Proof.
  intros Hall. unfold minNegativeId.
  destruct (negativeIds localPlayers) as [|i rest] eqn:Hn; [done|].
  assert (Hi : i ∈ negativeIds localPlayers) by (rewrite Hn; set_solver).
  unfold negativeIds in Hi. apply list_elem_of_fmap in Hi as (p & -> & Hp).
  apply list_elem_of_filter in Hp as [Hneg Hp]. apply Hall in Hp. lia.
Qed.

Lemma minNegativeId_some localPlayers p :
  p ∈ localPlayers -> (p_id p < 0)%Z ->
  (minNegativeId localPlayers < 0)%Z
  /\ minNegativeId localPlayers ∈ p_id <$> localPlayers.
Proof.
  intros Hp Hneg. split.
  - pose proof (minNegativeId_le _ _ Hp Hneg). lia.
  - unfold minNegativeId.
    assert (Hsub : forall x, x ∈ negativeIds localPlayers -> x ∈ p_id <$> localPlayers).
    { intros x. unfold negativeIds. rewrite !list_elem_of_fmap.
      intros (q & -> & Hq). apply list_elem_of_filter in Hq as [_ Hq]. eauto. }
    assert (Hin : p_id p ∈ negativeIds localPlayers).
    { unfold negativeIds. apply list_elem_of_fmap. exists p. split; [done|].
      by apply list_elem_of_filter. }
    destruct (negativeIds localPlayers) as [|i rest]; [by apply elem_of_nil in Hin|].
    destruct (foldl_min_le i rest) as (_ & _ & [->|H3]); apply Hsub; set_solver.
Qed.

Lemma playersToSync_assign upstream playerNames localPlayers :
  playersToSync upstream playerNames localPlayers
  = assign_ids (upstreamPlayerMap (upstreamPlayers upstream playerNames))
      (p_id <$> localPlayers)
      (filter (fun name => name ∉ p_name <$> localPlayers) playerNames)
      (minNegativeId localPlayers - 1).
Proof.
  unfold playersToSync. rewrite reconcile_assign; [done|].
  pose proof (minNegativeId_nonpos localPlayers). lia.
Qed.

(** ** INSERT ... ON CONFLICT DO NOTHING *)

Section DoNothingFacts.
Context {Row Key : Type} `{EqDecision Key}.
Variable key : Row -> Key.
Variable constraint : list Row -> Row -> bool.

(** Existing rows stay where they are; whatever is added is added behind
    them, in the order proposed, under keys that were free. *)
Lemma do_nothing_Some t batch t' :
  insert_on_conflict_do_nothing key constraint t batch = Some t' ->
  exists added, t' = t ++ added /\ added `sublist_of` batch
                /\ (forall r, r ∈ added -> key r ∉ key <$> t)
                /\ (NoDup (key <$> t) -> NoDup (key <$> t')).
Proof.
  revert t. induction batch as [|r batch IH]; intros t; simpl.
  - intros [= <-]. exists []. rewrite app_nil_r. split_and!; try done.
    intros r Hr. by apply elem_of_nil in Hr.
  - case_decide as Hk.
    + intros Hrest. destruct (IH _ Hrest) as (added & -> & Hsub & Hfresh & Hnd).
      exists added. split_and!; try done. by apply sublist_cons.
    + destruct (constraint t r); [|done].
      intros Hrest. destruct (IH _ Hrest) as (added & -> & Hsub & Hfresh & Hnd).
      exists (r :: added). rewrite <- app_assoc. split_and!; try done.
      * by apply sublist_skip.
      * intros r' Hr'. apply elem_of_cons in Hr' as [->|Hr']; [done|].
        apply Hfresh in Hr'. rewrite fmap_app in Hr'. set_solver.
      * intros Ht. rewrite (app_assoc t [r] added). apply Hnd.
        rewrite fmap_app. apply NoDup_app.
        split_and!; [done| |apply NoDup_singleton].
        intros k Hkt Hk'. apply list_elem_of_singleton in Hk'. by subst.
Qed.

Lemma do_nothing_fresh t batch t' :
  (forall r, r ∈ batch -> key r ∉ key <$> t) -> NoDup (key <$> batch) ->
  insert_on_conflict_do_nothing key constraint t batch = Some t' ->
  t' = t ++ batch.
Proof.
  revert t. induction batch as [|r batch IH]; intros t Hfresh Hnd; simpl.
  - intros [= <-]. by rewrite app_nil_r.
  - rewrite fmap_cons in Hnd. apply NoDup_cons in Hnd as [Hr Hnd].
    rewrite decide_False by (apply Hfresh; set_solver).
    destruct (constraint t r); [|done]. intros Hrest.
    apply IH in Hrest; [by rewrite Hrest, <- app_assoc| |done].
    intros r' Hr'. rewrite fmap_app, not_elem_of_app. split.
    + apply Hfresh. set_solver.
    + simpl. intros Hin. apply list_elem_of_singleton in Hin.
      apply Hr. rewrite <- Hin. by apply list_elem_of_fmap_2.
Qed.
End DoNothingFacts.

Lemma insert_players_ids t batch t' :
  insert_on_conflict_do_nothing p_name
    (fun t r => bool_decide (p_id r ∉ p_id <$> t)) t batch = Some t' ->
  NoDup (p_id <$> t) -> NoDup (p_id <$> t').
Proof.
  revert t. induction batch as [|r batch IH]; intros t; simpl.
  - by intros [= <-].
  - case_decide as Hk; [by apply IH|].
    case_bool_decide as Hid; [|done]. intros Hrest Hnd.
    apply (IH _ Hrest). rewrite fmap_app. apply NoDup_app.
    split_and!; [done| |apply NoDup_singleton].
    intros k Hkt Hk'. apply list_elem_of_singleton in Hk'. by subst.
Qed.

(** An accepted insert of players bound ids of the column's range only,
    and went through the conflict rule. *)
Lemma insert_players_Some batch db db' :
  insert_players batch db = Some db' ->
  forallb (fun p => integer_column (p_id p)) batch = true
  /\ exists t', insert_on_conflict_do_nothing p_name
                  (fun t r => bool_decide (p_id r ∉ p_id <$> t)) (players db) batch
                = Some t'
                /\ db' = with_players t' db.
Proof.
  unfold insert_players.
  destruct (forallb _ batch); [|done]. split; [done|].
  destruct (insert_on_conflict_do_nothing _ _ _ _) as [t'|]; [|done].
  simpl in *. exists t'. split; [done|]. congruence.
Qed.

(** ** Queries and calls that may throw *)

Lemma bound_run {A} (parameters : nat) (c : M A) w :
  bound parameters c w
  = if decide (parameters < PARAMETER_LIMIT) then c w else (Thrown, w).
Proof. unfold bound. by case_decide. Qed.

Lemma bound_Returned {A} (parameters : nat) (c : M A) w a w' :
  bound parameters c w = (Returned a, w') ->
  parameters < PARAMETER_LIMIT /\ c w = (Returned a, w').
Proof. rewrite bound_run. by case_decide. Qed.

Lemma bound_within {A} (parameters : nat) (c : M A) w :
  parameters < PARAMETER_LIMIT -> bound parameters c w = c w.
Proof. intros Hlt. rewrite bound_run. by rewrite decide_True. Qed.

(** A query that binds nothing, or few values, is sent. *)
Lemma bound_few {A} (parameters : nat) (c : M A) w :
  parameters <= 300 -> bound parameters c w = c w.
Proof.
  intros Hle. apply bound_within. unfold PARAMETER_LIMIT.
  apply Nat.le_lt_trans with 300; [done|]. apply Nat.ltb_lt. by vm_compute.
Qed.

Section PlayersStage.
Context `{platform : Platform}.

Lemma spread_run {A} (arguments : nat) (c : M A) w :
  spread arguments c w
  = if decide (arguments <= max_arguments) then c w else (Thrown, w).
Proof. unfold spread. by case_decide. Qed.

Lemma referencedPlayerNames_NoDup upstream eventIds :
  NoDup (referencedPlayerNames upstream eventIds).
Proof.
  unfold referencedPlayerNames. rewrite union_order_perm. apply NoDup_remove_dups.
Qed.

Lemma referencedPlayerNames_nil upstream : referencedPlayerNames upstream [] = [].
Proof.
  unfold referencedPlayerNames.
  assert (Hnil : forall {A} (f : A -> Z) (l : list A), filter (fun x => f x ∈ []) l = []).
  { intros A f l. induction l as [|x l IH]; [done|].
    rewrite filter_cons. rewrite decide_False; [done|]. apply not_elem_of_nil. }
  rewrite (Hnil _ s_event_id), (Hnil _ m_event_id), (Hnil _ d_event_id). simpl.
  apply Permutation_nil. symmetry. apply union_order_perm.
Qed.

Lemma playersToSync_names upstream playerNames localPlayers :
  p_name <$> playersToSync upstream playerNames localPlayers
  = filter (fun name => name ∉ p_name <$> localPlayers) playerNames.
Proof. rewrite playersToSync_assign. apply assign_ids_names. Qed.

Lemma playersToSync_nil upstream localPlayers :
  playersToSync upstream [] localPlayers = [].
Proof. by rewrite playersToSync_assign. Qed.

(** What the Players stage does to the world, in every case: it throws
    at once when a query or the call of [Math.min] is beyond the limits;
    otherwise it inserts its plan, if there is one. *)
Lemma syncPlayers_run upstream eventIds w :
  let t := players (target w) in
  let plan := playersToSync upstream (referencedPlayerNames upstream eventIds) t in
  syncPlayers upstream eventIds w
  = if decide (players_stage_within upstream eventIds t) then
      if decide (plan = []) then (Returned 0, w)
      else match insert_players plan (target w) with
           | Some db => (Returned (length plan),
                         mkWorld db (journal w ++ [(Players, length plan)]))
           | None => (Thrown, mkWorld (target w) (journal w ++ [(Players, length plan)]))
           end
    else (Thrown, w).
Proof.
  intros t plan. unfold syncPlayers.
  set (names := referencedPlayerNames upstream eventIds) in *.
  assert (Hzero : 0 < PARAMETER_LIMIT) by (apply Nat.ltb_lt; by vm_compute).
  case_decide as Hids.
  { destruct eventIds; [|done]. unfold plan, names.
    rewrite referencedPlayerNames_nil, playersToSync_nil.
    rewrite decide_True; [done|]. unfold players_stage_within.
    rewrite referencedPlayerNames_nil. split; [done|]. by intros []. }
  unfold bind at 1. rewrite bound_run.
  destruct (decide (3 * length eventIds < PARAMETER_LIMIT)) as [H3|H3].
  2:{ rewrite decide_False; [done|]. by intros [? _]. }
  unfold ret at 1. fold names.
  case_decide as Hnames.
  { assert (Hnil : names = []) by (by destruct names).
    unfold plan. rewrite Hnil, playersToSync_nil.
    rewrite decide_True; [done|]. split; [done|]. fold names. by rewrite Hnil. }
  assert (Hne : names <> []) by (intros Hnil; by rewrite Hnil in Hnames).
  unfold bind at 1. rewrite bound_run.
  destruct (decide (length names < PARAMETER_LIMIT)) as [Hn|Hn].
  2:{ rewrite decide_False; [done|]. intros [_ Hw]. by destruct (Hw Hne). }
  unfold ret at 1, bind at 1, query. simpl. fold t.
  unfold bind at 1. rewrite spread_run.
  destruct (decide (length (negativeIds t) <= max_arguments)) as [Hs|Hs].
  2:{ rewrite decide_False; [done|]. intros [_ Hw]. by destruct (Hw Hne) as (? & ? & ?). }
  unfold ret at 1. change (reconcile _ _ _ names _ []).2 with plan.
  destruct (decide (plan = [])) as [Hplan|Hplan].
  - rewrite Hplan. simpl. rewrite decide_True; [done|].
    split; [done|]. intros _. fold names. fold plan. by rewrite Hplan.
  - rewrite (decide_True (P := 0 < _)) by (destruct plan; [done|simpl; lia]).
    unfold bind at 1. rewrite bound_run.
    case_decide as Hp.
    2:{ rewrite decide_False; [done|]. intros [_ Hw].
        destruct (Hw Hne) as (_ & _ & Hp'). fold names in Hp'. fold plan in Hp'. lia. }
    rewrite decide_True.
    2:{ split; [done|]. intros _. fold names. fold plan. split_and!; [done|done|lia]. }
    unfold exec, ret. simpl. destruct (insert_players _ _); done.
Qed.

Lemma insert_players_plan upstream eventIds db db' :
  let plan := playersToSync upstream (referencedPlayerNames upstream eventIds)
                (players db) in
  insert_players plan db = Some db' ->
  db' = with_players (players db ++ plan) db.
Proof.
  intros plan Hacc. apply insert_players_Some in Hacc as (_ & t' & Hins & ->).
  f_equal.
  apply do_nothing_fresh in Hins; [done| |].
  - intros r Hr. apply (list_elem_of_fmap_2 p_name) in Hr.
    unfold plan in Hr. rewrite playersToSync_names in Hr.
    by apply list_elem_of_filter in Hr as [? _].
  - unfold plan. rewrite playersToSync_names.
    apply NoDup_filter, referencedPlayerNames_NoDup.
Qed.

Lemma NoDup_fmap_eq {A B} (f : A -> B) (l : list A) (x y : A) :
  NoDup (f <$> l) -> x ∈ l -> y ∈ l -> f x = f y -> x = y.
Proof.
  intros Hnd Hx Hy Hf.
  apply list_elem_of_lookup in Hx as [i Hi]. apply list_elem_of_lookup in Hy as [j Hj].
  assert (i = j) as ->.
  { eapply NoDup_lookup; [exact Hnd| |].
    - rewrite list_lookup_fmap, Hi. done.
    - rewrite list_lookup_fmap, Hj. simpl. by rewrite Hf. }
  congruence.
Qed.

Lemma referencedPlayerNames_elem_of upstream eventIds name :
  name ∈ referencedPlayerNames upstream eventIds <->
  (exists s, s ∈ u_standings upstream /\ s_event_id s ∈ eventIds /\ s_player s = name)
  \/ (exists m, m ∈ u_matches upstream /\ m_event_id m ∈ eventIds /\ m_player m = name)
  \/ (exists d, d ∈ u_decks upstream /\ d_event_id d ∈ eventIds /\ d_player d = name).
Proof.
  unfold referencedPlayerNames.
  rewrite union_order_perm, elem_of_remove_dups, !elem_of_app, !list_elem_of_fmap.
  setoid_rewrite list_elem_of_filter. naive_solver.
Qed.

(** What the identity reconciler assigns: the names it resolves are the
    names referenced by the worklist's events that are not on the target,
    each once; a name whose upstream id exists and is not a positive id
    used on the target carries that id; a name whose upstream id is
    positive and used on the target, or that has no upstream id, gets the
    lowest negative id on the target (0 when there is none) minus one,
    minus the number of ids drawn earlier in the run; and no name gets
    two ids. *)
Lemma reconciler_assignment (upstream : Upstream) (eventIds : list Z)
    (localPlayers : list Player) :
  let playerNames := referencedPlayerNames upstream eventIds in
  let upstreamMap := upstreamPlayerMap (upstreamPlayers upstream playerNames) in
  let plan := playersToSync upstream playerNames localPlayers in
  (forall name, name ∈ p_name <$> plan <->
     name ∉ p_name <$> localPlayers /\
     ((exists s, s ∈ u_standings upstream /\ s_event_id s ∈ eventIds /\ s_player s = name)
      \/ (exists m, m ∈ u_matches upstream /\ m_event_id m ∈ eventIds /\ m_player m = name)
      \/ (exists d, d ∈ u_decks upstream /\ d_event_id d ∈ eventIds /\ d_player d = name)))
  /\ NoDup (p_name <$> plan)
  /\ (forall pre p post, plan = pre ++ p :: post ->
        p_id p = resolved_id upstreamMap (p_id <$> localPlayers)
                   (minNegativeId localPlayers) (p_name <$> pre) (p_name p))
  /\ (forall p q, p ∈ plan -> q ∈ plan -> p_name p = p_name q -> p_id p = p_id q)
  /\ ((forall p, p ∈ localPlayers -> (0 <= p_id p)%Z) ->
      minNegativeId localPlayers = 0%Z)
  /\ (forall p, p ∈ localPlayers -> (p_id p < 0)%Z ->
        minNegativeId localPlayers ∈ p_id <$> localPlayers
        /\ (minNegativeId localPlayers <= p_id p)%Z).
Proof.
  intros playerNames upstreamMap plan.
  assert (Hnames : p_name <$> plan
                   = filter (fun name => name ∉ p_name <$> localPlayers) playerNames)
    by apply playersToSync_names.
  assert (Hnd : NoDup (p_name <$> plan)).
  { rewrite Hnames. apply NoDup_filter, referencedPlayerNames_NoDup. }
  split_and!.
  - intros name. rewrite Hnames, list_elem_of_filter.
    unfold playerNames. by rewrite referencedPlayerNames_elem_of.
  - done.
  - intros pre p post Hplan. unfold plan in Hplan.
    rewrite playersToSync_assign in Hplan.
    apply assign_ids_position in Hplan. rewrite Hplan. f_equal. lia.
  - intros p q Hp Hq Hpq. f_equal. by eapply NoDup_fmap_eq.
  - apply minNegativeId_none.
  - intros p Hp Hneg. split.
    + by eapply minNegativeId_some.
    + by apply minNegativeId_le.
Qed.

Lemma synthesized_fresh upstream eventIds localPlayers p :
  p ∈ synthesized upstream eventIds localPlayers ->
  (p_id p < 0)%Z /\ p_id p ∉ p_id <$> localPlayers
  /\ p ∈ playersToSync upstream (referencedPlayerNames upstream eventIds) localPlayers.
Proof.
  unfold synthesized. intros Hp. apply list_elem_of_filter in Hp as [Hs Hp].
  pose proof Hp as Hp'. rewrite playersToSync_assign in Hp'.
  apply assign_ids_synth_le in Hp'; [|done].
  pose proof (minNegativeId_nonpos localPlayers) as Hfloor.
  split_and!; [lia| |done].
  intros Hin. apply list_elem_of_fmap in Hin as (q & Hid & Hq).
  pose proof (minNegativeId_le localPlayers q Hq). lia.
Qed.

Lemma synthesized_NoDup upstream eventIds localPlayers :
  NoDup (p_id <$> synthesized upstream eventIds localPlayers).
Proof.
  unfold synthesized. rewrite playersToSync_assign. apply assign_ids_synth_NoDup.
Qed.

(** Whatever the Players stage adds goes behind the existing rows of
    the players table, and nothing else changes. *)
Lemma syncPlayers_frame upstream eventIds w :
  exists added,
    target (syncPlayers upstream eventIds w).2
    = with_players (players (target w) ++ added) (target w)
    /\ added `sublist_of` playersToSync upstream
                           (referencedPlayerNames upstream eventIds)
                           (players (target w)).
Proof.
  rewrite syncPlayers_run. cbv zeta.
  set (t := players (target w)).
  set (plan := playersToSync upstream (referencedPlayerNames upstream eventIds) t).
  assert (Hsame : target w = with_players (t ++ []) (target w)).
  { rewrite app_nil_r. unfold t. by destruct (target w). }
  case_decide as Hwithin; [|exists []; split; [done|apply sublist_nil_l]].
  case_decide as Hplan.
  - exists []. split; [done|]. apply sublist_nil_l.
  - destruct (insert_players plan (target w)) as [db'|] eqn:Hacc; simpl.
    + apply insert_players_Some in Hacc as (_ & t' & Hins & ->). fold t in Hins.
      apply do_nothing_Some in Hins as (added & -> & Hsub & _). by exists added.
    + exists []. split; [done|]. apply sublist_nil_l.
Qed.

(** C10.  The Players stage leaves every player row of the target as it
    is: the names it plans to insert are not on the target, whatever it
    adds is added behind the existing rows, each existing row keeps its
    position, id and name, and no other table changes; this holds whether
    the stage returns or throws. *)
Theorem players_stage_frame (upstream : Upstream) (eventIds : list Z) (w : World) :
  let t := players (target w) in
  let plan := playersToSync upstream (referencedPlayerNames upstream eventIds) t in
  let w' := (syncPlayers upstream eventIds w).2 in
  (forall p, p ∈ plan -> p_name p ∉ p_name <$> t)
  /\ (exists added,
        target w' = with_players (t ++ added) (target w)
        /\ added `sublist_of` plan)
  /\ (forall i p, t !! i = Some p -> players (target w') !! i = Some p).
Proof.
  intros t plan w'.
  destruct (syncPlayers_frame upstream eventIds w) as (added & Hw' & Hsub).
  fold w' in Hw'. fold t in Hw'. fold plan in Hsub.
  split_and!.
  - intros p Hp. apply (list_elem_of_fmap_2 p_name) in Hp.
    unfold plan in Hp. rewrite playersToSync_names in Hp.
    by apply list_elem_of_filter in Hp as [? _].
  - by exists added.
  - intros i p Hi. rewrite Hw'. simpl. by apply lookup_app_l_Some.
Qed.

Lemma players_run_inv db0 st run :
  players_inv db0 st -> players_inv db0 (players_run st run).
Proof.
  destruct st as [d s], run as [upstream eventIds].
  intros (Hids & Hs & Hin & ext & Hext). unfold players_run. simpl in *.
  rewrite syncPlayers_run. simpl.
  set (plan := playersToSync upstream (referencedPlayerNames upstream eventIds)
                 (players d)).
  case_decide as Hwithin; [|split_and!; try done; by exists ext].
  case_decide as Hplan.
  - simpl. unfold synthesized. fold plan. rewrite Hplan, filter_nil, app_nil_r.
    split_and!; try done. by exists ext.
  - destruct (insert_players plan d) as [d'|] eqn:Hins; simpl.
    2:{ split_and!; try done. by exists ext. }
    pose proof Hins as Hd'. apply insert_players_plan in Hd'. fold plan in Hd'.
    apply insert_players_Some in Hins as (_ & t' & Hins' & ->).
    apply insert_players_ids in Hins'; [|done].
    assert (Hplayers : players (with_players t' d) = players d ++ plan).
    { by rewrite Hd'. }
    simpl in Hplayers. subst t'.
    unfold players_inv. cbn [fst snd with_players players].
    split_and!.
    + done.
    + rewrite fmap_app. apply NoDup_app. split_and!; [done| |apply synthesized_NoDup].
      intros i Hi Hi'. apply list_elem_of_fmap in Hi as (p & -> & Hp).
      apply list_elem_of_fmap in Hi' as (q & Hq & Hq').
      apply synthesized_fresh in Hq' as (_ & Hfresh & _). apply Hfresh.
      rewrite <- Hq. apply list_elem_of_fmap_2. by apply Hin.
    + intros p Hp. apply elem_of_app in Hp as [Hp|Hp].
      * destruct (Hin p Hp) as (? & ? & ?). split_and!; [done| |done].
        apply elem_of_app. by left.
      * apply synthesized_fresh in Hp as (Hneg & Hfresh & Hp).
        split_and!; [done| |].
        -- apply elem_of_app. by right.
        -- intros Hin0. apply Hfresh. rewrite Hext, fmap_app, elem_of_app. by left.
    + exists (ext ++ plan). by rewrite Hext, app_assoc.
Qed.

(** C7.  Negative-id disjointness over any sequence of runs of the
    Players stage against a target whose player ids are distinct: the
    synthesized entries have pairwise distinct ids, every one is negative,
    is on the target under the name it was issued for, and differs from
    every id the target held at the start; a target row carrying a
    synthesized id is the row it was issued for; and no target row with a
    positive id shares its id with a synthesized entry. *)
Theorem synthesized_ids_disjoint (db : Database) (runs : list (Upstream * list Z)) :
  NoDup (p_id <$> players db) ->
  let db' := (players_runs db runs).1 in
  let synth := (players_runs db runs).2 in
  NoDup (p_id <$> synth)
  /\ (forall p, p ∈ synth ->
        (p_id p < 0)%Z /\ p ∈ players db' /\ p_id p ∉ p_id <$> players db)
  /\ (forall p q, p ∈ synth -> q ∈ players db' -> p_id q = p_id p -> q = p)
  /\ (forall p q, p ∈ synth -> q ∈ players db' -> (0 < p_id q)%Z -> p_id q <> p_id p).
Proof.
  intros Hnd db' synth.
  assert (Hinv : players_inv db (players_runs db runs)).
  { unfold players_runs.
    assert (Hgen : forall st, players_inv db st -> players_inv db (foldl players_run st runs)).
    { induction runs as [|run runs IH]; intros st Hst; simpl; [done|].
      by apply IH, players_run_inv. }
    apply Hgen. split_and!; simpl; [done|constructor| |by exists []; rewrite app_nil_r].
    intros p Hp. by apply elem_of_nil in Hp. }
  destruct Hinv as (Hids & Hs & Hin & _). fold db' in Hids, Hin. fold synth in Hs, Hin.
  split_and!; [done|done| |].
  - intros p q Hp Hq Hpq. destruct (Hin p Hp) as (_ & Hp' & _).
    by apply (NoDup_fmap_eq p_id (players db')).
  - intros p q Hp Hq Hpos. destruct (Hin p Hp) as (Hneg & _). lia.
Qed.

End PlayersStage.

(** * The diff engine *)

#[local] Instance date_desc_id_desc_total : Total date_desc_id_desc.
Proof. intros [[i1 n1] d1] [[i2 n2] d2]. unfold date_desc_id_desc. simpl. lia. Qed.

#[local] Instance date_desc_id_desc_trans : Transitive date_desc_id_desc.
Proof.
  intros [[i1 n1] d1] [[i2 n2] d2] [[i3 n3] d3]. unfold date_desc_id_desc. simpl. lia.
Qed.

Lemma where_incomplete_iff db e :
  where_incomplete db e = true <->
  (exists n, e_players e = Some n /\ (0 < n)%Z)
  /\ (e_id e ∉ s_event_id <$> standings db \/ e_id e ∉ m_event_id <$> matches db).
Proof.
  unfold where_incomplete, players_positive, exists_standing, exists_match.
  rewrite andb_true_iff, orb_true_iff, !negb_true_iff, !bool_decide_eq_false.
  destruct (e_players e) as [n|] eqn:Hn.
  - rewrite bool_decide_eq_true.
    split; intros [H1 H2]; (split; [|done]).
    + by exists n.
    + by destruct H1 as (n' & [= <-] & ?).
  - split; [intros [[=] _]|intros [(n & [=] & _) _]].
Qed.

Lemma remove_dups_length {A} `{EqDecision A} (l : list A) :
  length (remove_dups l) <= length l.
Proof.
  induction l as [|x l IH]; simpl; [done|].
  case_decide; simpl; lia.
Qed.

(** The rows of the query before its [LIMIT]. *)
Lemma incompleteEvents_sorted_all db :
  exists all,
    incompleteEvents db = take 100 all
    /\ StronglySorted date_desc_id_desc all
    /\ (forall r, r ∈ all <->
          exists e, e ∈ events db /\ where_incomplete db e = true
                    /\ r = (e_id e, e_name e, e_date e))
    /\ length all <= length (filter (fun e => where_incomplete db e) (events db)).
Proof.
  eexists. split; [reflexivity|]. split_and!.
  - apply StronglySorted_merge_sort; apply _.
  - intros r. rewrite merge_sort_Permutation, elem_of_remove_dups, list_elem_of_fmap.
    setoid_rewrite list_elem_of_filter. setoid_rewrite Is_true_true. naive_solver.
  - rewrite merge_sort_Permutation. etrans; [apply remove_dups_length|].
    by rewrite length_fmap.
Qed.

(** C2 (as amended).  The diff engine: the query's [WHERE] clause holds
    of an event exactly when its player count is positive (a null, a zero
    and a negative count are all rejected) and it has no standing row or
    no match row; every row returned is such an event of the target; the
    rows come most recent first (date, then id, descending); there are at
    most 100 of them; an incomplete event that is left out is no more
    recent than any that is returned, and then exactly 100 are returned;
    the identifiers returned are those of the rows, in order; and the
    deck table has no influence on the answer. *)
Theorem incomplete_classification (db : Database) :
  let rows := incompleteEvents db in
  (forall e,
     where_incomplete db e = true <->
     (exists n, e_players e = Some n /\ (0 < n)%Z)
     /\ (e_id e ∉ s_event_id <$> standings db
         \/ e_id e ∉ m_event_id <$> matches db))
  /\ (forall r, r ∈ rows ->
        exists e, e ∈ events db /\ where_incomplete db e = true
                  /\ r = (e_id e, e_name e, e_date e))
  /\ StronglySorted date_desc_id_desc rows
  /\ length rows <= 100
  /\ (forall e, e ∈ events db -> where_incomplete db e = true ->
        (e_id e, e_name e, e_date e) ∉ rows ->
        length rows = 100
        /\ forall r, r ∈ rows -> date_desc_id_desc r (e_id e, e_name e, e_date e))
  /\ getIncompleteEventIds db = (fun r => r.1.1) <$> rows
  /\ (forall t, incompleteEvents (with_decks t db) = rows).
Proof.
  intros rows.
  destruct (incompleteEvents_sorted_all db) as (all & Hrows & Hsorted & Hall & _).
  fold rows in Hrows.
  assert (Hsplit : all = rows ++ drop 100 all) by (by rewrite Hrows, take_drop).
  split_and!.
  - intros e. apply where_incomplete_iff.
  - intros r Hr. apply Hall. rewrite Hsplit. apply elem_of_app. by left.
  - rewrite Hsplit in Hsorted. by apply StronglySorted_app_1_l in Hsorted.
  - rewrite Hrows, length_take. lia.
  - intros e He Hinc Hout.
    assert (Hin : (e_id e, e_name e, e_date e) ∈ all) by (apply Hall; eauto).
    rewrite Hsplit in Hin. apply elem_of_app in Hin as [?|Hin]; [done|].
    split.
    + rewrite Hrows, length_take.
      destruct (decide (length all <= 100)) as [Hle|?]; [|lia].
      rewrite drop_ge in Hin by done. by apply elem_of_nil in Hin.
    + intros r Hr. rewrite Hsplit in Hsorted.
      by eapply StronglySorted_app_1_elem_of.
  - done.
  - done.
Qed.

(** The [LIMIT] of the query bounds the identifiers returned. *)
Lemma getIncompleteEventIds_length db : length (getIncompleteEventIds db) <= 100.
Proof.
  unfold getIncompleteEventIds, incompleteEvents. rewrite length_fmap, length_take. lia.
Qed.

(** * The pipeline *)

(** ** Statements in sequence, whatever they are *)

Section ExecFacts.
Context {Row : Type}.
Variable stage : Stage.
Variable statement : list Row -> Database -> option Database.

Lemma exec_each_app bs1 bs2 w :
  exec_each stage statement (bs1 ++ bs2) w
  = match exec_each stage statement bs1 w with
    | (Returned _, w1) => exec_each stage statement bs2 w1
    | (Thrown, w1) => (Thrown, w1)
    end.
Proof.
  revert w. induction bs1 as [|b bs1 IH]; intros w; simpl; [done|].
  unfold bind. destruct (exec stage statement b w) as [[[]|] w1]; [|done].
  apply IH.
Qed.

(** A stage's statements are journalled under its own name. *)
Lemma exec_each_journal bs w :
  exists j', journal (exec_each stage statement bs w).2 = journal w ++ j'
             /\ Forall (fun e => e.1 = stage) j'.
Proof.
  revert w. induction bs as [|b bs IH]; intros w; simpl.
  - exists []. by rewrite app_nil_r.
  - unfold bind, exec. destruct (statement b (target w)) as [db|]; simpl.
    + destruct (IH (mkWorld db (journal w ++ [(stage, length b)]))) as (j' & -> & Hj').
      exists ((stage, length b) :: j'). simpl. rewrite <- app_assoc. split; [done|].
      by constructor.
    + exists [(stage, length b)]. split; [done|]. by constructor.
Qed.

(** What no statement of a stage changes, the stage does not change. *)
Lemma exec_each_frame {X} (proj : Database -> X) bs w :
  (forall b db db', statement b db = Some db' -> proj db' = proj db) ->
  proj (target (exec_each stage statement bs w).2) = proj (target w).
Proof.
  intros Hframe. revert w. induction bs as [|b bs IH]; intros w; simpl; [done|].
  unfold bind, exec. destruct (statement b (target w)) as [db|] eqn:Hs; simpl; [|done].
  rewrite IH. simpl. by eapply Hframe.
Qed.

Lemma for_batches_journal B fuel i n rows w :
  exists j', journal (for_batches stage statement B fuel i n rows w).2 = journal w ++ j'
             /\ Forall (fun e => e.1 = stage) j'.
Proof.
  revert i n w. induction fuel as [|fuel IH]; intros i n w; simpl.
  - exists []. by rewrite app_nil_r.
  - case_decide; [|exists []; by rewrite app_nil_r].
    unfold bind, exec.
    destruct (statement _ (target w)) as [db|]; simpl.
    + edestruct IH as (j' & -> & Hj').
      eexists (_ :: j'). simpl. rewrite <- app_assoc. split; [done|].
      by constructor.
    + eexists [_]. split; [done|]. by constructor.
Qed.

Lemma write_batches_journal B rows w :
  exists j', journal (write_batches stage statement B rows w).2 = journal w ++ j'
             /\ Forall (fun e => e.1 = stage) j'.
Proof. apply for_batches_journal. Qed.

Lemma write_batches_frame {X} (proj : Database -> X) B rows w :
  0 < B ->
  (forall b db db', statement b db = Some db' -> proj db' = proj db) ->
  proj (target (write_batches stage statement B rows w).2) = proj (target w).
Proof.
  intros HB Hframe. rewrite write_batches_exec_each by done.
  pose proof (exec_each_frame proj (batches B (length rows) 0 rows) w Hframe) as Hw.
  destruct (exec_each _ _ _ w) as [[[]|] w1]; done.
Qed.

(** The first statement that the target rejects ends the loop: the
    statements before it stay applied, it is journalled, and no later
    batch is issued. *)
Lemma write_batches_Thrown B rows w bs1 b bs2 w1 :
  0 < B ->
  batches B (length rows) 0 rows = bs1 ++ b :: bs2 ->
  exec_each stage statement bs1 w = (Returned (), w1) ->
  statement b (target w1) = None ->
  write_batches stage statement B rows w
  = (Thrown, mkWorld (target w1) (journal w1 ++ [(stage, length b)])).
Proof.
  intros HB Hbs Hpre Hb. rewrite write_batches_exec_each by done.
  rewrite Hbs, exec_each_app, Hpre. simpl. unfold bind, exec. by rewrite Hb.
Qed.
End ExecFacts.

Lemma elem_of_concat {A} (x : A) (ls : list (list A)) :
  x ∈ concat ls <-> exists l, x ∈ l /\ l ∈ ls.
Proof.
  rewrite list_elem_of_In, in_concat. setoid_rewrite list_elem_of_In. naive_solver.
Qed.

Section UpsertFresh.
Context {Row Key : Type} `{EqDecision Key}.
Variable key : Row -> Key.
Variable upd : Row -> Row -> Row.
Hypothesis upd_key : forall x r, key x = key r -> upd x r = r.

(** Rows under keys that are all new go behind the table, in order. *)
Lemma upsert_all_fresh t rows :
  NoDup (key <$> rows) -> (forall r, r ∈ rows -> key r ∉ key <$> t) ->
  upsert_all key upd t rows = t ++ rows.
Proof.
  unfold upsert_all.
  revert t. induction rows as [|r rows IH]; intros t Hnd Hfresh; simpl.
  - by rewrite app_nil_r.
  - rewrite fmap_cons in Hnd. apply NoDup_cons in Hnd as [Hr Hnd].
    rewrite (upsert_row_fresh key upd) by (apply Hfresh; set_solver).
    rewrite IH; [by rewrite <- app_assoc|done|].
    intros r' Hr'. rewrite fmap_app, not_elem_of_app. split.
    + apply Hfresh. set_solver.
    + simpl. intros Hin. apply list_elem_of_singleton in Hin.
      apply Hr. rewrite <- Hin. by apply list_elem_of_fmap_2.
Qed.
End UpsertFresh.

(** ** A batch loop of upserts *)

Section LoopFacts.
Context {Row Key : Type} `{EqDecision Key}.
Variable key : Row -> Key.
Variable upd : Row -> Row -> Row.
Variable fk : Database -> Row -> bool.
Variable table : Database -> list Row.
Variable with_table : list Row -> Database -> Database.
Variable stage : Stage.
Variable statement : list Row -> Database -> option Database.
Variable B : nat.

Hypothesis upd_key : forall x r, key x = key r -> upd x r = r.
Hypothesis statement_eq : forall batch db,
  statement batch db =
  (t ← insert_on_conflict_do_update key upd (fk db) batch (table db);
   Some (with_table t db)).
Hypothesis table_with : forall t db, table (with_table t db) = t.
Hypothesis with_with : forall t t' db,
  with_table t (with_table t' db) = with_table t db.
Hypothesis with_same : forall db, with_table (table db) db = db.
Hypothesis fk_with : forall t db, fk (with_table t db) = fk db.
Hypothesis B_pos : 0 < B.

Lemma write_batches_Returned rows w n w' :
  write_batches stage statement B rows w = (Returned n, w') ->
  n = length rows
  /\ (forall r, r ∈ rows -> fk (target w) r = true)
  /\ target w' = with_table (upsert_all key upd (table (target w)) rows) (target w).
Proof.
  rewrite write_batches_exec_each by done.
  destruct (exec_each _ _ _ w) as [[u|] w2] eqn:Hex; [|done].
  intros [= <- <-].
  assert (Hacc := exec_each_Returned key upd fk table with_table stage statement
                    statement_eq fk_with _ _ _ _ Hex).
  rewrite (exec_each_accepted key upd fk table with_table stage statement
             statement_eq table_with with_with with_same fk_with _ _ Hacc) in Hex.
  simplify_eq. simpl. rewrite batches_concat by lia. simpl.
  split_and!; [done| |done].
  intros r Hr.
  assert (Hin : r ∈ concat (batches B (length rows) 0 rows)).
  { rewrite batches_concat by lia. done. }
  apply elem_of_concat in Hin as (b & Hrb & Hb).
  rewrite Forall_forall in Hacc. destruct (Hacc b Hb) as [_ Hfk].
  rewrite forallb_forall in Hfk. by apply Hfk, list_elem_of_In.
Qed.

(** Rows that the target already holds, each under its key, pass through
    the loop without changing anything. *)
Lemma write_batches_noop rows w :
  NoDup (key <$> rows) ->
  (forall r, r ∈ rows -> fk (target w) r = true) ->
  (forall r, r ∈ rows -> present key (table (target w)) r) ->
  exists j', write_batches stage statement B rows w
             = (Returned (length rows), mkWorld (target w) j').
Proof.
  intros Hnd Hfk Hpresent. rewrite write_batches_exec_each by done.
  rewrite (exec_each_accepted key upd fk table with_table stage statement
             statement_eq table_with with_with with_same fk_with).
  - eexists. rewrite batches_concat by lia. simpl.
    rewrite (present_upsert_all_noop key upd upd_key) by done.
    by rewrite with_same.
  - eapply Forall_impl; [apply (batches_sublist B); lia|].
    simpl. intros b Hb. split.
    + eapply sublist_NoDup; [done|]. by apply fmap_sublist.
    + apply forallb_forall. intros r Hr. apply Hfk.
      eapply elem_of_sublist; [|done]. by apply list_elem_of_In.
Qed.
End LoopFacts.

Section GuardedFacts.
Context {Row Key : Type} `{EqDecision Key}.
Variable key : Row -> Key.
Variable upd : Row -> Row -> Row.
Variable fk : Database -> Row -> bool.
Variable table : Database -> list Row.
Variable with_table : list Row -> Database -> Database.
Variable stage : Stage.
Variable statement : list Row -> Database -> option Database.
Variable B : nat.

Hypothesis upd_key : forall x r, key x = key r -> upd x r = r.
Hypothesis statement_eq : forall batch db,
  statement batch db =
  (t ← insert_on_conflict_do_update key upd (fk db) batch (table db);
   Some (with_table t db)).
Hypothesis table_with : forall t db, table (with_table t db) = t.
Hypothesis with_with : forall t t' db,
  with_table t (with_table t' db) = with_table t db.
Hypothesis with_same : forall db, with_table (table db) db = db.
Hypothesis fk_with : forall t db, fk (with_table t db) = fk db.
Hypothesis B_pos : 0 < B.

Lemma guarded_write_Returned rows w n w' :
  guarded_write stage statement B rows w = (Returned n, w') ->
  n = length rows
  /\ (forall r, r ∈ rows -> fk (target w) r = true)
  /\ target w' = with_table (upsert_all key upd (table (target w)) rows) (target w).
Proof.
  unfold guarded_write. case_decide as Hlen.
  - destruct rows; [|done]. intros [= <- <-]. simpl.
    split_and!; [done| |by rewrite with_same].
    intros r Hr. by apply elem_of_nil in Hr.
  - unfold bind.
    destruct (write_batches stage statement B rows w) as [[m|] w1] eqn:Hw; [|done].
    intros [= <- <-].
    apply (write_batches_Returned key upd fk table with_table stage statement B
             statement_eq table_with with_with with_same fk_with B_pos) in Hw.
    destruct Hw as (_ & ? & ?). done.
Qed.

Lemma guarded_write_noop rows w :
  NoDup (key <$> rows) ->
  (forall r, r ∈ rows -> fk (target w) r = true) ->
  (forall r, r ∈ rows -> present key (table (target w)) r) ->
  exists j', guarded_write stage statement B rows w
             = (Returned (length rows), mkWorld (target w) j').
Proof.
  intros Hnd Hfk Hpresent. unfold guarded_write. case_decide as Hlen.
  - exists (journal w). rewrite Hlen. by destruct w.
  - unfold bind.
    destruct (write_batches_noop key upd fk table with_table stage statement B
                upd_key statement_eq table_with with_with with_same fk_with B_pos
                rows w Hnd Hfk Hpresent) as [j' ->].
    by exists j'.
Qed.
End GuardedFacts.

Section GuardedJournal.
Context {Row : Type}.
Variable stage : Stage.
Variable statement : list Row -> Database -> option Database.
Variable B : nat.

Lemma guarded_write_journal rows w :
  exists j', journal (guarded_write stage statement B rows w).2 = journal w ++ j'
             /\ Forall (fun e => e.1 = stage) j'.
Proof.
  unfold guarded_write. case_decide.
  - exists []. by rewrite app_nil_r.
  - unfold bind.
    destruct (write_batches_journal stage statement B rows w) as (j' & Hj & Hall).
    exists j'. split; [|done].
    destruct (write_batches stage statement B rows w) as [[m|] w1]; done.
Qed.

Lemma guarded_write_frame {X} (proj : Database -> X) rows w :
  0 < B ->
  (forall b db db', statement b db = Some db' -> proj db' = proj db) ->
  proj (target (guarded_write stage statement B rows w).2) = proj (target w).
Proof.
  intros HB Hframe. unfold guarded_write. case_decide; [done|].
  unfold bind.
  pose proof (write_batches_frame stage statement proj B rows w HB Hframe) as Hw.
  destruct (write_batches stage statement B rows w) as [[m|] w1]; done.
Qed.

Lemma guarded_write_nil w :
  guarded_write stage statement B [] w = (Returned 0, w).
Proof. done. Qed.
End GuardedJournal.

(** ** The four extraction stages *)

Lemma filter_in_nil {A} (f : A -> Z) (l : list A) :
  filter (fun x => f x ∈ []) l = [].
Proof.
  induction l as [|x l IH]; [done|].
  rewrite filter_cons. rewrite decide_False; [done|]. apply not_elem_of_nil.
Qed.

Lemma upstreamStandings_nil upstream : upstreamStandings upstream [] = [].
Proof. unfold upstreamStandings. by rewrite (filter_in_nil s_event_id). Qed.
Lemma upstreamMatches_nil upstream : upstreamMatches upstream [] = [].
Proof. unfold upstreamMatches. by rewrite (filter_in_nil m_event_id). Qed.
Lemma upstreamDecks_nil upstream : upstreamDecks upstream [] = [].
Proof. unfold upstreamDecks. by rewrite (filter_in_nil d_event_id). Qed.
Lemma upstreamDeckIds_nil upstream : upstreamDeckIds upstream [] = [].
Proof. unfold upstreamDeckIds. by rewrite (filter_in_nil d_event_id). Qed.
Lemma upstreamArchetypes_nil upstream : upstreamArchetypes upstream [] = [].
Proof.
  unfold upstreamArchetypes.
  assert (filter (fun a => deck_id_in [] a) (u_archetypes upstream) = []) as ->; [|done].
  induction (u_archetypes upstream) as [|a l IH]; [done|].
  rewrite filter_cons. rewrite decide_False; [done|].
  intros Hd. unfold deck_id_in in Hd. destruct (a_deck_id a); [|done].
  apply bool_decide_unpack in Hd. by apply elem_of_nil in Hd.
Qed.

(** Each extraction stage throws at once when its query binds too many
    identifiers, and is the guarded batch loop over the rows of the query
    otherwise. *)
Lemma syncStandings_guarded upstream eventIds w :
  syncStandings upstream eventIds w
  = if decide (length eventIds < PARAMETER_LIMIT)
    then guarded_write Standings upsert_standings 8000
           (upstreamStandings upstream eventIds) w
    else (Thrown, w).
Proof.
  unfold syncStandings. case_decide as Hids.
  { destruct eventIds; [|done]. rewrite upstreamStandings_nil.
    by rewrite decide_True by (apply Nat.ltb_lt; by vm_compute). }
  unfold bind at 1. rewrite bound_run. by case_decide.
Qed.

Lemma syncMatches_guarded upstream eventIds w :
  syncMatches upstream eventIds w
  = if decide (length eventIds < PARAMETER_LIMIT)
    then guarded_write Matches upsert_matches 7000
           (upstreamMatches upstream eventIds) w
    else (Thrown, w).
Proof.
  unfold syncMatches. case_decide as Hids.
  { destruct eventIds; [|done]. rewrite upstreamMatches_nil.
    by rewrite decide_True by (apply Nat.ltb_lt; by vm_compute). }
  unfold bind at 1. rewrite bound_run. by case_decide.
Qed.

Lemma syncDecks_guarded upstream eventIds w :
  syncDecks upstream eventIds w
  = if decide (length eventIds < PARAMETER_LIMIT)
    then guarded_write Decks upsert_decks 13000 (upstreamDecks upstream eventIds) w
    else (Thrown, w).
Proof.
  unfold syncDecks. case_decide as Hids.
  { destruct eventIds; [|done]. rewrite upstreamDecks_nil.
    by rewrite decide_True by (apply Nat.ltb_lt; by vm_compute). }
  unfold bind at 1. rewrite bound_run. by case_decide.
Qed.

Lemma syncArchetypes_guarded upstream eventIds w :
  syncArchetypes upstream eventIds w
  = if decide (length eventIds < PARAMETER_LIMIT
               /\ length (upstreamDeckIds upstream eventIds) < PARAMETER_LIMIT)
    then guarded_write Archetypes upsert_archetypes 13000
           (upstreamArchetypes upstream (upstreamDeckIds upstream eventIds)) w
    else (Thrown, w).
Proof.
  assert (Hzero : 0 < PARAMETER_LIMIT) by (apply Nat.ltb_lt; by vm_compute).
  unfold syncArchetypes. case_decide as Hids.
  { destruct eventIds; [|done].
    rewrite upstreamDeckIds_nil, upstreamArchetypes_nil. by rewrite decide_True. }
  unfold bind at 1. rewrite bound_run.
  destruct (decide (length eventIds < PARAMETER_LIMIT)) as [He|He];
    [|by rewrite decide_False by tauto].
  unfold ret at 1. case_decide as Hdecks.
  { destruct (upstreamDeckIds upstream eventIds); [|done].
    rewrite upstreamArchetypes_nil. by rewrite decide_True. }
  unfold bind at 1. rewrite bound_run.
  destruct (decide (length (upstreamDeckIds upstream eventIds) < PARAMETER_LIMIT));
    [by rewrite decide_True|by rewrite decide_False by tauto].
Qed.

Ltac stage_law :=
  first
    [ apply standing_excluded_key | apply match_excluded_key
    | apply deck_excluded_key | apply archetype_excluded_key
    | apply event_excluded_key
    | apply Nat.ltb_lt; vm_compute; reflexivity
    | done
    | by intros []
    | by intros ? [] ].

Lemma syncStandings_Returned upstream eventIds w n w' :
  syncStandings upstream eventIds w = (Returned n, w') ->
  let rows := upstreamStandings upstream eventIds in
  n = length rows
  /\ (forall r, r ∈ rows -> standing_fk (target w) r = true)
  /\ target w' = with_standings
                   (upsert_all standing_key standing_excluded
                      (standings (target w)) rows) (target w).
Proof.
  rewrite syncStandings_guarded. case_decide; [|done]. intros Hrun rows.
  eapply (guarded_write_Returned standing_key standing_excluded standing_fk
            standings with_standings); [..|exact Hrun]; stage_law.
Qed.

Lemma syncMatches_Returned upstream eventIds w n w' :
  syncMatches upstream eventIds w = (Returned n, w') ->
  let rows := upstreamMatches upstream eventIds in
  n = length rows
  /\ (forall r, r ∈ rows -> match_fk (target w) r = true)
  /\ target w' = with_matches
                   (upsert_all match_key match_excluded
                      (matches (target w)) rows) (target w).
Proof.
  rewrite syncMatches_guarded. case_decide; [|done]. intros Hrun rows.
  eapply (guarded_write_Returned match_key match_excluded match_fk
            matches with_matches); [..|exact Hrun]; stage_law.
Qed.

Lemma syncDecks_Returned upstream eventIds w n w' :
  syncDecks upstream eventIds w = (Returned n, w') ->
  let rows := upstreamDecks upstream eventIds in
  n = length rows
  /\ (forall r, r ∈ rows -> deck_fk (target w) r = true)
  /\ target w' = with_decks
                   (upsert_all d_id deck_excluded (decks (target w)) rows)
                   (target w).
Proof.
  rewrite syncDecks_guarded. case_decide; [|done]. intros Hrun rows.
  eapply (guarded_write_Returned d_id deck_excluded deck_fk decks with_decks);
    [..|exact Hrun]; stage_law.
Qed.

Lemma syncArchetypes_Returned upstream eventIds w n w' :
  syncArchetypes upstream eventIds w = (Returned n, w') ->
  let rows := upstreamArchetypes upstream (upstreamDeckIds upstream eventIds) in
  n = length rows
  /\ (forall r, r ∈ rows -> archetype_fk (target w) r = true)
  /\ target w' = with_archetypes
                   (upsert_all a_id archetype_excluded (archetypes (target w)) rows)
                   (target w).
Proof.
  rewrite syncArchetypes_guarded. case_decide; [|done]. intros Hrun rows.
  eapply (guarded_write_Returned a_id archetype_excluded archetype_fk
            archetypes with_archetypes); [..|exact Hrun]; stage_law.
Qed.

Lemma syncStandings_noop upstream eventIds w :
  let rows := upstreamStandings upstream eventIds in
  length eventIds < PARAMETER_LIMIT ->
  NoDup (standing_key <$> rows) ->
  (forall r, r ∈ rows -> standing_fk (target w) r = true) ->
  (forall r, r ∈ rows -> present standing_key (standings (target w)) r) ->
  exists j', syncStandings upstream eventIds w
             = (Returned (length rows), mkWorld (target w) j').
Proof.
  intros rows Hlimit Hnd Hfk Hp. rewrite syncStandings_guarded, decide_True by done.
  eapply (guarded_write_noop standing_key standing_excluded standing_fk
            standings with_standings); [..|exact Hnd|exact Hfk|exact Hp]; stage_law.
Qed.

Lemma syncMatches_noop upstream eventIds w :
  let rows := upstreamMatches upstream eventIds in
  length eventIds < PARAMETER_LIMIT ->
  NoDup (match_key <$> rows) ->
  (forall r, r ∈ rows -> match_fk (target w) r = true) ->
  (forall r, r ∈ rows -> present match_key (matches (target w)) r) ->
  exists j', syncMatches upstream eventIds w
             = (Returned (length rows), mkWorld (target w) j').
Proof.
  intros rows Hlimit Hnd Hfk Hp. rewrite syncMatches_guarded, decide_True by done.
  eapply (guarded_write_noop match_key match_excluded match_fk
            matches with_matches); [..|exact Hnd|exact Hfk|exact Hp]; stage_law.
Qed.

Lemma syncDecks_noop upstream eventIds w :
  let rows := upstreamDecks upstream eventIds in
  length eventIds < PARAMETER_LIMIT ->
  NoDup (d_id <$> rows) ->
  (forall r, r ∈ rows -> deck_fk (target w) r = true) ->
  (forall r, r ∈ rows -> present d_id (decks (target w)) r) ->
  exists j', syncDecks upstream eventIds w
             = (Returned (length rows), mkWorld (target w) j').
Proof.
  intros rows Hlimit Hnd Hfk Hp. rewrite syncDecks_guarded, decide_True by done.
  eapply (guarded_write_noop d_id deck_excluded deck_fk decks with_decks);
    [..|exact Hnd|exact Hfk|exact Hp]; stage_law.
Qed.

Lemma syncArchetypes_noop upstream eventIds w :
  let rows := upstreamArchetypes upstream (upstreamDeckIds upstream eventIds) in
  length eventIds < PARAMETER_LIMIT ->
  length (upstreamDeckIds upstream eventIds) < PARAMETER_LIMIT ->
  NoDup (a_id <$> rows) ->
  (forall r, r ∈ rows -> archetype_fk (target w) r = true) ->
  (forall r, r ∈ rows -> present a_id (archetypes (target w)) r) ->
  exists j', syncArchetypes upstream eventIds w
             = (Returned (length rows), mkWorld (target w) j').
Proof.
  intros rows Hlimit Hdecks Hnd Hfk Hp. rewrite syncArchetypes_guarded, decide_True by done.
  eapply (guarded_write_noop a_id archetype_excluded archetype_fk
            archetypes with_archetypes); [..|exact Hnd|exact Hfk|exact Hp]; stage_law.
Qed.

(** A stage that returned had sent its queries. *)
Lemma syncArchetypes_within upstream eventIds w n w' :
  syncArchetypes upstream eventIds w = (Returned n, w') ->
  length eventIds < PARAMETER_LIMIT
  /\ length (upstreamDeckIds upstream eventIds) < PARAMETER_LIMIT.
Proof. rewrite syncArchetypes_guarded. by case_decide. Qed.

(** * The run *)

Section Run.
Context `{platform : Platform}.

Lemma getLocalEventIds_elem_of db i :
  i ∈ getLocalEventIds db <-> i ∈ e_id <$> events db.
Proof. unfold getLocalEventIds. apply elem_of_list_to_set. Qed.

Lemma upstreamEvents_elem_of upstream excludeIds e :
  e ∈ upstreamEvents upstream excludeIds <->
  e ∈ u_events upstream /\ e_id e ∉ excludeIds.
Proof.
  unfold upstreamEvents. rewrite merge_sort_Permutation, list_elem_of_filter. tauto.
Qed.

Lemma filter_all {A} (P : A -> Prop) `{forall x, Decision (P x)} (l : list A) :
  (forall x, x ∈ l -> P x) -> filter P l = l.
Proof.
  induction l as [|x l IH]; intros Hall; [done|].
  rewrite filter_cons, decide_True by (apply Hall; set_solver).
  f_equal. apply IH. intros y Hy. apply Hall. set_solver.
Qed.

(** The query for the new events, in every case: with too many ids to
    exclude it throws; otherwise it returns the upstream events outside
    the exclusion set, and the query without a [WHERE] clause that it
    issues for an empty set returns what the filtered one would. *)
Lemma getUpstreamEvents_run upstream excludeIds w :
  getUpstreamEvents upstream excludeIds w
  = if decide (size excludeIds < PARAMETER_LIMIT)
    then (Returned (upstreamEvents upstream excludeIds), w)
    else (Thrown, w).
Proof.
  unfold getUpstreamEvents, upstreamEvents. case_decide as Hsize.
  - rewrite Hsize. rewrite decide_True by (apply Nat.ltb_lt; by vm_compute).
    apply size_empty_inv in Hsize. rewrite filter_all; [done|].
    intros e _ Hin. apply Hsize in Hin. by apply elem_of_empty in Hin.
  - rewrite bound_run. by case_decide.
Qed.

(** The Events stage, in every case. *)
Lemma syncEvents_run newEvents w :
  syncEvents newEvents w
  = if decide (newEvents = []) then (Returned 0, w)
    else if decide (7 * length newEvents < PARAMETER_LIMIT) then
      match upsert_events newEvents (target w) with
      | Some db => (Returned (length newEvents),
                    mkWorld db (journal w ++ [(Events, length newEvents)]))
      | None => (Thrown, mkWorld (target w)
                           (journal w ++ [(Events, length newEvents)]))
      end
    else (Thrown, w).
Proof.
  unfold syncEvents. destruct newEvents as [|e l]; [done|].
  rewrite decide_False by done. rewrite decide_False by done.
  unfold bind. rewrite bound_run. case_decide; [|done].
  unfold exec, ret. destruct (upsert_events _ _); done.
Qed.

Lemma upsert_events_Some batch db db' :
  upsert_events batch db = Some db' ->
  NoDup (e_id <$> batch)
  /\ db' = with_events (upsert_all e_id event_excluded (events db) batch) db.
Proof.
  unfold upsert_events, insert_on_conflict_do_update.
  case_decide as Hnd; [|done].
  assert (forallb (fun _ : EventRecord => true) batch = true) as ->.
  { clear Hnd. induction batch as [|e batch IH]; [done|]. simpl. exact IH. }
  simpl. intros [= Heq]. subst db'. done.
Qed.

Lemma syncEvents_Returned newEvents w n w' :
  syncEvents newEvents w = (Returned n, w') ->
  n = length newEvents
  /\ NoDup (e_id <$> newEvents)
  /\ target w' = with_events (upsert_all e_id event_excluded (events (target w)) newEvents)
                   (target w).
Proof.
  rewrite syncEvents_run. case_decide as Hnil.
  - subst. intros [= <- <-]. split_and!; [done|constructor|by destruct (target w)].
  - case_decide; [|done].
    destruct (upsert_events newEvents (target w)) as [db|] eqn:Hup; [|done].
    intros [= <- <-]. apply upsert_events_Some in Hup as [? ->]. done.
Qed.

Lemma syncPlayers_Returned upstream eventIds w n w' :
  syncPlayers upstream eventIds w = (Returned n, w') ->
  let plan := playersToSync upstream (referencedPlayerNames upstream eventIds)
                (players (target w)) in
  n = length plan
  /\ target w' = with_players (players (target w) ++ plan) (target w).
Proof.
  rewrite syncPlayers_run. intros Hrun plan. fold plan in Hrun.
  case_decide as Hwithin; [|done].
  case_decide as Hnil.
  - injection Hrun as <- <-. rewrite Hnil, app_nil_r.
    split; [done|by destruct (target w)].
  - destruct (insert_players plan (target w)) as [db|] eqn:Hins; [|done].
    injection Hrun as <- <-. apply insert_players_plan in Hins. done.
Qed.

Lemma syncPlayers_within upstream eventIds w n w' :
  syncPlayers upstream eventIds w = (Returned n, w') ->
  players_stage_within upstream eventIds (players (target w)).
Proof. rewrite syncPlayers_run. cbv zeta. by case_decide. Qed.

Lemma allEventIdsToSync_nil upstream db :
  allEventIdsToSync upstream db = [] ->
  upstreamEvents upstream (getLocalEventIds db) = []
  /\ getIncompleteEventIds db = [].
Proof.
  unfold allEventIdsToSync. intros H. apply app_eq_nil in H as [H1 H2].
  split; [|done]. by apply fmap_nil_inv in H1.
Qed.

Lemma sync_result_nil upstream db :
  allEventIdsToSync upstream db = [] -> sync_result upstream db = db.
Proof.
  intros Hnil. unfold sync_result.
  destruct (allEventIdsToSync_nil _ _ Hnil) as [-> _]. rewrite Hnil.
  rewrite referencedPlayerNames_nil, playersToSync_nil, upstreamStandings_nil,
    upstreamMatches_nil, upstreamDecks_nil, upstreamDeckIds_nil,
    upstreamArchetypes_nil, app_nil_r.
  by destruct db.
Qed.

Lemma bind_Returned {A B} (c : M A) (k : A -> M B) w b w' :
  bind c k w = (Returned b, w') ->
  exists a w1, c w = (Returned a, w1) /\ k a w1 = (Returned b, w').
Proof.
  unfold bind. destruct (c w) as [[a|] w1]; [|done]. intros Hk. by exists a, w1.
Qed.

(** The stages of a run whose three opening queries returned, in the
    order of the script. *)
Lemma sync_unfold upstream w :
  sync upstream w
  = if decide (size (getLocalEventIds (target w)) < PARAMETER_LIMIT) then
      let newEvents := upstreamEvents upstream (getLocalEventIds (target w)) in
      let incompleteEventIds := getIncompleteEventIds (target w) in
      let allEventIds := allEventIdsToSync upstream (target w) in
      if decide (length allEventIds = 0) then (Returned (mkSummary 0 0 0 no_stats), w)
      else
        (await n_players <- syncPlayers upstream allEventIds;
         await n_events <- (if decide (0 < length newEvents)
                            then syncEvents newEvents
                            else ret 0);
         await n_standings <- syncStandings upstream allEventIds;
         await n_matches <- syncMatches upstream allEventIds;
         await n_decks <- syncDecks upstream allEventIds;
         await n_archetypes <- syncArchetypes upstream allEventIds;
         ret (mkSummary (length newEvents) (length incompleteEventIds)
                (length allEventIds)
                (mkStats n_events n_players n_matches n_decks n_standings
                   n_archetypes))) w
    else (Thrown, w).
Proof.
  unfold sync, bind at 1 2, query. simpl. unfold bind at 1.
  rewrite getUpstreamEvents_run. case_decide; [|done].
  unfold allEventIdsToSync. by case_decide.
Qed.

(** A run that returns has done what [sync_result] and [sync_summary]
    say, and every row it wrote satisfied the target's references. *)
Lemma sync_Returned upstream w s w' :
  sync upstream w = (Returned s, w') ->
  let E := allEventIdsToSync upstream (target w) in
  target w' = sync_result upstream (target w)
  /\ (E <> [] -> s = sync_summary upstream (target w))
  /\ (E = [] -> s = mkSummary 0 0 0 no_stats)
  /\ NoDup (e_id <$> upstreamEvents upstream (getLocalEventIds (target w)))
  /\ (forall r, r ∈ upstreamStandings upstream E -> standing_fk (target w') r = true)
  /\ (forall r, r ∈ upstreamMatches upstream E -> match_fk (target w') r = true)
  /\ (forall r, r ∈ upstreamDecks upstream E -> deck_fk (target w') r = true)
  /\ (forall r, r ∈ upstreamArchetypes upstream (upstreamDeckIds upstream E) ->
        archetype_fk (target w') r = true).
Proof.
  rewrite sync_unfold. intros Hrun E. case_decide as Hsize; [|done].
  cbv zeta in Hrun. fold E in Hrun.
  set (new := upstreamEvents upstream (getLocalEventIds (target w))) in *.
  case_decide as HE.
  - assert (HEnil : E = []) by (by destruct E).
    injection Hrun as <- <-.
    destruct (allEventIdsToSync_nil _ _ HEnil) as [Hnew _].
    rewrite sync_result_nil by done. unfold new. rewrite Hnew, HEnil.
    rewrite upstreamStandings_nil, upstreamMatches_nil, upstreamDecks_nil,
      upstreamDeckIds_nil, upstreamArchetypes_nil.
    split_and!; try done; try constructor;
      intros r Hr; by apply elem_of_nil in Hr.
  - assert (HEne : E <> []) by (intros HEnil; rewrite HEnil in HE; done).
    apply bind_Returned in Hrun as (n1 & w1 & H1 & Hrun).
    apply bind_Returned in Hrun as (n2 & w2 & H2 & Hrun).
    apply bind_Returned in Hrun as (n3 & w3 & H3 & Hrun).
    apply bind_Returned in Hrun as (n4 & w4 & H4 & Hrun).
    apply bind_Returned in Hrun as (n5 & w5 & H5 & Hrun).
    apply bind_Returned in Hrun as (n6 & w6 & H6 & Hrun).
    injection Hrun as <- <-.
    apply syncPlayers_Returned in H1 as [-> Hw1].
    assert (H2' : n2 = length new /\ NoDup (e_id <$> new)
                  /\ target w2 = with_events
                       (upsert_all e_id event_excluded (events (target w1)) new)
                       (target w1)).
    { case_decide as Hlen.
      - by apply syncEvents_Returned in H2.
      - destruct new; [|simpl in Hlen; lia]. injection H2 as <- <-.
        split_and!; [done|constructor|by destruct (target w1)]. }
    destruct H2' as (-> & Hnd & Hw2).
    apply syncStandings_Returned in H3 as (-> & Hfk3 & Hw3).
    apply syncMatches_Returned in H4 as (-> & Hfk4 & Hw4).
    apply syncDecks_Returned in H5 as (-> & Hfk5 & Hw5).
    apply syncArchetypes_Returned in H6 as (-> & Hfk6 & Hw6).
    rewrite Hw6, Hw5, Hw4, Hw3, Hw2, Hw1 in *. clear Hw6 Hw5 Hw4 Hw3 Hw2 Hw1.
    split_and!; try done.
Qed.

(** ** What the extraction queries return *)

Lemma NoDup_sorted_filter {A K} (key : A -> K) (R : relation A)
    `{forall x y, Decision (R x y)} (P : A -> Prop) `{forall x, Decision (P x)}
    (l : list A) :
  NoDup (key <$> l) -> NoDup (key <$> merge_sort R (filter P l)).
Proof.
  intros Hnd. rewrite merge_sort_Permutation.
  eapply sublist_NoDup; [exact Hnd|]. apply fmap_sublist, sublist_filter.
Qed.

Lemma upstreamStandings_elem_of upstream eventIds r :
  r ∈ upstreamStandings upstream eventIds <->
  r ∈ u_standings upstream /\ s_event_id r ∈ eventIds.
Proof.
  unfold upstreamStandings. rewrite merge_sort_Permutation, list_elem_of_filter. tauto.
Qed.
Lemma upstreamMatches_elem_of upstream eventIds r :
  r ∈ upstreamMatches upstream eventIds <->
  r ∈ u_matches upstream /\ m_event_id r ∈ eventIds.
Proof.
  unfold upstreamMatches. rewrite merge_sort_Permutation, list_elem_of_filter. tauto.
Qed.
Lemma upstreamDecks_elem_of upstream eventIds r :
  r ∈ upstreamDecks upstream eventIds <->
  r ∈ u_decks upstream /\ d_event_id r ∈ eventIds.
Proof.
  unfold upstreamDecks. rewrite merge_sort_Permutation, list_elem_of_filter. tauto.
Qed.
Lemma upstreamDeckIds_elem_of upstream eventIds i :
  i ∈ upstreamDeckIds upstream eventIds <->
  exists d, d ∈ u_decks upstream /\ d_event_id d ∈ eventIds /\ d_id d = i.
Proof.
  unfold upstreamDeckIds. rewrite list_elem_of_fmap.
  setoid_rewrite list_elem_of_filter. naive_solver.
Qed.
Lemma upstreamArchetypes_elem_of upstream deckIds r :
  r ∈ upstreamArchetypes upstream deckIds <->
  r ∈ u_archetypes upstream /\ exists i, a_deck_id r = Some i /\ i ∈ deckIds.
Proof.
  unfold upstreamArchetypes. rewrite merge_sort_Permutation, list_elem_of_filter.
  unfold deck_id_in. destruct (a_deck_id r) as [i|].
  - rewrite bool_decide_spec. naive_solver.
  - naive_solver.
Qed.

(** A run over a target that already holds everything the run would
    write changes nothing. *)
Lemma sync_noop upstream w :
  let db := target w in
  let E := allEventIdsToSync upstream db in
  size (getLocalEventIds db) < PARAMETER_LIMIT ->
  players_stage_within upstream E (players db) ->
  length E < PARAMETER_LIMIT ->
  length (upstreamDeckIds upstream E) < PARAMETER_LIMIT ->
  upstreamEvents upstream (getLocalEventIds db) = [] ->
  playersToSync upstream (referencedPlayerNames upstream E) (players db) = [] ->
  upstream_keys_unique upstream ->
  (forall r, r ∈ upstreamStandings upstream E ->
     standing_fk db r = true /\ present standing_key (standings db) r) ->
  (forall r, r ∈ upstreamMatches upstream E ->
     match_fk db r = true /\ present match_key (matches db) r) ->
  (forall r, r ∈ upstreamDecks upstream E ->
     deck_fk db r = true /\ present d_id (decks db) r) ->
  (forall r, r ∈ upstreamArchetypes upstream (upstreamDeckIds upstream E) ->
     archetype_fk db r = true /\ present a_id (archetypes db) r) ->
  exists s j', sync upstream w = (Returned s, mkWorld db j')
               /\ (E = [] -> s = mkSummary 0 0 0 no_stats)
               /\ new_events s = 0
               /\ stats_events (stats s) = 0
               /\ stats_players (stats s) = 0.
Proof.
  intros db E Hsize Hwithin Hlimit Hdecks Hnew Hplan (HkS & HkM & HkD & HkA) HS HM HD HA.
  rewrite sync_unfold. rewrite decide_True by done.
  cbv zeta. fold db. fold E. rewrite Hnew.
  case_decide as HE.
  { exists (mkSummary 0 0 0 no_stats), (journal w). split_and!; try done.
    by destruct w. }
  assert (HEne : E <> []) by (intros HEnil; rewrite HEnil in HE; done).
  unfold bind at 1. rewrite syncPlayers_run. cbv zeta. fold db. fold E.
  rewrite decide_True by done.
  rewrite Hplan. rewrite decide_True by done.
  unfold bind at 1. rewrite decide_False by (simpl; lia). unfold ret at 1.
  destruct (syncStandings_noop upstream E w) as [j1 H1].
  { done. }
  { apply NoDup_sorted_filter, HkS. }
  { intros r Hr. by apply HS. }
  { intros r Hr. by apply HS. }
  unfold bind at 1. rewrite H1.
  destruct (syncMatches_noop upstream E (mkWorld (target w) j1)) as [j2 H2].
  { done. }
  { apply NoDup_sorted_filter, HkM. }
  { intros r Hr. by apply HM. }
  { intros r Hr. by apply HM. }
  unfold bind at 1. rewrite H2. simpl target.
  destruct (syncDecks_noop upstream E (mkWorld (target w) j2)) as [j3 H3].
  { done. }
  { apply NoDup_sorted_filter, HkD. }
  { intros r Hr. by apply HD. }
  { intros r Hr. by apply HD. }
  unfold bind at 1. rewrite H3. simpl target.
  destruct (syncArchetypes_noop upstream E (mkWorld (target w) j3)) as [j4 H4].
  { done. }
  { done. }
  { apply NoDup_sorted_filter, HkA. }
  { intros r Hr. by apply HA. }
  { intros r Hr. by apply HA. }
  unfold bind at 1. rewrite H4. simpl target. unfold ret.
  eexists _, j4. split_and!; try done.
Qed.

Lemma filter_none {A} (P : A -> Prop) `{forall x, Decision (P x)} (l : list A) :
  (forall x, x ∈ l -> ~ P x) -> filter P l = [].
Proof.
  induction l as [|x l IH]; intros Hall; [done|].
  rewrite filter_cons, decide_False by (apply Hall; set_solver).
  apply IH. intros y Hy. apply Hall. set_solver.
Qed.

Lemma nil_no_elem {A} (l : list A) : (forall x, x ∉ l) -> l = [].
Proof. destruct l as [|x l]; [done|]. intros H. destruct (H x). set_solver. Qed.

(** After a run that returned, every upstream event is on the target. *)
Lemma sync_result_no_new_events upstream db :
  upstreamEvents upstream (getLocalEventIds (sync_result upstream db)) = [].
Proof.
  apply nil_no_elem. intros e He.
  apply upstreamEvents_elem_of in He as [He Hout]. apply Hout.
  apply getLocalEventIds_elem_of. simpl.
  destruct (decide (e_id e ∈ e_id <$> events db)) as [Hin|Hnew].
  - by apply (upsert_all_keys_mono e_id event_excluded event_excluded_key).
  - apply (upsert_all_keys_in e_id event_excluded event_excluded_key).
    apply upstreamEvents_elem_of. split; [done|].
    by rewrite getLocalEventIds_elem_of.
Qed.

(** What a run that returned had to pass on its way. *)
Lemma sync_Returned_within upstream w s w' :
  sync upstream w = (Returned s, w') ->
  let E := allEventIdsToSync upstream (target w) in
  size (getLocalEventIds (target w)) < PARAMETER_LIMIT
  /\ (E <> [] ->
      players_stage_within upstream E (players (target w))
      /\ length (upstreamDeckIds upstream E) < PARAMETER_LIMIT).
Proof.
  rewrite sync_unfold. intros Hrun E. case_decide as Hsize; [|done].
  split; [done|]. intros HE.
  cbv zeta in Hrun. fold E in Hrun.
  rewrite decide_False in Hrun by (by destruct E).
  apply bind_Returned in Hrun as (n1 & w1 & H1 & Hrun).
  apply bind_Returned in Hrun as (n2 & w2 & H2 & Hrun).
  apply bind_Returned in Hrun as (n3 & w3 & H3 & Hrun).
  apply bind_Returned in Hrun as (n4 & w4 & H4 & Hrun).
  apply bind_Returned in Hrun as (n5 & w5 & H5 & Hrun).
  apply bind_Returned in Hrun as (n6 & w6 & H6 & Hrun).
  split; [by eapply syncPlayers_within|].
  by apply syncArchetypes_within in H6 as [_ ?].
Qed.

Lemma filter_length_mono {A} (P Q : A -> Prop) `{forall x, Decision (P x)}
    `{forall x, Decision (Q x)} (l : list A) :
  (forall x, x ∈ l -> P x -> Q x) -> length (filter P l) <= length (filter Q l).
Proof.
  induction l as [|x l IH]; intros Himpl; [done|].
  assert (IH' : length (filter P l) <= length (filter Q l)).
  { apply IH. intros y Hy. apply Himpl. set_solver. }
  rewrite !filter_cons.
  destruct (decide (P x)) as [HP|HP].
  - rewrite decide_True by (apply Himpl; [set_solver|done]). simpl. lia.
  - destruct (decide (Q x)); simpl; lia.
Qed.

(** A shorter worklist draws fewer deck ids and fewer names. *)
Lemma upstreamDeckIds_length_mono upstream E E' :
  (forall i, i ∈ E' -> i ∈ E) ->
  length (upstreamDeckIds upstream E') <= length (upstreamDeckIds upstream E).
Proof.
  intros Hsub. unfold upstreamDeckIds. rewrite !length_fmap.
  apply filter_length_mono. intros d _. apply Hsub.
Qed.

Lemma referencedPlayerNames_length_mono upstream E E' :
  (forall i, i ∈ E' -> i ∈ E) ->
  length (referencedPlayerNames upstream E')
  <= length (referencedPlayerNames upstream E).
Proof.
  intros Hsub. apply submseteq_length, NoDup_submseteq.
  - apply referencedPlayerNames_NoDup.
  - intros name. rewrite !referencedPlayerNames_elem_of.
    intros [(r & ? & ? & ?)|[(r & ? & ? & ?)|(r & ? & ? & ?)]];
      [left|right; left|right; right]; exists r; split_and!; try done;
      by apply Hsub.
Qed.

(** C4 (as amended).  Running the sync again against the same upstream,
    whose tables satisfy the schema's unique keys: when the first run
    returned, every event that is still incomplete afterwards was on the
    first run's worklist, and the target it left is within the limits of
    the second run (fewer event ids than the driver binds in one query,
    no more negative player ids than the engine takes as arguments), the
    second run returns and leaves the target exactly as the first run
    left it; it reports no new event, no event row and no player row; and
    when no event is incomplete after the first run, every count of its
    summary is zero. *)
Theorem second_run_identical (upstream : Upstream) (w w1 : World) (s1 : Summary) :
  upstream_keys_unique upstream ->
  sync upstream w = (Returned s1, w1) ->
  (forall e, e ∈ getIncompleteEventIds (target w1) ->
             e ∈ allEventIdsToSync upstream (target w)) ->
  size (getLocalEventIds (target w1)) < PARAMETER_LIMIT ->
  length (negativeIds (players (target w1))) <= max_arguments ->
  exists s2 j2,
    sync upstream w1 = (Returned s2, mkWorld (target w1) j2)
    /\ new_events s2 = 0
    /\ stats_events (stats s2) = 0
    /\ stats_players (stats s2) = 0
    /\ (getIncompleteEventIds (target w1) = [] -> s2 = mkSummary 0 0 0 no_stats).
Proof.
  intros Hkeys Hrun Hwork Hsize2 Hspread2.
  pose proof Hkeys as (HkS & HkM & HkD & HkA).
  pose proof (sync_Returned_within _ _ _ _ Hrun) as [_ Hwithin1].
  apply sync_Returned in Hrun
    as (Hw1 & _ & _ & Hnd & HfkS & HfkM & HfkD & HfkA).
  set (db := target w) in *. set (E1 := allEventIdsToSync upstream db) in *.
  assert (Hnew2 : upstreamEvents upstream (getLocalEventIds (target w1)) = []).
  { rewrite Hw1. apply sync_result_no_new_events. }
  assert (HE2 : allEventIdsToSync upstream (target w1)
                = getIncompleteEventIds (target w1)).
  { unfold allEventIdsToSync. by rewrite Hnew2. }
  assert (Hsub : forall e, e ∈ allEventIdsToSync upstream (target w1) -> e ∈ E1).
  { intros e. rewrite HE2. apply Hwork. }
  assert (Hshort : length (allEventIdsToSync upstream (target w1)) <= 100).
  { rewrite HE2. apply getIncompleteEventIds_length. }
  assert (Hplan2 : playersToSync upstream
                     (referencedPlayerNames upstream
                        (allEventIdsToSync upstream (target w1)))
                     (players (target w1)) = []).
  { apply (fmap_nil_inv p_name). rewrite playersToSync_names.
    apply filter_none. intros name Hname Hfresh. apply Hfresh.
    rewrite Hw1. simpl. rewrite fmap_app, elem_of_app.
    destruct (decide (name ∈ p_name <$> players db)) as [?|Hnot]; [by left|right].
    rewrite playersToSync_names. apply list_elem_of_filter. split; [done|].
    apply referencedPlayerNames_elem_of.
    apply referencedPlayerNames_elem_of in Hname.
    destruct Hname as [(r & ? & ? & ?)|[(r & ? & ? & ?)|(r & ? & ? & ?)]];
      [left|right; left|right; right]; exists r; split_and!; try done;
      by apply Hsub. }
  assert (Hfew : forall n, n <= 300 -> n < PARAMETER_LIMIT).
  { intros n Hn. apply Nat.le_lt_trans with 300; [done|].
    apply Nat.ltb_lt. by vm_compute. }
  assert (HE1 : allEventIdsToSync upstream (target w1) <> [] -> E1 <> []).
  { intros Hne HE1. destruct (allEventIdsToSync upstream (target w1)) as [|e l];
      [done|]. specialize (Hsub e). rewrite HE1 in Hsub.
    apply (not_elem_of_nil e), Hsub. set_solver. }
  destruct (sync_noop upstream w1) as (s2 & j2 & Hrun2 & Hzero & ? & ? & ?).
  - done.
  - split; [apply Hfew; lia|]. intros Hnames2. rewrite Hplan2. split_and!.
    + assert (HE2ne : allEventIdsToSync upstream (target w1) <> []).
      { intros Hnil. apply Hnames2. rewrite Hnil. apply referencedPlayerNames_nil. }
      destruct (Hwithin1 (HE1 HE2ne)) as [[_ Hnames1] _].
      pose proof (referencedPlayerNames_length_mono upstream E1 _ Hsub) as Hle.
      destruct (decide (referencedPlayerNames upstream E1 = [])) as [Hnil|Hne].
      * rewrite Hnil in Hle. simpl in Hle. apply Hfew. lia.
      * destruct (Hnames1 Hne) as [Hlt _]. lia.
    + done.
    + apply Hfew. simpl. lia.
  - apply Hfew. lia.
  - pose proof (upstreamDeckIds_length_mono upstream E1 _ Hsub) as Hle.
    destruct (decide (allEventIdsToSync upstream (target w1) = [])) as [Hnil|Hne].
    + rewrite Hnil, upstreamDeckIds_nil. apply Hfew. simpl. lia.
    + destruct (Hwithin1 (HE1 Hne)) as [_ Hlt]. lia.
  - done.
  - done.
  - done.
  - intros r Hr. apply upstreamStandings_elem_of in Hr as [Hr HrE].
    assert (Hr1 : r ∈ upstreamStandings upstream E1).
    { apply upstreamStandings_elem_of. split; [done|by apply Hsub]. }
    split; [by apply HfkS|]. rewrite Hw1. simpl.
    apply (present_upsert_all standing_key standing_excluded standing_excluded_key);
      [|done].
    apply NoDup_sorted_filter, HkS.
  - intros r Hr. apply upstreamMatches_elem_of in Hr as [Hr HrE].
    assert (Hr1 : r ∈ upstreamMatches upstream E1).
    { apply upstreamMatches_elem_of. split; [done|by apply Hsub]. }
    split; [by apply HfkM|]. rewrite Hw1. simpl.
    apply (present_upsert_all match_key match_excluded match_excluded_key); [|done].
    apply NoDup_sorted_filter, HkM.
  - intros r Hr. apply upstreamDecks_elem_of in Hr as [Hr HrE].
    assert (Hr1 : r ∈ upstreamDecks upstream E1).
    { apply upstreamDecks_elem_of. split; [done|by apply Hsub]. }
    split; [by apply HfkD|]. rewrite Hw1. simpl.
    apply (present_upsert_all d_id deck_excluded deck_excluded_key); [|done].
    apply NoDup_sorted_filter, HkD.
  - intros r Hr. apply upstreamArchetypes_elem_of in Hr as (Hr & i & Hi & HiE).
    assert (Hr1 : r ∈ upstreamArchetypes upstream (upstreamDeckIds upstream E1)).
    { apply upstreamArchetypes_elem_of. split; [done|]. exists i. split; [done|].
      apply upstreamDeckIds_elem_of in HiE as (d & ? & ? & ?).
      apply upstreamDeckIds_elem_of. exists d. split_and!; try done. by apply Hsub. }
    split; [by apply HfkA|]. rewrite Hw1. simpl.
    apply (present_upsert_all a_id archetype_excluded archetype_excluded_key); [|done].
    apply NoDup_sorted_filter, HkA.
  - exists s2, j2. split_and!; try done.
    intros Hinc. apply Hzero. by rewrite HE2.
Qed.

End Run.

(** ** A backlog of at most 100 incomplete events *)

Section Backlog.
Context `{platform : Platform}.

Lemma incompleteEvents_all db e :
  length (filter (fun e => where_incomplete db e) (events db)) <= 100 ->
  e ∈ events db -> where_incomplete db e = true ->
  e_id e ∈ getIncompleteEventIds db.
Proof.
  intros Hlen He Hinc.
  destruct (incompleteEvents_sorted_all db) as (all & Hrows & _ & Hall & Hlen_all).
  unfold getIncompleteEventIds. apply list_elem_of_fmap.
  exists (e_id e, e_name e, e_date e). split; [done|].
  rewrite Hrows, take_ge by lia. apply Hall. eauto.
Qed.

Lemma getIncompleteEventIds_elem_of db i :
  i ∈ getIncompleteEventIds db ->
  exists e, e ∈ events db /\ where_incomplete db e = true /\ e_id e = i.
Proof.
  unfold getIncompleteEventIds. intros Hi.
  apply list_elem_of_fmap in Hi as (r & -> & Hr).
  destruct (incompleteEvents_sorted_all db) as (all & Hrows & _ & Hall & _).
  rewrite Hrows in Hr.
  assert (Hr' : r ∈ all).
  { rewrite <- (take_drop 100 all). apply elem_of_app. by left. }
  apply Hall in Hr' as (e & He & Hinc & ->). by exists e.
Qed.

Section Projections.
Context {Row Key K : Type} `{EqDecision Key}.
Variable key : Row -> Key.
Variable upd : Row -> Row -> Row.
Variable g : Row -> K.
Hypothesis upd_key : forall x r, key x = key r -> upd x r = r.
Hypothesis g_key : forall x r, key x = key r -> g x = g r.

(** An upsert never removes a value of a column that is part of the
    key. *)
Lemma upsert_all_column_mono t rows k :
  k ∈ g <$> t -> k ∈ g <$> upsert_all key upd t rows.
Proof.
  intros Hk. apply list_elem_of_fmap in Hk as (x & -> & Hx).
  assert (Hkey : key x ∈ key <$> upsert_all key upd t rows).
  { apply (upsert_all_keys_mono key upd upd_key). by apply list_elem_of_fmap_2. }
  apply list_elem_of_fmap in Hkey as (x' & Hkx & Hx').
  apply list_elem_of_fmap. exists x'. split; [by apply g_key|done].
Qed.
End Projections.

(** An event of the target that is complete stays complete through a
    run. *)
Lemma where_incomplete_sync_result upstream db e :
  where_incomplete (sync_result upstream db) e = true ->
  where_incomplete db e = true.
Proof.
  unfold where_incomplete. rewrite !andb_true_iff, !orb_true_iff, !negb_true_iff.
  unfold exists_standing, exists_match. rewrite !bool_decide_eq_false.
  intros [Hpos Hmissing]. split; [done|].
  destruct Hmissing as [Hs|Hm]; [left|right]; intros Hin.
  - apply Hs. simpl.
    apply (upsert_all_column_mono standing_key standing_excluded s_event_id
             standing_excluded_key); [|done].
    unfold standing_key. by intros x r [= -> _].
  - apply Hm. simpl.
    apply (upsert_all_column_mono match_key match_excluded m_event_id
             match_excluded_key); [|done].
    unfold match_key. by intros x r [= -> _ _].
Qed.

(** When the target has at most 100 incomplete events, whatever is still
    incomplete after a run that returned was on the worklist of that
    run. *)
Lemma small_backlog_covered upstream w s w1 :
  sync upstream w = (Returned s, w1) ->
  length (filter (fun e => where_incomplete (target w) e) (events (target w))) <= 100 ->
  forall i, i ∈ getIncompleteEventIds (target w1) ->
            i ∈ allEventIdsToSync upstream (target w).
Proof.
  intros Hrun Hlen i Hi.
  apply sync_Returned in Hrun as (Hw1 & _ & _ & Hnd & _).
  apply getIncompleteEventIds_elem_of in Hi as (e & He & Hinc & <-).
  rewrite Hw1 in He, Hinc. simpl in He.
  rewrite (upsert_all_fresh e_id event_excluded event_excluded_key) in He; [|done|].
  - unfold allEventIdsToSync. apply elem_of_app.
    apply elem_of_app in He as [He|He].
    + right. apply incompleteEvents_all; [done|done|].
      by eapply where_incomplete_sync_result.
    + left. by apply list_elem_of_fmap_2.
  - intros e' He'. apply upstreamEvents_elem_of in He' as [_ He'].
    by rewrite getLocalEventIds_elem_of in He'.
Qed.

End Backlog.

(** ** Order of the stages *)

Section Order.
Context `{platform : Platform}.

Lemma emits_ret {A} lo hi (a : A) w : emits lo hi (ret a) w.
Proof. exists []. rewrite app_nil_r. split_and!; [done|constructor|constructor]. Qed.

Lemma emits_bind {A B} lo mid hi (c : M A) (k : A -> M B) w :
  emits lo mid c w -> (forall a w1, emits mid hi (k a) w1) -> lo <= mid <= hi ->
  emits lo hi (bind c k) w.
Proof.
  intros (j1 & Hj1 & Hs1 & Hr1) Hk Hle. unfold emits, bind.
  destruct (c w) as [[a|] w1]; simpl in *.
  - destruct (Hk a w1) as (j2 & Hj2 & Hs2 & Hr2).
    exists (j1 ++ j2). rewrite Hj2, Hj1, app_assoc. split_and!; [done| |].
    + rewrite fmap_app. apply StronglySorted_app_2; [|done|done].
      intros x1 x2 Hx1 Hx2.
      apply list_elem_of_fmap in Hx1 as (e1 & -> & He1).
      apply list_elem_of_fmap in Hx2 as (e2 & -> & He2).
      rewrite Forall_forall in Hr1, Hr2. specialize (Hr1 e1 He1).
      specialize (Hr2 e2 He2). unfold stage_le. lia.
    + apply Forall_app. split; (eapply Forall_impl; [done|]); simpl; lia.
  - exists j1. split_and!; [done|done|].
    eapply Forall_impl; [done|]. simpl. lia.
Qed.

Lemma emits_stage {A} (stage : Stage) (c : M A) w :
  (exists j', journal (c w).2 = journal w ++ j' /\ Forall (fun e => e.1 = stage) j') ->
  emits (stage_rank stage) (stage_rank stage) c w.
Proof.
  intros (j' & Hj & Hall). exists j'. split_and!; [done| |].
  - clear Hj. induction Hall as [|e j' He Hall IH]; [constructor|].
    simpl. constructor; [done|]. apply Forall_fmap. eapply Forall_impl; [done|].
    simpl. intros e' He'. unfold stage_le. by rewrite He, He'.
  - eapply Forall_impl; [done|]. simpl. by intros e ->.
Qed.

Lemma syncPlayers_emits upstream eventIds w :
  emits 0 0 (syncPlayers upstream eventIds) w.
Proof.
  apply (emits_stage Players). rewrite syncPlayers_run. cbv zeta.
  case_decide; [|exists []; by rewrite app_nil_r].
  case_decide; [exists []; by rewrite app_nil_r|].
  destruct (insert_players _ _); simpl; eexists [_]; split; try done;
    by constructor.
Qed.

Lemma syncEvents_emits newEvents w : emits 1 1 (syncEvents newEvents) w.
Proof.
  apply (emits_stage Events). rewrite syncEvents_run.
  case_decide; [exists []; by rewrite app_nil_r|].
  case_decide; [|exists []; by rewrite app_nil_r].
  destruct (upsert_events _ _); simpl; eexists [_]; split; try done;
    by constructor.
Qed.

Lemma syncStandings_emits upstream eventIds w :
  emits 2 2 (syncStandings upstream eventIds) w.
Proof.
  apply (emits_stage Standings). rewrite syncStandings_guarded.
  case_decide; [apply guarded_write_journal|exists []; by rewrite app_nil_r].
Qed.
Lemma syncMatches_emits upstream eventIds w :
  emits 3 3 (syncMatches upstream eventIds) w.
Proof.
  apply (emits_stage Matches). rewrite syncMatches_guarded.
  case_decide; [apply guarded_write_journal|exists []; by rewrite app_nil_r].
Qed.
Lemma syncDecks_emits upstream eventIds w :
  emits 4 4 (syncDecks upstream eventIds) w.
Proof.
  apply (emits_stage Decks). rewrite syncDecks_guarded.
  case_decide; [apply guarded_write_journal|exists []; by rewrite app_nil_r].
Qed.
Lemma syncArchetypes_emits upstream eventIds w :
  emits 5 5 (syncArchetypes upstream eventIds) w.
Proof.
  apply (emits_stage Archetypes). rewrite syncArchetypes_guarded.
  case_decide; [apply guarded_write_journal|exists []; by rewrite app_nil_r].
Qed.

Lemma sync_emits upstream w : emits 0 5 (sync upstream) w.
Proof.
  unfold emits. rewrite sync_unfold.
  case_decide; [|exists []; rewrite app_nil_r; split_and!; [done|constructor|constructor]].
  cbv zeta. case_decide.
  { exists []. rewrite app_nil_r. split_and!; [done|constructor|constructor]. }
  apply (emits_bind 0 0 5); [apply syncPlayers_emits| |lia]. intros n1 w1.
  apply (emits_bind 0 1 5); [|intros n2 w2|lia].
  { case_decide.
    - destruct (syncEvents_emits (upstreamEvents upstream
                  (getLocalEventIds (target w))) w1) as (j' & ? & ? & Hr).
      exists j'. split_and!; [done|done|].
      eapply Forall_impl; [done|]. simpl. lia.
    - apply emits_ret. }
  apply (emits_bind 1 2 5); [|intros n3 w3|lia].
  { destruct (syncStandings_emits upstream
                (allEventIdsToSync upstream (target w)) w2) as (j' & ? & ? & Hr).
    exists j'. split_and!; [done|done|].
    eapply Forall_impl; [done|]. simpl. lia. }
  apply (emits_bind 2 3 5); [|intros n4 w4|lia].
  { destruct (syncMatches_emits upstream
                (allEventIdsToSync upstream (target w)) w3) as (j' & ? & ? & Hr).
    exists j'. split_and!; [done|done|].
    eapply Forall_impl; [done|]. simpl. lia. }
  apply (emits_bind 3 4 5); [|intros n5 w5|lia].
  { destruct (syncDecks_emits upstream
                (allEventIdsToSync upstream (target w)) w4) as (j' & ? & ? & Hr).
    exists j'. split_and!; [done|done|].
    eapply Forall_impl; [done|]. simpl. lia. }
  apply (emits_bind 4 5 5); [|intros n6 w6; apply emits_ret|lia].
  destruct (syncArchetypes_emits upstream
              (allEventIdsToSync upstream (target w)) w5) as (j' & ? & ? & Hr).
  exists j'. split_and!; [done|done|].
  eapply Forall_impl; [done|]. simpl. lia.
Qed.

(** ** What the stages leave alone *)

Lemma keeps_ret {A X} (proj : Database -> X) (a : A) w : keeps proj (ret a) w.
Proof. done. Qed.

Lemma keeps_bind {A B X} (proj : Database -> X) (c : M A) (k : A -> M B) w :
  keeps proj c w -> (forall a w1, keeps proj (k a) w1) -> keeps proj (bind c k) w.
Proof.
  unfold keeps, bind. intros Hc Hk. destruct (c w) as [[a|] w1]; simpl in *.
  - by rewrite Hk.
  - done.
Qed.

Lemma upsert_standings_events b db db' :
  upsert_standings b db = Some db' -> events db' = events db.
Proof.
  unfold upsert_standings. destruct (insert_on_conflict_do_update _ _ _ _ _); [|done].
  simpl. by intros [= <-].
Qed.
Lemma upsert_matches_events b db db' :
  upsert_matches b db = Some db' -> events db' = events db.
Proof.
  unfold upsert_matches. destruct (insert_on_conflict_do_update _ _ _ _ _); [|done].
  simpl. by intros [= <-].
Qed.
Lemma upsert_decks_events b db db' :
  upsert_decks b db = Some db' -> events db' = events db.
Proof.
  unfold upsert_decks. destruct (insert_on_conflict_do_update _ _ _ _ _); [|done].
  simpl. by intros [= <-].
Qed.
Lemma upsert_archetypes_events b db db' :
  upsert_archetypes b db = Some db' -> events db' = events db.
Proof.
  unfold upsert_archetypes. destruct (insert_on_conflict_do_update _ _ _ _ _); [|done].
  simpl. by intros [= <-].
Qed.

Lemma syncPlayers_keeps_events upstream eventIds w :
  keeps events (syncPlayers upstream eventIds) w.
Proof.
  unfold keeps.
  destruct (syncPlayers_frame upstream eventIds w) as (added & -> & _).
  done.
Qed.

Ltac extraction_keeps :=
  apply keeps_bind;
  [ unfold keeps; rewrite syncStandings_guarded; case_decide; [|done];
    apply guarded_write_frame; [stage_law|apply upsert_standings_events]
  | intros ? ?; apply keeps_bind;
    [ unfold keeps; rewrite syncMatches_guarded; case_decide; [|done];
      apply guarded_write_frame; [stage_law|apply upsert_matches_events]
    | intros ? ?; apply keeps_bind;
      [ unfold keeps; rewrite syncDecks_guarded; case_decide; [|done];
        apply guarded_write_frame; [stage_law|apply upsert_decks_events]
      | intros ? ?; apply keeps_bind;
        [ unfold keeps; rewrite syncArchetypes_guarded; case_decide; [|done];
          apply guarded_write_frame; [stage_law|apply upsert_archetypes_events]
        | intros; apply keeps_ret ] ] ] ].

(** The Events stage is the only one that touches the events table, and
    all it does is append the new events. *)
Lemma sync_events upstream w :
  let newEvents := upstreamEvents upstream (getLocalEventIds (target w)) in
  events (target (sync upstream w).2) = events (target w)
  \/ events (target (sync upstream w).2) = events (target w) ++ newEvents.
Proof.
  intros new. remember (sync upstream w).2 as w' eqn:Hw'.
  rewrite sync_unfold in Hw'. case_decide; [|subst w'; by left].
  cbv zeta in Hw'. fold new in Hw'.
  set (E := allEventIdsToSync upstream (target w)) in Hw'.
  case_decide; [subst w'; by left|].
  unfold bind at 1 in Hw'.
  pose proof (syncPlayers_keeps_events upstream E w) as H1. unfold keeps in H1.
  destruct (syncPlayers upstream E w) as [[n1|] w1]; simpl in H1;
    [|subst w'; by left].
  unfold bind at 1 in Hw'. case_decide as Hlen.
  - rewrite syncEvents_run in Hw'.
    rewrite decide_False in Hw' by (intros Hnil; rewrite Hnil in Hlen; simpl in Hlen; lia).
    case_decide; [|subst w'; by left].
    destruct (upsert_events new (target w1)) as [db2|] eqn:Hup;
      [|subst w'; by left].
    apply upsert_events_Some in Hup as [Hnd ->].
    match type of Hw' with
    | _ = (?c ?w2).2 => assert (Hk : keeps events c w2) by extraction_keeps
    end.
    unfold keeps in Hk. rewrite <- Hw' in Hk. rewrite Hk. simpl. right.
    rewrite H1.
    apply (upsert_all_fresh e_id event_excluded event_excluded_key); [done|].
    intros e He. apply upstreamEvents_elem_of in He as [_ He].
    by rewrite getLocalEventIds_elem_of in He.
  - unfold ret at 1 in Hw'.
    match type of Hw' with
    | _ = (?c ?w2).2 => assert (Hk : keeps events c w2) by extraction_keeps
    end.
    unfold keeps in Hk. rewrite <- Hw' in Hk. rewrite Hk. by left.
Qed.

(** A run that returned has appended the new events to the events
    table. *)
Lemma sync_Returned_events upstream w s w' :
  sync upstream w = (Returned s, w') ->
  events (target w')
  = events (target w) ++ upstreamEvents upstream (getLocalEventIds (target w)).
Proof.
  intros Hrun. apply sync_Returned in Hrun as (-> & _ & _ & Hnd & _). simpl.
  apply (upsert_all_fresh e_id event_excluded event_excluded_key); [done|].
  intros e He. apply upstreamEvents_elem_of in He as [_ He].
  by rewrite getLocalEventIds_elem_of in He.
Qed.

(** C5.  The pipeline.  A run whose opening query is sent and whose
    worklist is not empty is the six stages Players, Events, Standings,
    Matches, Decks, Archetypes, run in this order, each from the world
    that the stage before it left when it returned: the run returns when
    all six return, with their counts in its summary, and it throws with
    the first stage that throws, in the world that stage left, no later
    stage being run.  With an empty worklist no stage is run, and a run
    whose opening query is not sent throws at once.  The statements a run
    journals are in the order of the stages, every statement of a stage
    before any statement of the next.  Each stage returns a zero count
    and leaves the world as it is when it is given no identifiers.  The
    Events stage is given the new events only: the events table after a
    run that returned is the table before it followed by the new events,
    none of which was on the target, and whether the run returns or
    throws, every event row already there keeps its place and its
    columns. *)
Theorem pipeline_order (upstream : Upstream) (w : World) :
  let newEvents := upstreamEvents upstream (getLocalEventIds (target w)) in
  let incompleteEventIds := getIncompleteEventIds (target w) in
  let allEventIds := allEventIdsToSync upstream (target w) in
  let w' := (sync upstream w).2 in
  (size (getLocalEventIds (target w)) < PARAMETER_LIMIT -> allEventIds <> [] ->
   sync upstream w
   = match in_order (pipeline upstream newEvents allEventIds) w with
     | (Returned [n_players; n_events; n_standings; n_matches; n_decks;
                  n_archetypes], w6) =>
         (Returned
            (mkSummary (length newEvents) (length incompleteEventIds)
               (length allEventIds)
               (mkStats n_events n_players n_matches n_decks n_standings
                  n_archetypes)), w6)
     | (_, wk) => (Thrown, wk)
     end)
  /\ (size (getLocalEventIds (target w)) < PARAMETER_LIMIT -> allEventIds = [] ->
      sync upstream w = (Returned (mkSummary 0 0 0 no_stats), w))
  /\ (~ size (getLocalEventIds (target w)) < PARAMETER_LIMIT ->
      sync upstream w = (Thrown, w))
  /\ (exists j', journal w' = journal w ++ j' /\ StronglySorted stage_le j'.*1)
  /\ syncPlayers upstream [] w = (Returned 0, w)
  /\ syncEvents [] w = (Returned 0, w)
  /\ syncStandings upstream [] w = (Returned 0, w)
  /\ syncMatches upstream [] w = (Returned 0, w)
  /\ syncDecks upstream [] w = (Returned 0, w)
  /\ syncArchetypes upstream [] w = (Returned 0, w)
  /\ (forall s, sync upstream w = (Returned s, w') ->
        events (target w') = events (target w) ++ newEvents)
  /\ (events (target w') = events (target w)
      \/ events (target w') = events (target w) ++ newEvents)
  /\ (forall e, e ∈ newEvents -> e_id e ∉ e_id <$> events (target w))
  /\ (forall i e, events (target w) !! i = Some e ->
                  events (target w') !! i = Some e).
Proof.
  intros new incomplete E w'.
  pose proof (sync_events upstream w) as Hev. cbv zeta in Hev.
  fold w' in Hev. fold new in Hev.
  split_and!; try done.
  - intros Hsize HE. rewrite sync_unfold, decide_True by done. cbv zeta.
    fold new. fold incomplete. fold E.
    rewrite decide_False by (by destruct E).
    unfold pipeline, in_order, bind, ret.
    destruct (syncPlayers upstream E w) as [[n1|] w1]; [|done].
    destruct ((if decide (0 < length new) then syncEvents new else _) w1)
      as [[n2|] w2]; [|done].
    destruct (syncStandings upstream E w2) as [[n3|] w3]; [|done].
    destruct (syncMatches upstream E w3) as [[n4|] w4]; [|done].
    destruct (syncDecks upstream E w4) as [[n5|] w5]; [|done].
    destruct (syncArchetypes upstream E w5) as [[n6|] w6]; done.
  - intros Hsize HE. rewrite sync_unfold, decide_True by done. cbv zeta.
    fold E. by rewrite HE.
  - intros Hsize. by rewrite sync_unfold, decide_False by done.
  - destruct (sync_emits upstream w) as (j' & ? & ? & _). by exists j'.
  - intros s Hrun. unfold w'. rewrite Hrun. simpl. by eapply sync_Returned_events.
  - intros e He. apply upstreamEvents_elem_of in He as [_ He].
    by rewrite getLocalEventIds_elem_of in He.
  - intros i e Hi. destruct Hev as [->| ->]; [done|].
    by apply lookup_app_l_Some.
Qed.

End Order.

(** * The merge from a snapshot *)

Section ForOfFacts.
Context {Row : Type}.
Variable stage : Stage.
Variable statement : list Row -> Database -> option Database.

(** The guarded loop attempts every row, in order, and never throws. *)
Lemma for_each_try_run rows count w :
  for_each_try stage statement rows count w
  = (Returned (foldl (try_insert statement) (target w, count) rows).2,
     mkWorld (foldl (try_insert statement) (target w, count) rows).1
             (journal w ++ ((fun _ => (stage, 1)) <$> rows))).
Proof.
  revert count w. induction rows as [|row rows IH]; intros count w; simpl.
  - unfold ret. rewrite app_nil_r. by destruct w.
  - unfold bind, try_catch, exec, ret, try_insert at 2 4. simpl.
    destruct (statement [row] (target w)) as [db|]; simpl;
      rewrite IH; simpl; by rewrite <- app_assoc.
Qed.

(** The unguarded loop stops at the first rejected row. *)
Lemma for_each_Thrown rows1 row rows2 count w :
  (foldl (try_insert statement) (target w, count) rows1).2 = count + length rows1 ->
  statement [row] (foldl (try_insert statement) (target w, count) rows1).1 = None ->
  (for_each stage statement (rows1 ++ row :: rows2) count w).1 = Thrown.
Proof.
  revert count w. induction rows1 as [|r rows1 IH]; intros count w; simpl.
  - intros _ Hrow. unfold bind, exec. by rewrite Hrow.
  - unfold try_insert at 2 4. simpl. unfold bind, exec.
    destruct (statement [r] (target w)) as [db|] eqn:Hr; simpl; [|done].
    intros Hcount Hrow. apply IH; simpl; [|done]. rewrite Hcount. lia.
Qed.

Lemma try_insert_count rows db count :
  (foldl (try_insert statement) (db, count) rows).2 <= count + length rows.
Proof.
  revert db count. induction rows as [|r rows IH]; intros db count; simpl; [lia|].
  unfold try_insert at 2. simpl. destruct (statement [r] db) as [db'|].
  - specialize (IH db' (count + 1)). lia.
  - specialize (IH db count). lia.
Qed.
End ForOfFacts.

(** A single-row [DO NOTHING] insert: the row is dropped when its key is
    taken, appended when it is admissible, rejected otherwise. *)
Lemma do_nothing_single {Row Key} `{EqDecision Key} (key : Row -> Key)
    (constraint : list Row -> Row -> bool) (t : list Row) (r : Row) :
  insert_on_conflict_do_nothing key constraint t [r]
  = if decide (key r ∈ key <$> t) then Some t
    else if constraint t r then Some (t ++ [r]) else None.
Proof. simpl. case_decide; [done|]. by destruct (constraint t r). Qed.

Section MergeWritten.
Context {Row Key : Type} `{EqDecision Key}.
Variable key : Row -> Key.
Variable fk : Database -> Row -> bool.
Variable table : Database -> list Row.
Variable with_table : list Row -> Database -> Database.
Variable statement : list Row -> Database -> option Database.

Hypothesis statement_eq : forall batch db,
  statement batch db =
  (t ← insert_on_conflict_do_nothing key (fun _ r => fk db r) (table db) batch;
   Some (with_table t db)).
Hypothesis table_with : forall t db, table (with_table t db) = t.
Hypothesis with_with : forall t t' db,
  with_table t (with_table t' db) = with_table t db.
Hypothesis with_same : forall db, with_table (table db) db = db.
Hypothesis fk_with : forall t db, fk (with_table t db) = fk db.

(** Whatever a guarded loop of the merge writes goes behind the existing
    rows, comes from the rows it was given, was not on the target under
    its key, and satisfies the references of the target. *)
Lemma merge_written rows db count :
  let st := foldl (try_insert statement) (db, count) rows in
  exists added,
    st.1 = with_table (table db ++ added) db
    /\ added `sublist_of` rows
    /\ (forall r, r ∈ added -> fk db r = true).
Proof.
  revert db count. induction rows as [|r rows IH]; intros db count; simpl.
  - exists []. rewrite app_nil_r, with_same. split_and!; [done|done|].
    intros r Hr. by apply elem_of_nil in Hr.
  - unfold try_insert at 2. simpl. rewrite statement_eq, do_nothing_single.
    case_decide as Hkey; simpl.
    + rewrite with_same.
      destruct (IH db (count + 1)) as (added & Hst & Hsub & Hfk).
      exists added. split_and!; [done|by apply sublist_cons|done].
    + destruct (fk db r) eqn:Hr; simpl.
      * destruct (IH (with_table (table db ++ [r]) db) (count + 1))
          as (added & Hst & Hsub & Hfk).
        exists (r :: added). rewrite Hst, table_with, with_with, <- app_assoc.
        split_and!; [done|by apply sublist_skip|].
        intros r' Hr'. apply elem_of_cons in Hr' as [->|Hr']; [done|].
        apply Hfk in Hr'. by rewrite fk_with in Hr'.
      * destruct (IH db count) as (added & Hst & Hsub & Hfk).
        exists added. split_and!; [done|by apply sublist_cons|done].
Qed.
End MergeWritten.

Lemma merge_decks_written rows db count :
  exists added,
    (foldl (try_insert merge_insert_deck) (db, count) rows).1
    = with_decks (decks db ++ added) db
    /\ added `sublist_of` rows
    /\ (forall r, r ∈ added -> deck_fk db r = true).
Proof.
  apply (merge_written d_id deck_fk decks with_decks); try done; by intros [].
Qed.

Lemma merge_matches_written rows db count :
  exists added,
    (foldl (try_insert merge_insert_match) (db, count) rows).1
    = with_matches (matches db ++ added) db
    /\ added `sublist_of` rows
    /\ (forall r, r ∈ added -> match_fk db r = true).
Proof.
  apply (merge_written match_key match_fk matches with_matches); try done;
    by intros [].
Qed.

Lemma merge_standings_written rows db count :
  exists added,
    (foldl (try_insert merge_insert_standing) (db, count) rows).1
    = with_standings (standings db ++ added) db
    /\ added `sublist_of` rows
    /\ (forall r, r ∈ added -> standing_fk db r = true).
Proof.
  apply (merge_written standing_key standing_fk standings with_standings);
    try done; by intros [].
Qed.

Lemma fk_true db (event_id : Z) (player : string) :
  references_event db event_id && references_player db player = true <->
  event_id ∈ e_id <$> events db /\ player ∈ p_name <$> players db.
Proof.
  unfold references_event, references_player.
  by rewrite andb_true_iff, !bool_decide_eq_true.
Qed.

(** C8 (as amended).  The dependent categories of the merge.  The
    matches and standings selected from the snapshot are exactly the
    snapshot rows whose key is not on the target and whose player and
    event are on the target; the decks selected are the snapshot rows
    whose id is not on the target and whose player is on the target,
    whatever their event; each guarded loop returns, and what it has
    written is a part of its selection that went behind the existing rows
    and references an event and a player of the target, so that a row
    left out by the selection, or selected but rejected by the target, is
    skipped without failing the run. *)
Theorem merge_selection (snapshot : Database) (w : World) :
  let db := target w in
  (forall m, m ∈ newMatches snapshot db <->
     m ∈ matches snapshot /\ match_key m ∉ match_key <$> matches db
     /\ m_player m ∈ p_name <$> players db /\ m_event_id m ∈ e_id <$> events db)
  /\ (forall s, s ∈ newStandings snapshot db <->
     s ∈ standings snapshot /\ standing_key s ∉ standing_key <$> standings db
     /\ s_player s ∈ p_name <$> players db /\ s_event_id s ∈ e_id <$> events db)
  /\ (forall d, d ∈ newDecks snapshot db <->
     d ∈ decks snapshot /\ d_id d ∉ d_id <$> decks db
     /\ d_player d ∈ p_name <$> players db)
  /\ (exists n w' added,
        for_each_try Decks merge_insert_deck (newDecks snapshot db) 0 w
        = (Returned n, w')
        /\ target w' = with_decks (decks db ++ added) db
        /\ added `sublist_of` newDecks snapshot db
        /\ forall d, d ∈ added ->
             d_event_id d ∈ e_id <$> events db /\ d_player d ∈ p_name <$> players db)
  /\ (exists n w' added,
        for_each_try Matches merge_insert_match (newMatches snapshot db) 0 w
        = (Returned n, w')
        /\ target w' = with_matches (matches db ++ added) db
        /\ added `sublist_of` newMatches snapshot db
        /\ forall m, m ∈ added ->
             m_event_id m ∈ e_id <$> events db /\ m_player m ∈ p_name <$> players db)
  /\ (exists n w' added,
        for_each_try Standings merge_insert_standing (newStandings snapshot db) 0 w
        = (Returned n, w')
        /\ target w' = with_standings (standings db ++ added) db
        /\ added `sublist_of` newStandings snapshot db
        /\ forall s, s ∈ added ->
             s_event_id s ∈ e_id <$> events db /\ s_player s ∈ p_name <$> players db).
Proof.
  intros db. split_and!.
  - intros m. unfold newMatches. rewrite list_elem_of_filter. tauto.
  - intros s. unfold newStandings. rewrite list_elem_of_filter. tauto.
  - intros d. unfold newDecks. rewrite list_elem_of_filter. tauto.
  - destruct (merge_decks_written (newDecks snapshot db) db 0)
      as (added & Hst & Hsub & Hfk).
    eexists _, _, added. rewrite for_each_try_run. split_and!; [done|done|done|].
    intros d Hd. by apply fk_true, Hfk.
  - destruct (merge_matches_written (newMatches snapshot db) db 0)
      as (added & Hst & Hsub & Hfk).
    eexists _, _, added. rewrite for_each_try_run. split_and!; [done|done|done|].
    intros d Hd. by apply fk_true, Hfk.
  - destruct (merge_standings_written (newStandings snapshot db) db 0)
      as (added & Hst & Hsub & Hfk).
    eexists _, _, added. rewrite for_each_try_run. split_and!; [done|done|done|].
    intros d Hd. by apply fk_true, Hfk.
Qed.

(** C9 (as amended).  What happens to a rejected write.  In the merge,
    the guarded loop attempts every row in order and always returns; a
    row whose statement the target rejects leaves the target and the
    count as they were, a row whose statement is accepted advances the
    count by one, and the count returned is the count of accepted
    statements (no count of skipped rows is kept).  In the sync, the
    batch loop does not skip: at the first batch the target rejects it
    throws, with the batches before it written and none after it
    issued. *)
Theorem constraint_violation_handling {Row : Type} (stage : Stage)
    (statement : list Row -> Database -> option Database) :
  (forall rows count w,
     for_each_try stage statement rows count w
     = (Returned (foldl (try_insert statement) (target w, count) rows).2,
        mkWorld (foldl (try_insert statement) (target w, count) rows).1
                (journal w ++ ((fun _ => (stage, 1)) <$> rows))))
  /\ (forall row st, statement [row] st.1 = None ->
        try_insert statement st row = st)
  /\ (forall row st db, statement [row] st.1 = Some db ->
        try_insert statement st row = (db, st.2 + 1))
  /\ (forall B rows w bs1 b bs2 w1,
        0 < B ->
        batches B (length rows) 0 rows = bs1 ++ b :: bs2 ->
        exec_each stage statement bs1 w = (Returned (), w1) ->
        statement b (target w1) = None ->
        write_batches stage statement B rows w
        = (Thrown, mkWorld (target w1) (journal w1 ++ [(stage, length b)]))).
Proof.
  split_and!.
  - apply for_each_try_run.
  - intros row st Hrow. unfold try_insert. by rewrite Hrow.
  - intros row st db Hrow. unfold try_insert. by rewrite Hrow.
  - intros B rows w bs1 b bs2 w1. apply write_batches_Thrown.
Qed.

(** * Idempotence of the writes *)

(** What a successful run of a category's batch loop leaves behind. *)
Lemma write_Returned (c : Category) (rows : list (row c)) (w w1 : World) (n : nat) :
  c ∈ categories ->
  write c rows w = (Returned n, w1) ->
  exists (upd : row c -> row c -> row c) (fk : Database -> row c -> bool)
         (with_table : list (row c) -> Database -> Database),
    (forall x r, unique_key c x = unique_key c r -> upd x r = r)
    /\ (forall t db, table_of c (with_table t db) = t)
    /\ (forall t t' db, with_table t (with_table t' db) = with_table t db)
    /\ n = length rows
    /\ Forall (accepted (unique_key c) fk (target w))
              (batches (BATCH_SIZE c) (length rows) 0 rows)
    /\ target w1
       = with_table (@upsert_all _ _ (key_eq_dec c) (unique_key c) upd
                       (table_of c (target w)) rows) (target w)
    /\ (forall w', Forall (accepted (unique_key c) fk (target w'))
                          (batches (BATCH_SIZE c) (length rows) 0 rows) ->
          exists j, write c rows w'
            = (Returned n,
               mkWorld (with_table (@upsert_all _ _ (key_eq_dec c) (unique_key c) upd
                                      (table_of c (target w')) rows) (target w')) j))
    /\ (forall t db b, accepted (unique_key c) fk (with_table t db) b
                       <-> accepted (unique_key c) fk db b).
Proof.
  intros Hc Hrun.
  destruct (categories_laws c Hc)
    as (upd & fk & with_table & Hupd & Hstmt & Htw & Hww & Hws & Hfk).
  destruct (categories_batch_sizes c Hc) as [HB _].
  exists upd, fk, with_table.
  assert (Hw : forall w',
    Forall (accepted (unique_key c) fk (target w'))
           (batches (BATCH_SIZE c) (length rows) 0 rows) ->
    write c rows w'
    = (Returned (length rows),
       mkWorld (with_table (@upsert_all _ _ (key_eq_dec c) (unique_key c) upd
                              (table_of c (target w')) rows) (target w'))
               (journal w' ++ ((fun b => (stage_of c, length b))
                                 <$> batches (BATCH_SIZE c) (length rows) 0 rows)))).
  { intros w' Hacc. unfold write. rewrite write_batches_exec_each by done.
    rewrite (exec_each_accepted _ upd fk _ with_table _ _ Hstmt Htw Hww Hws Hfk)
      by done.
    rewrite batches_concat by lia. done. }
  unfold write in Hrun. rewrite write_batches_exec_each in Hrun by done.
  destruct (exec_each _ _ _ w) as [[u|] w2] eqn:Hex; [|done].
  assert (Hacc := exec_each_Returned _ upd fk _ with_table _ _ Hstmt Hfk _ _ _ _ Hex).
  generalize (Hw w Hacc). unfold write. rewrite write_batches_exec_each by done.
  rewrite Hex. intros Heq. injection Hrun as <- <-. injection Heq as ->.
  split_and!; try done.
  - intros w' Hacc'. eexists. by apply Hw.
  - intros t db b. unfold accepted. by rewrite Hfk.
Qed.

(** ** The two single statements *)

Lemma do_nothing_skip_all {Row Key} `{EqDecision Key} (key : Row -> Key)
    (constraint : list Row -> Row -> bool) (t batch : list Row) :
  (forall r, r ∈ batch -> key r ∈ key <$> t) ->
  insert_on_conflict_do_nothing key constraint t batch = Some t.
Proof.
  induction batch as [|r batch IH]; intros Hin; simpl; [done|].
  rewrite decide_True by (apply Hin; set_solver).
  apply IH. intros r' Hr'. apply Hin. set_solver.
Qed.

Lemma do_nothing_keys {Row Key} `{EqDecision Key} (key : Row -> Key)
    (constraint : list Row -> Row -> bool) (t batch t' : list Row) r :
  insert_on_conflict_do_nothing key constraint t batch = Some t' ->
  r ∈ batch -> key r ∈ key <$> t'.
Proof.
  revert t. induction batch as [|r' batch IH]; intros t; simpl.
  - intros _ Hr. by apply elem_of_nil in Hr.
  - intros Hins Hr.
    assert (Hmono : forall u, insert_on_conflict_do_nothing key constraint u batch
                              = Some t' -> forall k, k ∈ key <$> u -> k ∈ key <$> t').
    { intros u Hu k Hk. apply do_nothing_Some in Hu as (added & -> & _).
      rewrite fmap_app, elem_of_app. by left. }
    case_decide as Hk.
    + apply elem_of_cons in Hr as [->|Hr]; [by eapply Hmono|by eapply IH].
    + destruct (constraint t r'); [|done].
      apply elem_of_cons in Hr as [->|Hr]; [|by eapply IH].
      eapply Hmono; [done|]. rewrite fmap_app, elem_of_app. right. set_solver.
Qed.

Lemma insert_players_again batch db db1 :
  insert_players batch db = Some db1 -> insert_players batch db1 = Some db1.
Proof.
  intros Hacc. apply insert_players_Some in Hacc as (Hrange & t' & Hins & ->).
  unfold insert_players. rewrite Hrange. simpl.
  rewrite do_nothing_skip_all; [done|].
  intros r Hr. by eapply do_nothing_keys.
Qed.

Lemma upsert_events_accepted batch db :
  NoDup (e_id <$> batch) ->
  upsert_events batch db
  = Some (with_events (upsert_all e_id event_excluded (events db) batch) db).
Proof.
  intros Hnd. unfold upsert_events, insert_on_conflict_do_update.
  rewrite decide_True by done.
  assert (forallb (fun _ : EventRecord => true) batch = true) as ->; [|done].
  clear. induction batch as [|e l IH]; [done|]. simpl. exact IH.
Qed.

Lemma syncEvents_again newEvents w n w1 :
  syncEvents newEvents w = (Returned n, w1) ->
  exists j, syncEvents newEvents w1 = (Returned n, mkWorld (target w1) j).
Proof.
  intros Hrun. pose proof Hrun as (-> & Hnd & Hw1)%syncEvents_Returned.
  assert (Hlimit : newEvents <> [] -> 7 * length newEvents < PARAMETER_LIMIT).
  { intros Hne. rewrite syncEvents_run in Hrun.
    rewrite decide_False in Hrun by done. by case_decide. }
  rewrite syncEvents_run. case_decide as Hnil.
  - subst. exists (journal w1). by destruct w1.
  - rewrite decide_True by (by apply Hlimit).
    rewrite upsert_events_accepted by done. eexists. f_equal. f_equal.
    rewrite Hw1. cbn [events with_events].
    rewrite (upsert_all_idemp e_id event_excluded event_excluded_key).
    by destruct (target w).
Qed.

(** C3.  Exact idempotence of the writes.  For every category of the
    batch loop, when writing a record set succeeds, the target's table
    has no two rows with the same unique key if it had none before, every
    written record's key is in the table, every record of a record set
    with distinct keys is found under its key with exactly its column
    values (whatever surrogate id the row it replaced carried), and
    writing the same record set again succeeds and leaves the target as
    it is.  The same holds of the single upsert of the Events stage and
    of the conflict-free insert of the Players stage: applied a second
    time, they leave the target as it is. *)
Theorem upsert_twice :
  (forall (c : Category) (rows : list (row c)) (w w1 : World) (n : nat),
     c ∈ categories ->
     write c rows w = (Returned n, w1) ->
     (NoDup (unique_key c <$> table_of c (target w)) ->
      NoDup (unique_key c <$> table_of c (target w1)))
     /\ (forall r, r ∈ rows ->
           unique_key c r ∈ unique_key c <$> table_of c (target w1))
     /\ (NoDup (unique_key c <$> rows) ->
         forall r, r ∈ rows -> present (unique_key c) (table_of c (target w1)) r)
     /\ exists j, write c rows w1 = (Returned n, mkWorld (target w1) j))
  /\ (forall (newEvents : list EventRecord) (w w1 : World) (n : nat),
        syncEvents newEvents w = (Returned n, w1) ->
        (NoDup (e_id <$> events (target w)) -> NoDup (e_id <$> events (target w1)))
        /\ (forall e, e ∈ newEvents -> present e_id (events (target w1)) e)
        /\ exists j, syncEvents newEvents w1 = (Returned n, mkWorld (target w1) j))
  /\ (forall (batch : list Player) (db db1 : Database),
        insert_players batch db = Some db1 ->
        (NoDup (p_name <$> players db) -> NoDup (p_name <$> players db1))
        /\ (NoDup (p_id <$> players db) -> NoDup (p_id <$> players db1))
        /\ insert_players batch db1 = Some db1).
Proof.
  split_and!.
  - intros c rows w w1 n Hc Hrun.
    destruct (write_Returned c rows w w1 n Hc Hrun)
      as (upd & fk & with_table & Hupd & Htw & Hww & -> & Hacc & Hw1 & Hagain & Hfk).
    rewrite Hw1, Htw. split_and!.
    + by apply upsert_all_NoDup.
    + intros r Hr. by apply upsert_all_keys_in.
    + intros Hnd r Hr. by apply present_upsert_all.
    + destruct (Hagain w1) as [j Hj].
      * eapply Forall_impl; [exact Hacc|]. intros b Hb. rewrite Hw1. by apply Hfk.
      * exists j. rewrite Hj. rewrite Hw1, Htw, Hww.
        by rewrite upsert_all_idemp.
  - intros newEvents w w1 n Hrun.
    pose proof Hrun as (-> & Hnd & Hw1)%syncEvents_Returned.
    split_and!; [| |by eapply syncEvents_again].
    + rewrite Hw1. simpl.
      apply (upsert_all_NoDup e_id event_excluded event_excluded_key).
    + intros e He. rewrite Hw1. simpl.
      by apply (present_upsert_all e_id event_excluded event_excluded_key).
  - intros batch db db1 Hins. split_and!; [| |by eapply insert_players_again].
    + apply insert_players_Some in Hins as (_ & t' & Hdo & ->). simpl.
      by apply do_nothing_Some in Hdo as (_ & _ & _ & _ & Hnd).
    + apply insert_players_Some in Hins as (_ & t' & Hdo & ->). simpl.
      exact (insert_players_ids _ _ _ Hdo).
Qed.

(** * Further properties of the upstream sync *)

Section SyncFacts.
Context `{platform : Platform}.

(** ** A relation that every statement respects holds of every run *)

Section Evolves.
Variable R : relation Database.
Context `{!PreOrder R}.

Lemma evolves_ret {A} (a : A) w : evolves R (ret a) w.
Proof. unfold evolves. simpl. reflexivity. Qed.

Lemma evolves_query {A} (q : Database -> A) w : evolves R (query q) w.
Proof. unfold evolves. simpl. reflexivity. Qed.

Lemma evolves_throw {A} w : evolves R (@throw A) w.
Proof. unfold evolves. simpl. reflexivity. Qed.

Lemma evolves_bound {A} parameters (c : M A) w :
  evolves R c w -> evolves R (bound parameters c) w.
Proof. intros Hc. unfold bound. case_decide; [done|apply evolves_throw]. Qed.

Lemma evolves_spread {A} arguments (c : M A) w :
  evolves R c w -> evolves R (spread arguments c) w.
Proof. intros Hc. unfold spread. case_decide; [done|apply evolves_throw]. Qed.

Lemma evolves_bind {A B} (c : M A) (k : A -> M B) w :
  evolves R c w -> (forall a w1, evolves R (k a) w1) -> evolves R (bind c k) w.
Proof.
  unfold evolves, bind. intros Hc Hk.
  destruct (c w) as [[a|] w1]; simpl in *; [|done].
  etrans; [exact Hc|apply Hk].
Qed.

Lemma evolves_try_catch {A} (body handler : M A) w :
  evolves R body w -> (forall w1, evolves R handler w1) ->
  evolves R (try_catch body handler) w.
Proof.
  unfold evolves, try_catch. intros Hb Hh.
  destruct (body w) as [[a|] w1]; simpl in *; [done|].
  etrans; [exact Hb|apply Hh].
Qed.

Section Statement.
Context {Row : Type}.
Variable stage : Stage.
Variable statement : list Row -> Database -> option Database.
Hypothesis statement_respects : respects R statement.

Lemma evolves_exec batch w : evolves R (exec stage statement batch) w.
Proof.
  unfold evolves, exec.
  destruct (statement batch (target w)) as [db|] eqn:Hs; simpl; [|reflexivity].
  by eapply statement_respects.
Qed.

Lemma evolves_for_batches B fuel i n rows w :
  evolves R (for_batches stage statement B fuel i n rows) w.
Proof.
  revert i n w. induction fuel as [|fuel IH]; intros i n w; simpl.
  - apply evolves_ret.
  - case_decide; [|apply evolves_ret].
    apply evolves_bind; [apply evolves_exec|]. intros _ w1. apply IH.
Qed.

Lemma evolves_guarded_write B rows w :
  evolves R (guarded_write stage statement B rows) w.
Proof.
  unfold guarded_write. case_decide; [apply evolves_ret|].
  apply evolves_bind; [apply evolves_for_batches|]. intros _ w1. apply evolves_ret.
Qed.

Lemma evolves_for_each rows count w :
  evolves R (for_each stage statement rows count) w.
Proof.
  revert count w. induction rows as [|r rows IH]; intros count w; simpl.
  - apply evolves_ret.
  - apply evolves_bind; [apply evolves_exec|]. intros _ w1. apply IH.
Qed.

Lemma evolves_for_each_try rows count w :
  evolves R (for_each_try stage statement rows count) w.
Proof.
  revert count w. induction rows as [|r rows IH]; intros count w; simpl.
  - apply evolves_ret.
  - apply evolves_bind; [|intros c w1; apply IH].
    apply evolves_try_catch; [|intros w1; apply evolves_ret].
    apply evolves_bind; [apply evolves_exec|]. intros _ w1. apply evolves_ret.
Qed.
End Statement.

Lemma syncPlayers_evolves upstream eventIds w :
  respects R insert_players -> evolves R (syncPlayers upstream eventIds) w.
Proof.
  intros HP. unfold syncPlayers.
  case_decide; [apply evolves_ret|].
  apply evolves_bind; [apply evolves_bound, evolves_ret|]. intros playerNames w1.
  case_decide; [apply evolves_ret|].
  apply evolves_bind; [apply evolves_bound, evolves_ret|]. intros upstreamRows w2.
  apply evolves_bind; [apply evolves_query|]. intros localPlayers w3.
  apply evolves_bind; [apply evolves_spread, evolves_ret|]. intros lowest w4.
  apply evolves_bind; [|intros _ w5; apply evolves_ret].
  case_decide; [by apply evolves_bound, evolves_exec|apply evolves_ret].
Qed.

Lemma syncEvents_evolves newEvents w :
  respects R upsert_events -> evolves R (syncEvents newEvents) w.
Proof.
  intros HE. unfold syncEvents. case_decide; [apply evolves_ret|].
  apply evolves_bind; [by apply evolves_bound, evolves_exec|].
  intros _ w1. apply evolves_ret.
Qed.

(** Whatever the six statements of the sync respect, every run respects,
    however far it gets. *)
Lemma sync_evolves upstream w :
  respects R insert_players -> respects R upsert_events ->
  respects R upsert_standings -> respects R upsert_matches ->
  respects R upsert_decks -> respects R upsert_archetypes ->
  evolves R (sync upstream) w.
Proof.
  intros HP HE HS HM HD HA. unfold sync.
  apply evolves_bind; [apply evolves_query|]. intros localEventIds w1.
  apply evolves_bind; [apply evolves_query|]. intros incompleteEventIds w2.
  apply evolves_bind.
  { unfold getUpstreamEvents.
    case_decide; [apply evolves_ret|apply evolves_bound, evolves_ret]. }
  intros newEvents w2'.
  case_decide; [apply evolves_ret|].
  apply evolves_bind; [by apply syncPlayers_evolves|]. intros n1 w3.
  apply evolves_bind.
  { case_decide; [by apply syncEvents_evolves|apply evolves_ret]. }
  intros n2 w4.
  apply evolves_bind.
  { unfold evolves. rewrite syncStandings_guarded.
    case_decide; [by apply evolves_guarded_write|reflexivity]. }
  intros n3 w5.
  apply evolves_bind.
  { unfold evolves. rewrite syncMatches_guarded.
    case_decide; [by apply evolves_guarded_write|reflexivity]. }
  intros n4 w6.
  apply evolves_bind.
  { unfold evolves. rewrite syncDecks_guarded.
    case_decide; [by apply evolves_guarded_write|reflexivity]. }
  intros n5 w7.
  apply evolves_bind.
  { unfold evolves. rewrite syncArchetypes_guarded.
    case_decide; [by apply evolves_guarded_write|reflexivity]. }
  intros n6 w8. apply evolves_ret.
Qed.

(** The same for the six single-row statements of the merge. *)
Lemma mergeDatabases_evolves snapshot w :
  respects R merge_insert_player -> respects R merge_insert_event ->
  respects R merge_insert_deck -> respects R merge_insert_match ->
  respects R merge_insert_standing -> respects R merge_insert_archetype ->
  evolves R (mergeDatabases snapshot) w.
Proof.
  intros HP HE HD HM HS HA. unfold mergeDatabases.
  apply evolves_bind; [apply evolves_query|]. intros rows1 w1.
  apply evolves_bind; [by apply evolves_for_each|]. intros n1 w2.
  apply evolves_bind; [apply evolves_query|]. intros rows2 w3.
  apply evolves_bind; [by apply evolves_for_each|]. intros n2 w4.
  apply evolves_bind; [apply evolves_query|]. intros rows3 w5.
  apply evolves_bind; [by apply evolves_for_each_try|]. intros n3 w6.
  apply evolves_bind; [apply evolves_query|]. intros rows4 w7.
  apply evolves_bind; [by apply evolves_for_each_try|]. intros n4 w8.
  apply evolves_bind; [apply evolves_query|]. intros rows5 w9.
  apply evolves_bind; [by apply evolves_for_each_try|]. intros n5 w10.
  apply evolves_bind; [apply evolves_query|]. intros rows6 w11.
  apply evolves_bind; [by apply evolves_for_each_try|]. intros n6 w12.
  apply evolves_ret.
Qed.
End Evolves.

(** ** Nothing is deleted, moved or re-keyed *)

Section KeysPrefix.
Context {Row Key : Type} `{EqDecision Key}.
Variable key : Row -> Key.
Variable upd : Row -> Row -> Row.
Hypothesis upd_key : forall x r, key x = key r -> upd x r = r.

Lemma upsert_row_keys_prefix t r :
  (key <$> t) `prefix_of` (key <$> upsert_row key upd t r).
Proof.
  destruct (decide (key r ∈ key <$> t)) as [Hin|Hn].
  - by rewrite (upsert_row_keys key upd upd_key).
  - rewrite (upsert_row_fresh key upd) by done. rewrite fmap_app.
    by apply prefix_app_r.
Qed.

Lemma upsert_all_keys_prefix t rows :
  (key <$> t) `prefix_of` (key <$> upsert_all key upd t rows).
Proof.
  unfold upsert_all. revert t. induction rows as [|r rows IH]; intros t; simpl; [done|].
  etrans; [apply upsert_row_keys_prefix|apply IH].
Qed.
End KeysPrefix.

#[global] Instance keys_kept_preorder : PreOrder keys_kept.
Proof.
  split.
  - intros db. unfold keys_kept. split_and!; done.
  - intros a b c (?&?&?&?&?&?) (?&?&?&?&?&?).
    unfold keys_kept. split_and!; etrans; done.
Qed.

#[global] Instance appended_preorder : PreOrder appended.
Proof.
  split.
  - intros db. unfold appended. split_and!; done.
  - intros a b c (?&?&?&?&?&?) (?&?&?&?&?&?).
    unfold appended. split_and!; etrans; done.
Qed.

Lemma insert_players_keys_kept : respects keys_kept insert_players.
Proof.
  intros batch db db' Hacc.
  apply insert_players_Some in Hacc as (_ & t' & Hins & ->).
  apply do_nothing_Some in Hins as (added & -> & _).
  unfold keys_kept. simpl. split_and!; try done. by apply prefix_app_r.
Qed.

Lemma upsert_events_keys_kept : respects keys_kept upsert_events.
Proof.
  intros batch db db' Hs. apply upsert_events_Some in Hs as [_ ->].
  unfold keys_kept. simpl. split_and!; try done.
  apply (upsert_all_keys_prefix e_id event_excluded event_excluded_key).
Qed.

Lemma upsert_standings_keys_kept : respects keys_kept upsert_standings.
Proof.
  intros batch db db' Hs.
  apply (statement_Some standing_key standing_excluded standing_fk standings
           with_standings upsert_standings) in Hs as [_ ->]; [|done].
  unfold keys_kept. simpl. split_and!; try done.
  apply (upsert_all_keys_prefix standing_key standing_excluded standing_excluded_key).
Qed.

Lemma upsert_matches_keys_kept : respects keys_kept upsert_matches.
Proof.
  intros batch db db' Hs.
  apply (statement_Some match_key match_excluded match_fk matches
           with_matches upsert_matches) in Hs as [_ ->]; [|done].
  unfold keys_kept. simpl. split_and!; try done.
  apply (upsert_all_keys_prefix match_key match_excluded match_excluded_key).
Qed.

Lemma upsert_decks_keys_kept : respects keys_kept upsert_decks.
Proof.
  intros batch db db' Hs.
  apply (statement_Some d_id deck_excluded deck_fk decks
           with_decks upsert_decks) in Hs as [_ ->]; [|done].
  unfold keys_kept. simpl. split_and!; try done.
  apply (upsert_all_keys_prefix d_id deck_excluded deck_excluded_key).
Qed.

Lemma upsert_archetypes_keys_kept : respects keys_kept upsert_archetypes.
Proof.
  intros batch db db' Hs.
  apply (statement_Some a_id archetype_excluded archetype_fk archetypes
           with_archetypes upsert_archetypes) in Hs as [_ ->]; [|done].
  unfold keys_kept. simpl. split_and!; try done.
  apply (upsert_all_keys_prefix a_id archetype_excluded archetype_excluded_key).
Qed.

(** X5.  A run of the sync, however far it gets, deletes nothing, moves
    nothing and rewrites no key: the player rows the target had still
    open its players table, and in every other table the keys the target
    had, in their order, still open the table's keys. *)
Theorem sync_never_deletes (upstream : Upstream) (w : World) :
  keys_kept (target w) (target (sync upstream w).2).
Proof.
  apply (sync_evolves keys_kept upstream w).
  - apply insert_players_keys_kept.
  - apply upsert_events_keys_kept.
  - apply upsert_standings_keys_kept.
  - apply upsert_matches_keys_kept.
  - apply upsert_decks_keys_kept.
  - apply upsert_archetypes_keys_kept.
Qed.

(** ** The worklist *)

#[global] Instance event_date_desc_id_desc_total : Total event_date_desc_id_desc.
Proof. intros a b. unfold event_date_desc_id_desc. lia. Qed.

#[global] Instance event_date_desc_id_desc_trans : Transitive event_date_desc_id_desc.
Proof. intros a b c. unfold event_date_desc_id_desc. lia. Qed.

(** X1.  [getUpstreamEvents], given fewer ids to exclude than the driver
    refuses to bind, returns the upstream events whose id is not
    excluded, each as often as upstream holds it, most recent first
    (date, then id, descending), and leaves the world as it is; this
    includes the query without a [WHERE] clause that it issues for an
    empty exclusion set.  Given more ids than the driver binds, it throws
    and leaves the world as it is. *)
Theorem upstream_events_selection (upstream : Upstream) (excludeIds : gset Z)
    (w : World) :
  (size excludeIds < PARAMETER_LIMIT ->
   exists rows,
     getUpstreamEvents upstream excludeIds w = (Returned rows, w)
     /\ rows ≡ₚ filter (fun e => e_id e ∉ excludeIds) (u_events upstream)
     /\ StronglySorted event_date_desc_id_desc rows)
  /\ (PARAMETER_LIMIT < size excludeIds ->
      getUpstreamEvents upstream excludeIds w = (Thrown, w)).
Proof.
  rewrite getUpstreamEvents_run. split.
  - intros Hsize. rewrite decide_True by done. eexists. split; [done|].
    unfold upstreamEvents. split; [apply merge_sort_Permutation|].
    apply StronglySorted_merge_sort; apply _.
  - intros Hsize. rewrite decide_False by lia. done.
Qed.

(** X2.  The two halves of the worklist never overlap: the new events are
    the rows that [getUpstreamEvents] returns; a new event is an
    upstream event whose id no event of the target carries, an incomplete
    event is an event of the target, and so no id is both new and
    incomplete; the worklist is as long as the two halves together. *)
Theorem worklist_halves (upstream : Upstream) (db : Database) :
  let new := e_id <$> upstreamEvents upstream (getLocalEventIds db) in
  let incomplete := getIncompleteEventIds db in
  (forall w rows w',
     getUpstreamEvents upstream (getLocalEventIds db) w = (Returned rows, w') ->
     e_id <$> rows = new)
  /\ (forall i, i ∈ new -> i ∈ e_id <$> u_events upstream /\ i ∉ e_id <$> events db)
  /\ (forall i, i ∈ incomplete -> i ∈ e_id <$> events db)
  /\ (forall i, i ∈ new -> i ∉ incomplete)
  /\ length (allEventIdsToSync upstream db) = length new + length incomplete.
Proof.
  intros new incomplete.
  assert (Hrows : forall w rows w',
            getUpstreamEvents upstream (getLocalEventIds db) w
            = (Returned rows, w') -> e_id <$> rows = new).
  { intros w rows w'. rewrite getUpstreamEvents_run.
    case_decide; [|done]. by intros [= <- _]. }
  assert (Hnew : forall i, i ∈ new ->
            i ∈ e_id <$> u_events upstream /\ i ∉ e_id <$> events db).
  { intros i Hi. apply list_elem_of_fmap in Hi as (e & -> & He).
    apply upstreamEvents_elem_of in He as [He Hout].
    rewrite getLocalEventIds_elem_of in Hout.
    split; [by apply list_elem_of_fmap_2|done]. }
  assert (Hinc : forall i, i ∈ incomplete -> i ∈ e_id <$> events db).
  { intros i Hi. apply getIncompleteEventIds_elem_of in Hi as (e & He & _ & <-).
    by apply list_elem_of_fmap_2. }
  split_and!; [done|done|done| |].
  - intros i Hi Hi'. apply Hnew in Hi as [_ Hout]. by apply Hinc in Hi'.
  - unfold allEventIdsToSync. by rewrite length_app.
Qed.

(** ** The Players stage resolves every reference *)

Lemma syncPlayers_names upstream eventIds w n w' name :
  syncPlayers upstream eventIds w = (Returned n, w') ->
  name ∈ referencedPlayerNames upstream eventIds ->
  name ∈ p_name <$> players (target w').
Proof.
  intros Hrun Hname. apply syncPlayers_Returned in Hrun as [_ ->]. simpl.
  rewrite fmap_app, playersToSync_names, elem_of_app, list_elem_of_filter.
  destruct (decide (name ∈ p_name <$> players (target w))); [by left|by right].
Qed.

(** X3.  When the Players stage returns, every player that an upstream
    standing, match or deck of a worklist event names is on the target,
    so that each of these rows can resolve its player there. *)
Theorem players_stage_resolves (upstream : Upstream) (eventIds : list Z)
    (w w' : World) (n : nat) :
  syncPlayers upstream eventIds w = (Returned n, w') ->
  (forall s, s ∈ u_standings upstream -> s_event_id s ∈ eventIds ->
     references_player (target w') (s_player s) = true)
  /\ (forall m, m ∈ u_matches upstream -> m_event_id m ∈ eventIds ->
     references_player (target w') (m_player m) = true)
  /\ (forall d, d ∈ u_decks upstream -> d_event_id d ∈ eventIds ->
     references_player (target w') (d_player d) = true).
Proof.
  intros Hrun. unfold references_player.
  split_and!; intros r Hr He; apply bool_decide_eq_true;
    eapply syncPlayers_names; try done;
    apply referencedPlayerNames_elem_of; eauto 10.
Qed.

(** ** What a run that returns leaves on the target *)

(** X6.  After a run that returned against an upstream whose tables
    satisfy the unique keys: every upstream standing, match and deck of a
    worklist event, and every upstream archetype of such a deck, is found
    on the target under its key with exactly the upstream column values;
    and so is every upstream event that was not on the target. *)
Theorem sync_mirrors_upstream (upstream : Upstream) (w w' : World) (s : Summary) :
  upstream_keys_unique upstream ->
  sync upstream w = (Returned s, w') ->
  let E := allEventIdsToSync upstream (target w) in
  let db' := target w' in
  (forall r, r ∈ u_standings upstream -> s_event_id r ∈ E ->
     present standing_key (standings db') r)
  /\ (forall r, r ∈ u_matches upstream -> m_event_id r ∈ E ->
     present match_key (matches db') r)
  /\ (forall r, r ∈ u_decks upstream -> d_event_id r ∈ E ->
     present d_id (decks db') r)
  /\ (forall a d, a ∈ u_archetypes upstream -> d ∈ u_decks upstream ->
        d_event_id d ∈ E -> a_deck_id a = Some (d_id d) ->
        present a_id (archetypes db') a)
  /\ (forall e, e ∈ u_events upstream -> e_id e ∉ e_id <$> events (target w) ->
        present e_id (events db') e).
Proof.
  intros (HkS & HkM & HkD & HkA) Hrun E db'.
  apply sync_Returned in Hrun as (Hw' & _ & _ & Hnd & _).
  unfold db'. rewrite Hw'. unfold sync_result. fold E. simpl.
  split_and!.
  - intros r Hr HE.
    apply (present_upsert_all standing_key standing_excluded standing_excluded_key).
    + by apply NoDup_sorted_filter.
    + by apply upstreamStandings_elem_of.
  - intros r Hr HE.
    apply (present_upsert_all match_key match_excluded match_excluded_key).
    + by apply NoDup_sorted_filter.
    + by apply upstreamMatches_elem_of.
  - intros r Hr HE.
    apply (present_upsert_all d_id deck_excluded deck_excluded_key).
    + by apply NoDup_sorted_filter.
    + by apply upstreamDecks_elem_of.
  - intros a d Ha Hd HE Hdeck.
    apply (present_upsert_all a_id archetype_excluded archetype_excluded_key).
    + by apply NoDup_sorted_filter.
    + apply upstreamArchetypes_elem_of. split; [done|].
      exists (d_id d). split; [done|]. apply upstreamDeckIds_elem_of. eauto.
  - intros e He Hnew.
    apply (present_upsert_all e_id event_excluded event_excluded_key); [done|].
    apply upstreamEvents_elem_of. split; [done|].
    by rewrite getLocalEventIds_elem_of.
Qed.

Section Columns.
Context {Row Key K : Type} `{EqDecision Key}.
Variable key : Row -> Key.
Variable upd : Row -> Row -> Row.
Variable g : Row -> K.
Hypothesis upd_key : forall x r, key x = key r -> upd x r = r.
Hypothesis g_key : forall x r, key x = key r -> g x = g r.

(** A column that is part of the key holds the value of every row
    written. *)
Lemma upsert_all_column_in t rows r :
  r ∈ rows -> g r ∈ g <$> upsert_all key upd t rows.
Proof.
  intros Hr.
  pose proof (upsert_all_keys_in key upd upd_key t rows r Hr) as Hk.
  apply list_elem_of_fmap in Hk as (x & Hkx & Hx).
  apply list_elem_of_fmap. exists x. split; [|done]. symmetry. by apply g_key.
Qed.
End Columns.

(** X7.  A run that returned has completed every event of its worklist
    for which upstream holds at least one standing and one match: the
    next run's incompleteness query does not return it. *)
Theorem sync_completes (upstream : Upstream) (w w' : World) (s : Summary) (i : Z) :
  sync upstream w = (Returned s, w') ->
  i ∈ allEventIdsToSync upstream (target w) ->
  i ∈ s_event_id <$> u_standings upstream ->
  i ∈ m_event_id <$> u_matches upstream ->
  i ∉ getIncompleteEventIds (target w').
Proof.
  intros Hrun HE HS HM Hinc.
  apply sync_Returned in Hrun as (Hw' & _).
  apply getIncompleteEventIds_elem_of in Hinc as (e & _ & Hwhere & Hid).
  unfold where_incomplete in Hwhere.
  rewrite andb_true_iff, orb_true_iff, !negb_true_iff in Hwhere.
  unfold exists_standing, exists_match in Hwhere.
  rewrite !bool_decide_eq_false in Hwhere.
  rewrite Hid, Hw' in Hwhere. simpl in Hwhere.
  destruct Hwhere as [_ [Hno|Hno]]; apply Hno.
  - apply list_elem_of_fmap in HS as (r & Hi & Hr). subst i.
    apply (upsert_all_column_in standing_key standing_excluded s_event_id
             standing_excluded_key).
    + unfold standing_key. by intros x y [= -> _].
    + by apply upstreamStandings_elem_of.
  - apply list_elem_of_fmap in HM as (r & Hi & Hr). subst i.
    apply (upsert_all_column_in match_key match_excluded m_event_id
             match_excluded_key).
    + unfold match_key. by intros x y [= -> _ _].
    + by apply upstreamMatches_elem_of.
Qed.

(** ** A run against a well-formed upstream returns *)

Lemma insert_players_accepts t batch :
  (forall r, r ∈ batch -> p_name r ∉ p_name <$> t) -> NoDup (p_name <$> batch) ->
  (forall r, r ∈ batch -> p_id r ∉ p_id <$> t) -> NoDup (p_id <$> batch) ->
  insert_on_conflict_do_nothing p_name
    (fun t r => bool_decide (p_id r ∉ p_id <$> t)) t batch = Some (t ++ batch).
Proof.
  revert t. induction batch as [|r batch IH]; intros t Hname Hnames Hid Hids; simpl.
  - by rewrite app_nil_r.
  - rewrite fmap_cons in Hnames. rewrite fmap_cons in Hids.
    apply NoDup_cons in Hnames as [Hr_name Hnames].
    apply NoDup_cons in Hids as [Hr_id Hids].
    rewrite decide_False by (apply Hname; set_solver).
    rewrite bool_decide_eq_true_2 by (apply Hid; set_solver).
    rewrite IH; [by rewrite <- app_assoc| |done| |done].
    + intros r' Hr'. rewrite fmap_app, not_elem_of_app. split.
      * apply Hname. set_solver.
      * simpl. intros Hin. apply list_elem_of_singleton in Hin.
        apply Hr_name. rewrite <- Hin. by apply list_elem_of_fmap_2.
    + intros r' Hr'. rewrite fmap_app, not_elem_of_app. split.
      * apply Hid. set_solver.
      * simpl. intros Hin. apply list_elem_of_singleton in Hin.
        apply Hr_id. rewrite <- Hin. by apply list_elem_of_fmap_2.
Qed.

Lemma upstreamPlayerMap_lookup rows name oid :
  upstreamPlayerMap rows !! name = Some oid ->
  exists p, p ∈ rows /\ up_name p = name /\ up_id p = oid.
Proof.
  unfold upstreamPlayerMap.
  assert (Hgen : forall (m : gmap string (option Z)),
    foldl (fun m p => <[up_name p := up_id p]> m) m rows !! name = Some oid ->
    m !! name = Some oid \/ exists p, p ∈ rows /\ up_name p = name /\ up_id p = oid).
  { induction rows as [|p rows IH]; intros m; simpl; [by left|].
    intros Hl. apply IH in Hl as [Hl|(q & Hq & ? & ?)].
    - destruct (decide (up_name p = name)) as [Hp|Hp].
      + subst name. rewrite lookup_insert_eq in Hl. injection Hl as <-.
        right. exists p. split_and!; [set_solver|done|done].
      + rewrite lookup_insert_ne in Hl by done. by left.
    - right. exists q. split_and!; [set_solver|done|done]. }
  intros Hl. apply Hgen in Hl as [Hl|?]; [|done]. by rewrite lookup_empty in Hl.
Qed.

Lemma NoDup_omap_eq {A B} (f : A -> option B) (l : list A) (x y : A) (b : B) :
  NoDup (omap f l) -> x ∈ l -> y ∈ l -> f x = Some b -> f y = Some b -> x = y.
Proof.
  induction l as [|a l IH]; intros Hnd Hx Hy Hfx Hfy.
  - by apply elem_of_nil in Hx.
  - simpl in Hnd.
    assert (Hin : forall z, z ∈ l -> f z = Some b -> b ∈ omap f l).
    { intros z Hz Hfz. apply list_elem_of_omap. eauto. }
    apply elem_of_cons in Hx as [->|Hx]; apply elem_of_cons in Hy as [->|Hy].
    + done.
    + rewrite Hfx in Hnd. apply NoDup_cons in Hnd as [Hb _].
      destruct Hb. eauto.
    + rewrite Hfy in Hnd. apply NoDup_cons in Hnd as [Hb _].
      destruct Hb. eauto.
    + apply IH; try done. destruct (f a); [by apply NoDup_cons in Hnd as [_ ?]|done].
Qed.

(** Against a well-formed upstream the reconciler's plan is one the
    target accepts: its ids are distinct and none is taken. *)
Lemma playersToSync_ids upstream playerNames localPlayers :
  NoDup (omap up_id (u_players upstream)) ->
  (forall p id, p ∈ u_players upstream -> up_id p = Some id -> (0 < id)%Z) ->
  NoDup playerNames ->
  let plan := playersToSync upstream playerNames localPlayers in
  NoDup (p_id <$> plan) /\ forall p, p ∈ plan -> p_id p ∉ p_id <$> localPlayers.
Proof.
  intros Hids Hpos Hnames plan.
  set (umap := upstreamPlayerMap (upstreamPlayers upstream playerNames)).
  set (localIds := p_id <$> localPlayers).
  assert (Hplan : plan = assign_ids umap localIds
                    (filter (fun name => name ∉ p_name <$> localPlayers) playerNames)
                    (minNegativeId localPlayers - 1)).
  { apply playersToSync_assign. }
  assert (Hplan_names : NoDup (p_name <$> plan)).
  { unfold plan. rewrite playersToSync_names. by apply NoDup_filter. }
  pose proof (minNegativeId_nonpos localPlayers) as Hfloor.
  assert (Hsynth : forall p, p ∈ plan -> synthesizes umap localIds (p_name p) ->
            (p_id p < 0)%Z /\ p_id p ∉ localIds).
  { intros p Hp Hs. rewrite Hplan in Hp.
    apply assign_ids_synth_le in Hp; [|done]. split; [lia|].
    intros Hin. apply list_elem_of_fmap in Hin as (q & Hid & Hq).
    pose proof (minNegativeId_le localPlayers q Hq). lia. }
  assert (Hadopt : forall p, p ∈ plan -> ~ synthesizes umap localIds (p_name p) ->
            (0 < p_id p)%Z /\ p_id p ∉ localIds
            /\ exists q, q ∈ u_players upstream /\ up_name q = p_name p
                         /\ up_id q = Some (p_id p)).
  { intros p Hp Hs. rewrite Hplan in Hp.
    pose proof (assign_ids_not_synth _ _ _ _ _ Hp Hs) as Hl.
    unfold synthesizes in Hs. fold umap in Hl. rewrite Hl in Hs.
    apply upstreamPlayerMap_lookup in Hl as (q & Hq & Hqn & Hqi).
    apply list_elem_of_filter in Hq as [_ Hq].
    pose proof (Hpos q _ Hq Hqi) as Hp0.
    split_and!; [done|tauto|eauto]. }
  split.
  - apply NoDup_fmap_2_strong; [|by eapply NoDup_fmap_1].
    intros p q Hp Hq Heq.
    destruct (decide (synthesizes umap localIds (p_name p))) as [Hsp|Hsp];
    destruct (decide (synthesizes umap localIds (p_name q))) as [Hsq|Hsq].
    + eapply (NoDup_fmap_eq p_id (filter (fun p => synthesizes umap localIds (p_name p)) plan));
        [|by apply list_elem_of_filter|by apply list_elem_of_filter|done].
      rewrite Hplan. apply assign_ids_synth_NoDup.
    + destruct (Hsynth p Hp Hsp). destruct (Hadopt q Hq Hsq). lia.
    + destruct (Hsynth q Hq Hsq). destruct (Hadopt p Hp Hsp). lia.
    + destruct (Hadopt p Hp Hsp) as (_ & _ & rp & Hrp & Hnp & Hip).
      destruct (Hadopt q Hq Hsq) as (_ & _ & rq & Hrq & Hnq & Hiq).
      rewrite <- Heq in Hiq.
      assert (rp = rq) by (eapply NoDup_omap_eq; done). subst rq.
      eapply (NoDup_fmap_eq p_name plan); [done|done|done|congruence].
  - intros p Hp.
    destruct (decide (synthesizes umap localIds (p_name p))) as [Hs|Hs].
    + by destruct (Hsynth p Hp Hs).
    + by destruct (Hadopt p Hp Hs) as (_ & ? & _).
Qed.

Lemma forallb_true_elem_of {A} (f : A -> bool) (l : list A) :
  (forall x, x ∈ l -> f x = true) -> forallb f l = true.
Proof.
  intros Hall. apply forallb_forall. intros x Hx. by apply Hall, list_elem_of_In.
Qed.

(** The ids of the plan fit the id column when the upstream ids do and
    the negative counter has room for every name. *)
Lemma playersToSync_range upstream playerNames localPlayers :
  (forall p id, p ∈ u_players upstream -> up_id p = Some id ->
     (0 < id <= 2147483647)%Z) ->
  (-2147483648 <= minNegativeId localPlayers - Z.of_nat (length playerNames))%Z ->
  forallb (fun p => integer_column (p_id p))
    (playersToSync upstream playerNames localPlayers) = true.
Proof.
  intros Hrange Hroom. apply forallb_true_elem_of. intros p Hp.
  rewrite playersToSync_assign in Hp.
  set (umap := upstreamPlayerMap (upstreamPlayers upstream playerNames)) in *.
  set (fresh := filter (fun name => name ∉ p_name <$> localPlayers) playerNames) in *.
  assert (Hfresh : length fresh <= length playerNames) by apply length_filter.
  pose proof (minNegativeId_nonpos localPlayers) as Hfloor.
  unfold integer_column. apply andb_true_iff. rewrite !Z.leb_le.
  destruct (decide (synthesizes umap (p_id <$> localPlayers) (p_name p))) as [Hs|Hs].
  - pose proof (assign_ids_synth_le _ _ _ _ _ Hp Hs).
    pose proof (assign_ids_synth_ge _ _ _ _ _ Hp Hs). lia.
  - pose proof (assign_ids_not_synth _ _ _ _ _ Hp Hs) as Hl.
    apply upstreamPlayerMap_lookup in Hl as (q & Hq & _ & Hqi).
    apply list_elem_of_filter in Hq as [_ Hq].
    pose proof (Hrange q _ Hq Hqi). lia.
Qed.

Lemma syncPlayers_accepts upstream eventIds w :
  NoDup (omap up_id (u_players upstream)) ->
  (forall p id, p ∈ u_players upstream -> up_id p = Some id ->
     (0 < id <= 2147483647)%Z) ->
  players_stage_within upstream eventIds (players (target w)) ->
  (-2147483648 <=
   minNegativeId (players (target w))
   - Z.of_nat (length (referencedPlayerNames upstream eventIds)))%Z ->
  let plan := playersToSync upstream (referencedPlayerNames upstream eventIds)
                (players (target w)) in
  exists j', syncPlayers upstream eventIds w
             = (Returned (length plan),
                mkWorld (with_players (players (target w) ++ plan) (target w)) j').
Proof.
  intros Hids Hrange Hwithin Hroom plan.
  assert (Hpos : forall p id, p ∈ u_players upstream -> up_id p = Some id -> (0 < id)%Z).
  { intros p id Hp Hid. by destruct (Hrange p id Hp Hid). }
  rewrite syncPlayers_run. cbv zeta. fold plan.
  rewrite decide_True by done.
  case_decide as Hnil.
  - exists (journal w). rewrite Hnil, app_nil_r. simpl.
    by destruct w as [[] ?].
  - destruct (playersToSync_ids upstream (referencedPlayerNames upstream eventIds)
                (players (target w)) Hids Hpos) as [Hnd Hfree].
    { apply referencedPlayerNames_NoDup. }
    fold plan in Hnd, Hfree.
    unfold insert_players. unfold plan at 1.
    rewrite playersToSync_range by done. fold plan.
    rewrite insert_players_accepts; simpl; [by eexists| | |done|done].
    + intros r Hr. apply (list_elem_of_fmap_2 p_name) in Hr.
      unfold plan in Hr. rewrite playersToSync_names in Hr.
      by apply list_elem_of_filter in Hr as [? _].
    + unfold plan. rewrite playersToSync_names.
      apply NoDup_filter, referencedPlayerNames_NoDup.
Qed.

Section GuardedAccepted.
Context {Row Key : Type} `{EqDecision Key}.
Variable key : Row -> Key.
Variable upd : Row -> Row -> Row.
Variable fk : Database -> Row -> bool.
Variable table : Database -> list Row.
Variable with_table : list Row -> Database -> Database.
Variable stage : Stage.
Variable statement : list Row -> Database -> option Database.
Variable B : nat.

Hypothesis statement_eq : forall batch db,
  statement batch db =
  (t ← insert_on_conflict_do_update key upd (fk db) batch (table db);
   Some (with_table t db)).
Hypothesis table_with : forall t db, table (with_table t db) = t.
Hypothesis with_with : forall t t' db,
  with_table t (with_table t' db) = with_table t db.
Hypothesis with_same : forall db, with_table (table db) db = db.
Hypothesis fk_with : forall t db, fk (with_table t db) = fk db.
Hypothesis B_pos : 0 < B.

(** The world after a stage all of whose batches the target accepts. *)
Lemma guarded_write_batches rows w :
  Forall (accepted key fk (target w)) (batches B (length rows) 0 rows) ->
  guarded_write stage statement B rows w
  = (Returned (length rows),
     mkWorld (with_table (upsert_all key upd (table (target w)) rows) (target w))
             (journal w ++ ((fun b => (stage, length b))
                              <$> batches B (length rows) 0 rows))).
Proof.
  intros Hacc. unfold guarded_write. case_decide as Hlen.
  - destruct rows; [|done]. simpl. unfold ret.
    rewrite with_same, app_nil_r. by destruct w.
  - unfold bind. rewrite write_batches_exec_each by done.
    rewrite (exec_each_accepted key upd fk table with_table stage statement
               statement_eq table_with with_with with_same fk_with _ _ Hacc).
    rewrite batches_concat by lia. done.
Qed.

Lemma guarded_write_accepted rows w :
  accepted key fk (target w) rows ->
  guarded_write stage statement B rows w
  = (Returned (length rows),
     mkWorld (with_table (upsert_all key upd (table (target w)) rows) (target w))
             (journal w ++ ((fun b => (stage, length b))
                              <$> batches B (length rows) 0 rows))).
Proof.
  intros Hacc. apply guarded_write_batches.
  eapply Forall_impl; [apply (batches_sublist B); lia|].
  simpl. intros b Hb.
  by apply (accepted_sublist key fk (target w) b rows).
Qed.

(** A stage that returned has journalled one statement per batch. *)
Lemma guarded_write_world rows w n w' :
  guarded_write stage statement B rows w = (Returned n, w') ->
  w' = mkWorld (with_table (upsert_all key upd (table (target w)) rows) (target w))
         (journal w ++ ((fun b => (stage, length b))
                          <$> batches B (length rows) 0 rows)).
Proof.
  intros Hrun.
  assert (Hacc : Forall (accepted key fk (target w)) (batches B (length rows) 0 rows)).
  { revert Hrun. unfold guarded_write. case_decide as Hlen.
    - destruct rows; [|done]. intros _. simpl. constructor.
    - unfold bind. rewrite write_batches_exec_each by done.
      destruct (exec_each _ _ _ w) as [[u|] w2] eqn:Hex; [|done]. intros _.
      by eapply (exec_each_Returned key upd fk table with_table stage statement). }
  rewrite (guarded_write_batches rows w Hacc) in Hrun. by injection Hrun as _ <-.
Qed.
End GuardedAccepted.

Lemma upstreamEvents_NoDup upstream excludeIds :
  NoDup (e_id <$> u_events upstream) ->
  NoDup (e_id <$> upstreamEvents upstream excludeIds).
Proof. intros Hnd. by apply NoDup_sorted_filter. Qed.

(** Once the events and the players of the worklist are on a target,
    the upstream rows of the worklist satisfy its references. *)
Lemma worklist_references upstream E db :
  (forall i, i ∈ E -> i ∈ e_id <$> events db) ->
  (forall name, name ∈ referencedPlayerNames upstream E ->
     name ∈ p_name <$> players db) ->
  (forall r, r ∈ upstreamStandings upstream E -> standing_fk db r = true)
  /\ (forall r, r ∈ upstreamMatches upstream E -> match_fk db r = true)
  /\ (forall r, r ∈ upstreamDecks upstream E -> deck_fk db r = true).
Proof.
  intros Hevents Hplayers.
  split_and!; intros r Hr; apply fk_true.
  - apply upstreamStandings_elem_of in Hr as [Hr HE]. split; [by apply Hevents|].
    apply Hplayers, referencedPlayerNames_elem_of. eauto 10.
  - apply upstreamMatches_elem_of in Hr as [Hr HE]. split; [by apply Hevents|].
    apply Hplayers, referencedPlayerNames_elem_of. eauto 10.
  - apply upstreamDecks_elem_of in Hr as [Hr HE]. split; [by apply Hevents|].
    apply Hplayers, referencedPlayerNames_elem_of. eauto 10.
Qed.

Lemma sync_summary_nil upstream db :
  allEventIdsToSync upstream db = [] ->
  sync_summary upstream db = mkSummary 0 0 0 no_stats.
Proof.
  intros Hnil. unfold sync_summary.
  destruct (allEventIdsToSync_nil _ _ Hnil) as [-> ->]. rewrite Hnil.
  by rewrite referencedPlayerNames_nil, playersToSync_nil, upstreamStandings_nil,
    upstreamMatches_nil, upstreamDecks_nil, upstreamDeckIds_nil,
    upstreamArchetypes_nil.
Qed.

(** A run that returns has produced [sync_result] and [sync_summary]. *)
Lemma sync_Returned_eq upstream w s w' :
  sync upstream w = (Returned s, w') ->
  s = sync_summary upstream (target w)
  /\ target w' = sync_result upstream (target w).
Proof.
  intros Hrun. apply sync_Returned in Hrun as (Hw' & Hne & Hnil & _).
  split; [|done].
  destruct (allEventIdsToSync upstream (target w)) as [|i E] eqn:HE.
  - rewrite sync_summary_nil by done. by apply Hnil.
  - by apply Hne.
Qed.

(** X4.  Against an upstream whose tables satisfy the unique keys of the
    schema and whose player ids are positive integers of the column's
    range, a run that stays within the limits returns, whatever the
    target holds: no statement of any stage is rejected, the target it
    leaves is [sync_result] and the summary it prints is [sync_summary],
    for whatever order the server returns the referenced names in. *)
Theorem sync_returns (upstream : Upstream) (w : World) :
  upstream_schema upstream ->
  run_within upstream (target w) ->
  exists j', sync upstream w
             = (Returned (sync_summary upstream (target w)),
                mkWorld (sync_result upstream (target w)) j').
Proof.
  intros ((HkS & HkM & HkD & HkA) & HkE & Hids & Hrange)
         (Hsize & Hwithin & Hseven & Hdecks & Hroom).
  assert (Hret : exists s w', sync upstream w = (Returned s, w')).
  { rewrite sync_unfold, decide_True by done. cbv zeta.
    set (db := target w) in *.
    set (E := allEventIdsToSync upstream db) in *.
    set (new := upstreamEvents upstream (getLocalEventIds db)) in *.
    assert (HE3 : length E < PARAMETER_LIMIT) by (destruct Hwithin as [? _]; lia).
    case_decide as HE; [by eexists _, _|].
    (* Players *)
    destruct (syncPlayers_accepts upstream E w Hids Hrange Hwithin Hroom) as [j1 H1].
    unfold bind at 1. rewrite H1. fold db.
    set (db1 := with_players _ db).
    (* Events *)
    assert (H2 : exists n j2,
              (if decide (0 < length new) then syncEvents new else ret 0)
                (mkWorld db1 j1)
              = (Returned n,
                 mkWorld (with_events (upsert_all e_id event_excluded (events db) new) db1)
                         j2)).
    { case_decide as Hlen.
      - rewrite syncEvents_run.
        rewrite decide_False by (intros Hn; rewrite Hn in Hlen; simpl in Hlen; lia).
        rewrite decide_True by done.
        simpl. rewrite upsert_events_accepted by (by apply upstreamEvents_NoDup).
        by eexists _, _.
      - assert (Hn : new = []) by (destruct new; [done|simpl in Hlen; lia]).
        rewrite Hn. exists 0, j1. unfold ret. by destruct db. }
    destruct H2 as (n2 & j2 & H2). unfold bind at 1. rewrite H2.
    set (db2 := with_events _ db1).
    assert (Hevents : forall i, i ∈ E -> i ∈ e_id <$> events db2).
    { intros i Hi. simpl. unfold E, allEventIdsToSync in Hi.
      apply elem_of_app in Hi as [Hi|Hi].
      - apply list_elem_of_fmap in Hi as (e & -> & He).
        by apply (upsert_all_keys_in e_id event_excluded event_excluded_key).
      - apply (upsert_all_keys_mono e_id event_excluded event_excluded_key).
        apply getIncompleteEventIds_elem_of in Hi as (e & He & _ & <-).
        by apply list_elem_of_fmap_2. }
    assert (Hplayers : forall name, name ∈ referencedPlayerNames upstream E ->
              name ∈ p_name <$> players db2).
    { intros name Hname. simpl.
      rewrite fmap_app, playersToSync_names, elem_of_app, list_elem_of_filter.
      destruct (decide (name ∈ p_name <$> players db)); [by left|by right]. }
    destruct (worklist_references upstream E db2 Hevents Hplayers)
      as (HfkS & HfkM & HfkD).
    (* Standings *)
    unfold bind at 1. rewrite syncStandings_guarded, decide_True by done.
    rewrite (guarded_write_accepted standing_key standing_excluded standing_fk
               standings with_standings Standings upsert_standings 8000);
      [|stage_law..|].
    2:{ split; [by apply NoDup_sorted_filter|by apply forallb_true_elem_of]. }
    (* Matches *)
    unfold bind at 1. rewrite syncMatches_guarded, decide_True by done.
    rewrite (guarded_write_accepted match_key match_excluded match_fk
               matches with_matches Matches upsert_matches 7000);
      [|stage_law..|].
    2:{ split; [by apply NoDup_sorted_filter|by apply forallb_true_elem_of]. }
    (* Decks *)
    unfold bind at 1. rewrite syncDecks_guarded, decide_True by done.
    rewrite (guarded_write_accepted d_id deck_excluded deck_fk
               decks with_decks Decks upsert_decks 13000);
      [|stage_law..|].
    2:{ split; [by apply NoDup_sorted_filter|by apply forallb_true_elem_of]. }
    (* Archetypes *)
    unfold bind at 1. rewrite syncArchetypes_guarded, decide_True by done.
    rewrite (guarded_write_accepted a_id archetype_excluded archetype_fk
               archetypes with_archetypes Archetypes upsert_archetypes 13000);
      [|stage_law..|].
    2:{ split; [by apply NoDup_sorted_filter|]. apply forallb_true_elem_of.
        intros a Ha. apply upstreamArchetypes_elem_of in Ha as [_ (i & Hdeck & Hi)].
        unfold archetype_fk, references_deck. rewrite Hdeck.
        apply bool_decide_eq_true. simpl.
        apply upstreamDeckIds_elem_of in Hi as (d & Hd & HdE & <-).
        apply (upsert_all_keys_in d_id deck_excluded deck_excluded_key).
        by apply upstreamDecks_elem_of. }
    by eexists _, _. }
  destruct Hret as (s & w' & Hrun).
  destruct (sync_Returned_eq _ _ _ _ Hrun) as [-> Hw'].
  exists (journal w'). rewrite Hrun. f_equal. destruct w' as [db' j']. simpl in *.
  by rewrite Hw'.
Qed.

(** ** The counts of the summary are the rows sent *)

Lemma rows_sent_app stage j1 j2 :
  rows_sent stage (j1 ++ j2) = rows_sent stage j1 + rows_sent stage j2.
Proof. unfold rows_sent. by rewrite filter_app, fmap_app, sum_list_with_app. Qed.

Lemma rows_sent_own stage j :
  Forall (fun e => e.1 = stage) j -> rows_sent stage j = sum_list (snd <$> j).
Proof.
  intros Hall. unfold rows_sent. rewrite filter_all; [done|].
  intros e He. rewrite Forall_forall in Hall. by apply Hall.
Qed.

Lemma rows_sent_other stage stage' j :
  stage' <> stage -> Forall (fun e => e.1 = stage) j -> rows_sent stage' j = 0.
Proof.
  intros Hne Hall. unfold rows_sent. rewrite filter_none; [done|].
  intros e He Heq. rewrite Forall_forall in Hall. apply Hall in He. congruence.
Qed.

Lemma sum_list_lengths {A} (stage : Stage) (ls : list (list A)) :
  sum_list (snd <$> ((fun b => (stage, length b)) <$> ls)) = length (concat ls).
Proof.
  induction ls as [|l ls IH]; [done|].
  rewrite !fmap_cons. cbn [snd sum_list_with concat]. by rewrite length_app, IH.
Qed.

(** [sends stage c w]: when [c], run from [w], returns a count, it has
    journalled statements of [stage] only, and they carried that many
    rows. *)
Lemma guarded_write_sends {Row Key : Type} `{EqDecision Key}
    (key : Row -> Key) (upd : Row -> Row -> Row) (fk : Database -> Row -> bool)
    (table : Database -> list Row) (with_table : list Row -> Database -> Database)
    (stage : Stage) (statement : list Row -> Database -> option Database) (B : nat)
    (rows : list Row) (w w' : World) (n : nat) :
  (forall batch db,
     statement batch db =
     (t ← insert_on_conflict_do_update key upd (fk db) batch (table db);
      Some (with_table t db))) ->
  (forall t db, table (with_table t db) = t) ->
  (forall t t' db, with_table t (with_table t' db) = with_table t db) ->
  (forall db, with_table (table db) db = db) ->
  (forall t db, fk (with_table t db) = fk db) ->
  0 < B ->
  guarded_write stage statement B rows w = (Returned n, w') ->
  exists j', journal w' = journal w ++ j'
             /\ Forall (fun e => e.1 = stage) j'
             /\ sum_list (snd <$> j') = n.
Proof.
  intros Heq Htw Hww Hws Hfk HB Hrun.
  pose proof (guarded_write_world key upd fk table with_table stage statement B
                Heq Htw Hww Hws Hfk HB rows w n w' Hrun) as ->.
  assert (n = length rows) as ->.
  { revert Hrun. unfold guarded_write. case_decide as Hlen.
    - intros [= <- _]. done.
    - unfold bind. destruct (write_batches _ _ _ _ _) as [[m|] w1]; [|done].
      by intros [= <- _]. }
  eexists. split; [done|]. split.
  - apply Forall_fmap, Forall_forall. done.
  - rewrite sum_list_lengths. by rewrite batches_concat by lia.
Qed.

Lemma syncPlayers_sends upstream eventIds w n w' :
  syncPlayers upstream eventIds w = (Returned n, w') ->
  exists j', journal w' = journal w ++ j'
             /\ Forall (fun e => e.1 = Players) j'
             /\ sum_list (snd <$> j') = n.
Proof.
  rewrite syncPlayers_run. cbv zeta. case_decide as Hwithin; [|done].
  case_decide as Hnil.
  - intros [= <- <-]. exists []. rewrite app_nil_r. split_and!; [done|constructor|done].
  - destruct (insert_players _ _) as [db|]; [|done].
    intros [= <- <-]. eexists [_]. split_and!; [done|by constructor|simpl; lia].
Qed.

Lemma syncEvents_sends newEvents w n w' :
  syncEvents newEvents w = (Returned n, w') ->
  exists j', journal w' = journal w ++ j'
             /\ Forall (fun e => e.1 = Events) j'
             /\ sum_list (snd <$> j') = n.
Proof.
  rewrite syncEvents_run. case_decide as Hnil.
  - intros [= <- <-]. exists []. rewrite app_nil_r. split_and!; [done|constructor|done].
  - case_decide; [|done]. destruct (upsert_events _ _) as [db|]; [|done].
    intros [= <- <-]. eexists [_]. split_and!; [done|by constructor|simpl; lia].
Qed.

(** X8.  In the summary of a run that returned, the total is the new
    events plus the updated ones, the event rows are the new events, and
    the count of every category is the number of rows that the run sent
    to the target in the statements of that category's stage. *)
Theorem summary_counts_rows_sent (upstream : Upstream) (w w' : World) (s : Summary) :
  sync upstream w = (Returned s, w') ->
  total_events s = new_events s + updated_events s
  /\ stats_events (stats s) = new_events s
  /\ rows_sent Players (journal w')
     = rows_sent Players (journal w) + stats_players (stats s)
  /\ rows_sent Events (journal w')
     = rows_sent Events (journal w) + stats_events (stats s)
  /\ rows_sent Standings (journal w')
     = rows_sent Standings (journal w) + stats_standings (stats s)
  /\ rows_sent Matches (journal w')
     = rows_sent Matches (journal w) + stats_matches (stats s)
  /\ rows_sent Decks (journal w')
     = rows_sent Decks (journal w) + stats_decks (stats s)
  /\ rows_sent Archetypes (journal w')
     = rows_sent Archetypes (journal w) + stats_archetypes (stats s).
Proof.
  intros Hrun.
  destruct (sync_Returned_eq _ _ _ _ Hrun) as [Hs _].
  assert (Htotals : total_events s = new_events s + updated_events s
                    /\ stats_events (stats s) = new_events s).
  { rewrite Hs. unfold sync_summary, allEventIdsToSync. simpl.
    by rewrite length_app, length_fmap. }
  destruct Htotals as [Htotal Hevents]. split; [done|]. split; [done|].
  clear Hs Htotal Hevents.
  rewrite sync_unfold in Hrun. case_decide as Hsize; [|done].
  cbv zeta in Hrun.
  case_decide as HE.
  { injection Hrun as <- <-. simpl. split_and!; lia. }
  apply bind_Returned in Hrun as (n1 & w1 & H1 & Hrun).
  apply bind_Returned in Hrun as (n2 & w2 & H2 & Hrun).
  apply bind_Returned in Hrun as (n3 & w3 & H3 & Hrun).
  apply bind_Returned in Hrun as (n4 & w4 & H4 & Hrun).
  apply bind_Returned in Hrun as (n5 & w5 & H5 & Hrun).
  apply bind_Returned in Hrun as (n6 & w6 & H6 & Hrun).
  injection Hrun as <- <-. simpl.
  apply syncPlayers_sends in H1 as (j1 & Hj1 & Hs1 & Hn1).
  assert (H2' : exists j2, journal w2 = journal w1 ++ j2
                           /\ Forall (fun e => e.1 = Events) j2
                           /\ sum_list (snd <$> j2) = n2).
  { case_decide.
    - by eapply syncEvents_sends.
    - injection H2 as <- <-. exists []. rewrite app_nil_r.
      split_and!; [done|constructor|done]. }
  destruct H2' as (j2 & Hj2 & Hs2 & Hn2).
  rewrite syncStandings_guarded in H3. case_decide; [|done].
  apply (guarded_write_sends standing_key standing_excluded standing_fk standings
           with_standings) in H3 as (j3 & Hj3 & Hs3 & Hn3); [|stage_law..].
  rewrite syncMatches_guarded in H4. case_decide; [|done].
  apply (guarded_write_sends match_key match_excluded match_fk matches
           with_matches) in H4 as (j4 & Hj4 & Hs4 & Hn4); [|stage_law..].
  rewrite syncDecks_guarded in H5. case_decide; [|done].
  apply (guarded_write_sends d_id deck_excluded deck_fk decks
           with_decks) in H5 as (j5 & Hj5 & Hs5 & Hn5); [|stage_law..].
  rewrite syncArchetypes_guarded in H6. case_decide; [|done].
  apply (guarded_write_sends a_id archetype_excluded archetype_fk archetypes
           with_archetypes) in H6 as (j6 & Hj6 & Hs6 & Hn6); [|stage_law..].
  rewrite Hj6, Hj5, Hj4, Hj3, Hj2, Hj1. rewrite !rows_sent_app.
  rewrite (rows_sent_own Players j1), (rows_sent_own Events j2),
    (rows_sent_own Standings j3), (rows_sent_own Matches j4),
    (rows_sent_own Decks j5), (rows_sent_own Archetypes j6) by done.
  rewrite !(rows_sent_other Players _ j1), !(rows_sent_other Events _ j2),
    !(rows_sent_other Standings _ j3), !(rows_sent_other Matches _ j4),
    !(rows_sent_other Decks _ j5), !(rows_sent_other Archetypes _ j6) by done.
  split_and!; lia.
Qed.

(** ** How many statements the batch loop issues *)

Section BatchCount.
Context {Row : Type}.
Variable B : nat.
Hypothesis B_pos : 0 < B.

Lemma batches_length fuel i (rows : list Row) :
  length rows - i <= fuel ->
  length (batches B fuel i rows) = (length rows - i + B - 1) / B.
Proof.
  revert i. induction fuel as [|fuel IH]; intros i Hfuel; simpl.
  - replace (length rows - i + B - 1) with (B - 1) by lia.
    symmetry. apply Nat.div_small. lia.
  - case_decide as Hi.
    + simpl. rewrite IH by lia.
      destruct (decide (length rows <= i + B)) as [Hlast|Hmore].
      * replace (length rows - (i + B) + B - 1) with (B - 1) by lia.
        rewrite Nat.div_small by lia.
        apply (Nat.div_unique _ _ _ (length rows - i - 1)); lia.
      * replace (length rows - i + B - 1)
          with (length rows - (i + B) + B - 1 + 1 * B) by lia.
        rewrite Nat.div_add by lia. lia.
    + replace (length rows - i + B - 1) with (B - 1) by lia.
      symmetry. apply Nat.div_small. lia.
Qed.

Lemma batches_lookup fuel i k b (rows : list Row) :
  batches B fuel i rows !! k = Some b ->
  b = slice (i + k * B) (i + k * B + B) rows /\ i + k * B < length rows.
Proof.
  revert i k. induction fuel as [|fuel IH]; intros i k; simpl; [done|].
  case_decide as Hi; [|done].
  destruct k as [|k]; simpl.
  - intros [= <-]. rewrite Nat.add_0_r. done.
  - intros Hk. apply IH in Hk as [-> Hlt].
    replace (i + B + k * B) with (i + (B + k * B)) in * by lia. done.
Qed.
End BatchCount.

Section Issued.
Context {Row : Type}.
Variable stage : Stage.
Variable statement : list Row -> Database -> option Database.

(** The statements that a sequence issues are the first of the sequence,
    up to and including the first that the target rejects. *)
Lemma exec_each_issued (bs : list (list Row)) w :
  exists issued,
    issued `prefix_of` bs
    /\ journal (exec_each stage statement bs w).2
       = journal w ++ ((fun b => (stage, length b)) <$> issued)
    /\ ((exec_each stage statement bs w).1 = Returned () -> issued = bs)
    /\ ((exec_each stage statement bs w).1 = Thrown ->
        exists sent b w1,
          issued = sent ++ [b]
          /\ exec_each stage statement sent w = (Returned (), w1)
          /\ statement b (target w1) = None).
Proof.
  revert w. induction bs as [|b bs IH]; intros w; simpl.
  - exists []. rewrite app_nil_r. split_and!; done.
  - unfold bind, exec. destruct (statement b (target w)) as [db|] eqn:Hs; simpl.
    + destruct (IH (mkWorld db (journal w ++ [(stage, length b)])))
        as (issued & Hpre & Hj & Hret & Hthrown).
      exists (b :: issued). split_and!.
      * by apply prefix_cons.
      * rewrite Hj. simpl. by rewrite <- app_assoc.
      * intros Hr. f_equal. by apply Hret.
      * intros Hr. destruct (Hthrown Hr) as (sent & b' & w1 & -> & Hsent & Hb').
        exists (b :: sent), b', w1. split_and!; [done| |done].
        simpl. unfold bind, exec. by rewrite Hs.
    + exists [b]. split_and!.
      * by apply prefix_cons, prefix_nil.
      * done.
      * done.
      * intros _. exists [], b, w. split_and!; done.
Qed.
End Issued.

(** X14.  The batch loop over [n] rows with a positive batch size [B]
    has the integer ceiling of [n / B] slices to send; slice number [k]
    (from 0) holds the rows [k * B] up to, not including, [k * B + B],
    and every slice but the last holds exactly [B] rows.  The loop issues
    one statement for each slice, in order, as long as the target accepts
    them: when it returns it has issued them all and reports [n] rows,
    and when it throws it has issued the slices up to the first that the
    target rejected, and none after it. *)
Theorem batch_loop_statements {Row : Type} (stage : Stage)
    (statement : list Row -> Database -> option Database) (B : nat)
    (rows : list Row) (w : World) :
  0 < B ->
  let bs := batches B (length rows) 0 rows in
  let run := write_batches stage statement B rows w in
  length bs = (length rows + B - 1) / B
  /\ (forall k b, bs !! k = Some b -> b = slice (k * B) (k * B + B) rows)
  /\ (forall k b, bs !! k = Some b -> S k < length bs -> length b = B)
  /\ exists issued,
       issued `prefix_of` bs
       /\ journal run.2 = journal w ++ ((fun b => (stage, length b)) <$> issued)
       /\ (forall n, run.1 = Returned n -> issued = bs /\ n = length rows)
       /\ (run.1 = Thrown ->
           exists sent b w1,
             issued = sent ++ [b]
             /\ exec_each stage statement sent w = (Returned (), w1)
             /\ statement b (target w1) = None).
Proof.
  intros HB bs run.
  assert (Hlen : length bs = (length rows + B - 1) / B).
  { unfold bs. rewrite batches_length by lia. by rewrite Nat.sub_0_r. }
  assert (Hk : forall k b, bs !! k = Some b ->
            b = slice (k * B) (k * B + B) rows /\ k * B < length rows).
  { intros k b Hb. by apply (batches_lookup B) in Hb. }
  split_and!; [done| | |].
  - intros k b Hb. by apply Hk in Hb as [? _].
  - intros k b Hb Hnext.
    destruct (lookup_lt_is_Some_2 bs (S k) Hnext) as [b' Hb'].
    apply Hk in Hb as [-> _]. apply Hk in Hb' as [_ Hlt].
    unfold slice. rewrite length_take, length_drop. simpl in Hlt. lia.
  - destruct (exec_each_issued stage statement bs w)
      as (issued & Hpre & Hj & Hret & Hthrown).
    exists issued. unfold run. rewrite write_batches_exec_each by done. fold bs.
    destruct (exec_each stage statement bs w) as [[[]|] w1]; simpl in *.
    + split_and!; [done|done| |done]. intros n [= <-]. split; [by apply Hret|done].
    + split_and!; [done|done|done|intros _; by apply Hthrown].
Qed.

(** ** Players that are already on the target *)

(** X15.  When every player that the worklist's events reference is
    already on the target by name, the Players stage issues no statement
    and leaves the world as it is, whatever ids upstream holds for these
    names: it reports no player when its queries and its call of
    [Math.min] are within the limits, and throws when they are not. *)
Theorem players_stage_skips_known (upstream : Upstream) (eventIds : list Z)
    (w : World) :
  (forall name, name ∈ referencedPlayerNames upstream eventIds ->
     name ∈ p_name <$> players (target w)) ->
  syncPlayers upstream eventIds w
  = if decide (players_stage_within upstream eventIds (players (target w)))
    then (Returned 0, w) else (Thrown, w).
Proof.
  intros Hknown. rewrite syncPlayers_run. cbv zeta.
  case_decide; [|done].
  rewrite decide_True; [done|].
  apply (fmap_nil_inv p_name). rewrite playersToSync_names.
  apply filter_none. intros name Hname Hfresh. by apply Hfresh, Hknown.
Qed.

End SyncFacts.

(** * Further properties of the merge *)

(** ** The merge only appends *)

Lemma merge_insert_player_appended : respects appended merge_insert_player.
Proof.
  intros batch db db'. unfold merge_insert_player.
  destruct (insert_on_conflict_do_nothing _ _ _ _) as [t'|] eqn:Hins; [|done].
  simpl. intros [= <-]. apply do_nothing_Some in Hins as (added & -> & _).
  unfold appended. simpl. split_and!; try done. by apply prefix_app_r.
Qed.
Lemma merge_insert_event_appended : respects appended merge_insert_event.
Proof.
  intros batch db db'. unfold merge_insert_event.
  destruct (insert_on_conflict_do_nothing _ _ _ _) as [t'|] eqn:Hins; [|done].
  simpl. intros [= <-]. apply do_nothing_Some in Hins as (added & -> & _).
  unfold appended. simpl. split_and!; try done. by apply prefix_app_r.
Qed.
Lemma merge_insert_deck_appended : respects appended merge_insert_deck.
Proof.
  intros batch db db'. unfold merge_insert_deck.
  destruct (insert_on_conflict_do_nothing _ _ _ _) as [t'|] eqn:Hins; [|done].
  simpl. intros [= <-]. apply do_nothing_Some in Hins as (added & -> & _).
  unfold appended. simpl. split_and!; try done. by apply prefix_app_r.
Qed.
Lemma merge_insert_match_appended : respects appended merge_insert_match.
Proof.
  intros batch db db'. unfold merge_insert_match.
  destruct (insert_on_conflict_do_nothing _ _ _ _) as [t'|] eqn:Hins; [|done].
  simpl. intros [= <-]. apply do_nothing_Some in Hins as (added & -> & _).
  unfold appended. simpl. split_and!; try done. by apply prefix_app_r.
Qed.
Lemma merge_insert_standing_appended : respects appended merge_insert_standing.
Proof.
  intros batch db db'. unfold merge_insert_standing.
  destruct (insert_on_conflict_do_nothing _ _ _ _) as [t'|] eqn:Hins; [|done].
  simpl. intros [= <-]. apply do_nothing_Some in Hins as (added & -> & _).
  unfold appended. simpl. split_and!; try done. by apply prefix_app_r.
Qed.
Lemma merge_insert_archetype_appended : respects appended merge_insert_archetype.
Proof.
  intros batch db db'. unfold merge_insert_archetype.
  destruct (insert_on_conflict_do_nothing _ _ _ _) as [t'|] eqn:Hins; [|done].
  simpl. intros [= <-]. apply do_nothing_Some in Hins as (added & -> & _).
  unfold appended. simpl. split_and!; try done. by apply prefix_app_r.
Qed.

Lemma mergeDatabases_appended snapshot w :
  appended (target w) (target (mergeDatabases snapshot w).2).
Proof.
  apply (mergeDatabases_evolves appended snapshot w).
  - apply merge_insert_player_appended.
  - apply merge_insert_event_appended.
  - apply merge_insert_deck_appended.
  - apply merge_insert_match_appended.
  - apply merge_insert_standing_appended.
  - apply merge_insert_archetype_appended.
Qed.

(** X9.  A merge, however far it gets, only appends: in each of the six
    tables the rows the target had are still there, unchanged and in
    their order, in front of whatever the merge added. *)
Theorem merge_only_appends (snapshot : Database) (w : World) :
  appended (target w) (target (mergeDatabases snapshot w).2).
Proof. apply mergeDatabases_appended. Qed.

(** ** One loop of the merge *)

Section MergeLoop.
Context {Row Key : Type} `{EqDecision Key}.
Variable key : Row -> Key.
Variable constraint : Database -> list Row -> Row -> bool.
Variable table : Database -> list Row.
Variable with_table : list Row -> Database -> Database.
Variable stage : Stage.
Variable statement : list Row -> Database -> option Database.

Hypothesis statement_eq : forall batch db,
  statement batch db =
  (t ← insert_on_conflict_do_nothing key (constraint db) (table db) batch;
   Some (with_table t db)).
Hypothesis table_with : forall t db, table (with_table t db) = t.
Hypothesis with_with : forall t t' db,
  with_table t (with_table t' db) = with_table t db.
Hypothesis with_same : forall db, with_table (table db) db = db.
Hypothesis constraint_with : forall t db,
  constraint (with_table t db) = constraint db.

(** The three ways a single-row insert can go. *)
Lemma merge_step r db :
  statement [r] db
  = if decide (key r ∈ key <$> table db) then Some db
    else if constraint db (table db) r
         then Some (with_table (table db ++ [r]) db) else None.
Proof.
  rewrite statement_eq, do_nothing_single. case_decide; simpl.
  - by rewrite with_same.
  - by destruct (constraint db (table db) r).
Qed.

Notation run rows db count := (foldl (try_insert statement) (db, count) rows).

Lemma try_insert_table rows db count :
  exists added, (run rows db count).1 = with_table (table db ++ added) db
                /\ added `sublist_of` rows.
Proof.
  revert db count. induction rows as [|r rows IH]; intros db count; simpl.
  - exists []. by rewrite app_nil_r, with_same.
  - unfold try_insert at 2. simpl. rewrite merge_step.
    case_decide as Hkey.
    + destruct (IH db (count + 1)) as (added & Hst & Hsub).
      exists added. split; [done|by apply sublist_cons].
    + destruct (constraint db (table db) r).
      * destruct (IH (with_table (table db ++ [r]) db) (count + 1))
          as (added & Hst & Hsub).
        exists (r :: added). rewrite Hst, table_with, with_with, <- app_assoc.
        split; [done|by apply sublist_skip].
      * destruct (IH db count) as (added & Hst & Hsub).
        exists added. split; [done|by apply sublist_cons].
Qed.

Lemma try_insert_keys_mono rows db count k :
  k ∈ key <$> table db -> k ∈ key <$> table (run rows db count).1.
Proof.
  intros Hk. destruct (try_insert_table rows db count) as (added & -> & _).
  rewrite table_with, fmap_app. set_solver.
Qed.

(** Every row tried is on the target afterwards under its key, unless
    the target rejected it. *)
Lemma try_insert_covers rows db count r :
  r ∈ rows ->
  key r ∈ key <$> table (run rows db count).1
  \/ exists t, constraint db t r = false.
Proof.
  revert db count. induction rows as [|r' rows IH]; intros db count Hr; simpl.
  - by apply elem_of_nil in Hr.
  - apply elem_of_cons in Hr as [->|Hr].
    + unfold try_insert at 2. simpl. rewrite merge_step.
      case_decide as Hkey.
      * left. by apply try_insert_keys_mono.
      * destruct (constraint db (table db) r') eqn:Hc.
        -- left. apply try_insert_keys_mono. rewrite table_with, fmap_app. set_solver.
        -- right. eauto.
    + unfold try_insert at 2. simpl. rewrite merge_step.
      case_decide as Hkey; [by apply IH|].
      destruct (constraint db (table db) r') eqn:Hc; [|by apply IH].
      destruct (IH (with_table (table db ++ [r']) db) (count + 1) Hr) as [?|[t Ht]];
        [by left|].
      right. exists t. by rewrite constraint_with in Ht.
Qed.

(** With distinct keys that are all free, the count advances with the
    table. *)
Lemma try_insert_growth rows db count :
  NoDup (key <$> rows) -> (forall r, r ∈ rows -> key r ∉ key <$> table db) ->
  length (table (run rows db count).1) + count
  = length (table db) + (run rows db count).2.
Proof.
  revert db count. induction rows as [|r rows IH]; intros db count Hnd Hfresh; simpl.
  - lia.
  - rewrite fmap_cons in Hnd. apply NoDup_cons in Hnd as [Hr Hnd].
    unfold try_insert at 2 4. simpl. rewrite merge_step.
    rewrite decide_False by (apply Hfresh; set_solver).
    destruct (constraint db (table db) r).
    + pose proof (IH (with_table (table db ++ [r]) db) (count + 1) Hnd) as Hgrow.
      rewrite table_with, length_app in Hgrow. simpl in Hgrow.
      enough (length (table (run rows (with_table (table db ++ [r]) db) (count + 1)).1)
              + (count + 1)
              = length (table db) + 1
                + (run rows (with_table (table db ++ [r]) db) (count + 1)).2) by lia.
      apply Hgrow.
      intros r' Hr'. rewrite fmap_app, not_elem_of_app. split.
      * apply Hfresh. set_solver.
      * simpl. intros Hin. apply list_elem_of_singleton in Hin.
        apply Hr. rewrite <- Hin. by apply list_elem_of_fmap_2.
    + apply IH; [done|]. intros r' Hr'. apply Hfresh. set_solver.
Qed.

(** Rows that the target rejects one and all leave it as it is. *)
Lemma try_insert_all_rejected rows db count :
  (forall r, r ∈ rows -> statement [r] db = None) ->
  run rows db count = (db, count).
Proof.
  induction rows as [|r rows IH]; intros Hall; simpl; [done|].
  unfold try_insert at 2. simpl. rewrite Hall by set_solver.
  apply IH. intros r' Hr'. apply Hall. set_solver.
Qed.

(** The unguarded loop returns only when no row was rejected, and has
    then done what the guarded loop would have. *)
Lemma for_each_Returned rows count w n w' :
  for_each stage statement rows count w = (Returned n, w') ->
  (target w', n) = run rows (target w) count
  /\ n = count + length rows
  /\ forall r, r ∈ rows -> key r ∈ key <$> table (target w').
Proof.
  revert count w. induction rows as [|r rows IH]; intros count w; simpl.
  - intros [= <- <-]. split_and!; [done|lia|]. intros r Hr. by apply elem_of_nil in Hr.
  - unfold bind, exec. unfold try_insert at 2. simpl.
    destruct (statement [r] (target w)) as [db1|] eqn:Hs; [|done].
    intros Hrest. apply IH in Hrest as (Hrun & -> & Hcov). simpl in *.
    split_and!; [done|lia|].
    intros r' Hr'. apply elem_of_cons in Hr' as [->|Hr']; [|by apply Hcov].
    assert (target w' = (run rows db1 (count + 1)).1) as -> by (by rewrite <- Hrun).
    apply try_insert_keys_mono.
    rewrite merge_step in Hs. case_decide as Hkey.
    + by injection Hs as <-.
    + destruct (constraint _ _ _); [|done]. injection Hs as <-.
      rewrite table_with, fmap_app. set_solver.
Qed.
End MergeLoop.

(** ** The six loops in sequence *)

Ltac merge_law :=
  first [ done | by intros [] | by intros ? [] | by intros ? ? [] ].

Lemma mergeDatabases_Returned snapshot w s w' :
  mergeDatabases snapshot w = (Returned s, w') ->
  let db := target w in
  target w' = after_archetypes snapshot db
  /\ s = merge_stats snapshot db
  /\ (forall p, p ∈ newPlayers snapshot db ->
        p_id p ∈ p_id <$> players (after_players snapshot db))
  /\ (forall e, e ∈ newEvents snapshot (after_players snapshot db) ->
        e_id e ∈ e_id <$> events (after_events snapshot db)).
Proof.
  intros Hrun db. unfold mergeDatabases in Hrun.
  unfold bind at 1, query at 1 in Hrun. simpl in Hrun.
  apply bind_Returned in Hrun as (n1 & w1 & H1 & Hrun).
  apply (for_each_Returned p_id (fun _ t r => bool_decide (p_name r ∉ p_name <$> t))
           players with_players) in H1 as (Hst1 & _ & Hcov1); [|merge_law..].
  unfold bind at 1, query at 1 in Hrun. simpl in Hrun.
  apply bind_Returned in Hrun as (n2 & w2 & H2 & Hrun).
  apply (for_each_Returned e_id (fun _ _ _ => true) events with_events)
    in H2 as (Hst2 & _ & Hcov2); [|merge_law..].
  unfold bind at 1, query at 1 in Hrun. simpl in Hrun.
  unfold bind at 1 in Hrun. rewrite for_each_try_run in Hrun. simpl in Hrun.
  unfold bind at 1, query at 1 in Hrun. simpl in Hrun.
  unfold bind at 1 in Hrun. rewrite for_each_try_run in Hrun. simpl in Hrun.
  unfold bind at 1, query at 1 in Hrun. simpl in Hrun.
  unfold bind at 1 in Hrun. rewrite for_each_try_run in Hrun. simpl in Hrun.
  unfold bind at 1, query at 1 in Hrun. simpl in Hrun.
  unfold bind at 1 in Hrun. rewrite for_each_try_run in Hrun. simpl in Hrun.
  unfold ret in Hrun. injection Hrun as <- <-. simpl.
  fold db in Hst1, Hcov1.
  assert (Hdb1 : target w1 = after_players snapshot db).
  { unfold after_players, merge_stage. by rewrite <- Hst1. }
  assert (Hn1 : n1 = (merge_stage merge_insert_player (newPlayers snapshot) db).2).
  { unfold merge_stage. by rewrite <- Hst1. }
  rewrite Hdb1 in *.
  assert (Hdb2 : target w2 = after_events snapshot db).
  { unfold after_events, merge_stage. by rewrite <- Hst2. }
  assert (Hn2 : n2 = (merge_stage merge_insert_event (newEvents snapshot)
                        (after_players snapshot db)).2).
  { unfold merge_stage. by rewrite <- Hst2. }
  rewrite Hdb2 in *.
  split_and!; [|by rewrite Hn1, Hn2|done|done].
  done.
Qed.

(** Each loop adds rows of its selection behind its own table and leaves
    the other tables alone. *)
Lemma after_tables snapshot db :
  exists aP aE aD aM aS aA,
    (after_players snapshot db = with_players (players db ++ aP) db
     /\ aP `sublist_of` newPlayers snapshot db)
    /\ (after_events snapshot db
        = with_events (events db ++ aE) (after_players snapshot db)
        /\ aE `sublist_of` newEvents snapshot (after_players snapshot db))
    /\ (after_decks snapshot db
        = with_decks (decks db ++ aD) (after_events snapshot db)
        /\ aD `sublist_of` newDecks snapshot (after_events snapshot db))
    /\ (after_matches snapshot db
        = with_matches (matches db ++ aM) (after_decks snapshot db)
        /\ aM `sublist_of` newMatches snapshot (after_decks snapshot db))
    /\ (after_standings snapshot db
        = with_standings (standings db ++ aS) (after_matches snapshot db)
        /\ aS `sublist_of` newStandings snapshot (after_matches snapshot db))
    /\ (after_archetypes snapshot db
        = with_archetypes (archetypes db ++ aA) (after_standings snapshot db)
        /\ aA `sublist_of` newArchetypes snapshot (after_standings snapshot db)).
Proof.
  destruct (try_insert_table p_id (fun _ t r => bool_decide (p_name r ∉ p_name <$> t))
              players with_players merge_insert_player
              ltac:(merge_law) ltac:(merge_law) ltac:(merge_law) ltac:(merge_law)
              (newPlayers snapshot db) db 0) as (aP & HP & HsP).
  fold (merge_stage merge_insert_player (newPlayers snapshot) db) in HP.
  fold (after_players snapshot db) in HP.
  destruct (try_insert_table e_id (fun _ _ _ => true) events with_events
              merge_insert_event
              ltac:(merge_law) ltac:(merge_law) ltac:(merge_law) ltac:(merge_law)
              (newEvents snapshot (after_players snapshot db))
              (after_players snapshot db) 0) as (aE & HE & HsE).
  fold (merge_stage merge_insert_event (newEvents snapshot) (after_players snapshot db))
    in HE.
  fold (after_events snapshot db) in HE.
  destruct (try_insert_table d_id (fun db _ r => deck_fk db r) decks with_decks
              merge_insert_deck
              ltac:(merge_law) ltac:(merge_law) ltac:(merge_law) ltac:(merge_law)
              (newDecks snapshot (after_events snapshot db))
              (after_events snapshot db) 0) as (aD & HD & HsD).
  fold (merge_stage merge_insert_deck (newDecks snapshot) (after_events snapshot db))
    in HD.
  fold (after_decks snapshot db) in HD.
  destruct (try_insert_table match_key (fun db _ r => match_fk db r) matches
              with_matches merge_insert_match
              ltac:(merge_law) ltac:(merge_law) ltac:(merge_law) ltac:(merge_law)
              (newMatches snapshot (after_decks snapshot db))
              (after_decks snapshot db) 0) as (aM & HM & HsM).
  fold (merge_stage merge_insert_match (newMatches snapshot) (after_decks snapshot db))
    in HM.
  fold (after_matches snapshot db) in HM.
  destruct (try_insert_table standing_key (fun db _ r => standing_fk db r) standings
              with_standings merge_insert_standing
              ltac:(merge_law) ltac:(merge_law) ltac:(merge_law) ltac:(merge_law)
              (newStandings snapshot (after_matches snapshot db))
              (after_matches snapshot db) 0) as (aS & HS & HsS).
  fold (merge_stage merge_insert_standing (newStandings snapshot)
          (after_matches snapshot db)) in HS.
  fold (after_standings snapshot db) in HS.
  destruct (try_insert_table a_id (fun db _ r => archetype_fk db r) archetypes
              with_archetypes merge_insert_archetype
              ltac:(merge_law) ltac:(merge_law) ltac:(merge_law) ltac:(merge_law)
              (newArchetypes snapshot (after_standings snapshot db))
              (after_standings snapshot db) 0) as (aA & HA & HsA).
  fold (merge_stage merge_insert_archetype (newArchetypes snapshot)
          (after_standings snapshot db)) in HA.
  fold (after_archetypes snapshot db) in HA.
  exists aP, aE, aD, aM, aS, aA.
  assert (He : events (after_players snapshot db) = events db) by (by rewrite HP).
  rewrite He in HE.
  assert (Hd : decks (after_events snapshot db) = decks db)
    by (by rewrite HE, HP).
  rewrite Hd in HD.
  assert (Hm : matches (after_decks snapshot db) = matches db)
    by (by rewrite HD, HE, HP).
  rewrite Hm in HM.
  assert (Hs : standings (after_matches snapshot db) = standings db)
    by (by rewrite HM, HD, HE, HP).
  rewrite Hs in HS.
  assert (Ha : archetypes (after_standings snapshot db) = archetypes db)
    by (by rewrite HS, HM, HD, HE, HP).
  rewrite Ha in HA.
  done.
Qed.

Lemma after_decks_covers snapshot db d :
  d ∈ newDecks snapshot (after_events snapshot db) ->
  d_id d ∈ d_id <$> decks (after_decks snapshot db)
  \/ deck_fk (after_events snapshot db) d = false.
Proof.
  intros Hd.
  destruct (try_insert_covers d_id (fun db _ r => deck_fk db r) decks with_decks
              merge_insert_deck
              ltac:(merge_law) ltac:(merge_law) ltac:(merge_law) ltac:(merge_law)
              ltac:(merge_law)
              (newDecks snapshot (after_events snapshot db))
              (after_events snapshot db) 0 d Hd) as [?|[_ ?]]; [by left|by right].
Qed.

Lemma after_matches_covers snapshot db m :
  m ∈ newMatches snapshot (after_decks snapshot db) ->
  match_key m ∈ match_key <$> matches (after_matches snapshot db)
  \/ match_fk (after_decks snapshot db) m = false.
Proof.
  intros Hm.
  destruct (try_insert_covers match_key (fun db _ r => match_fk db r) matches
              with_matches merge_insert_match
              ltac:(merge_law) ltac:(merge_law) ltac:(merge_law) ltac:(merge_law)
              ltac:(merge_law)
              (newMatches snapshot (after_decks snapshot db))
              (after_decks snapshot db) 0 m Hm) as [?|[_ ?]]; [by left|by right].
Qed.

Lemma after_standings_covers snapshot db s :
  s ∈ newStandings snapshot (after_matches snapshot db) ->
  standing_key s ∈ standing_key <$> standings (after_standings snapshot db)
  \/ standing_fk (after_matches snapshot db) s = false.
Proof.
  intros Hs.
  destruct (try_insert_covers standing_key (fun db _ r => standing_fk db r) standings
              with_standings merge_insert_standing
              ltac:(merge_law) ltac:(merge_law) ltac:(merge_law) ltac:(merge_law)
              ltac:(merge_law)
              (newStandings snapshot (after_matches snapshot db))
              (after_matches snapshot db) 0 s Hs) as [?|[_ ?]]; [by left|by right].
Qed.

Lemma after_archetypes_covers snapshot db a :
  a ∈ newArchetypes snapshot (after_standings snapshot db) ->
  a_id a ∈ a_id <$> archetypes (after_archetypes snapshot db)
  \/ archetype_fk (after_standings snapshot db) a = false.
Proof.
  intros Ha.
  destruct (try_insert_covers a_id (fun db _ r => archetype_fk db r) archetypes
              with_archetypes merge_insert_archetype
              ltac:(merge_law) ltac:(merge_law) ltac:(merge_law) ltac:(merge_law)
              ltac:(merge_law)
              (newArchetypes snapshot (after_standings snapshot db))
              (after_standings snapshot db) 0 a Ha) as [?|[_ ?]]; [by left|by right].
Qed.

Lemma fk_false db (event_id : Z) (player : string) :
  references_event db event_id && references_player db player = false ->
  player ∈ p_name <$> players db -> event_id ∉ e_id <$> events db.
Proof.
  intros Hfk Hp He.
  assert (references_event db event_id && references_player db player = true)
    by (by apply fk_true).
  congruence.
Qed.

Lemma elem_of_fmap_app_l {A B} (f : A -> B) (t added : list A) (k : B) :
  k ∈ f <$> t -> k ∈ f <$> (t ++ added).
Proof. intros Hk. rewrite fmap_app. apply elem_of_app. by left. Qed.

(** A merge that returns has brought over everything the snapshot
    offers, except the decks whose event is not on the target. *)
Lemma mergeDatabases_merged snapshot w s w' :
  mergeDatabases snapshot w = (Returned s, w') -> merged snapshot (target w').
Proof.
  intros Hrun. apply mergeDatabases_Returned in Hrun as (Hw' & _ & HcovP & HcovE).
  rewrite Hw'. clear Hw'.
  set (db := target w) in *.
  destruct (after_tables snapshot db)
    as (aP & aE & aD & aM & aS & aA & [HP _] & [HE _] & [HD _] & [HM _] & [HS _] & [HA _]).
  set (db1 := after_players snapshot db) in *.
  set (db2 := after_events snapshot db) in *.
  set (db3 := after_decks snapshot db) in *.
  set (db4 := after_matches snapshot db) in *.
  set (db5 := after_standings snapshot db) in *.
  set (db6 := after_archetypes snapshot db) in *.
  assert (Hp2 : players db2 = players db1) by (by rewrite HE).
  assert (Hp3 : players db3 = players db1) by (by rewrite HD).
  assert (Hp4 : players db4 = players db1) by (by rewrite HM, HD).
  assert (Hp5 : players db5 = players db1) by (by rewrite HS, HM, HD).
  assert (Hp6 : players db6 = players db1) by (by rewrite HA, HS, HM, HD).
  assert (He3 : events db3 = events db2) by (by rewrite HD).
  assert (He4 : events db4 = events db2) by (by rewrite HM, HD).
  assert (He5 : events db5 = events db2) by (by rewrite HS, HM, HD).
  assert (He6 : events db6 = events db2) by (by rewrite HA, HS, HM, HD).
  assert (Hd4 : decks db4 = decks db3) by (by rewrite HM).
  assert (Hd5 : decks db5 = decks db3) by (by rewrite HS, HM).
  assert (Hd6 : decks db6 = decks db3) by (by rewrite HA, HS, HM).
  assert (Hm6 : matches db6 = matches db4) by (by rewrite HA, HS).
  assert (Hs6 : standings db6 = standings db5) by (by rewrite HA).
  unfold merged. rewrite Hp6, He6, Hd6, Hm6, Hs6. split_and!.
  - intros p Hp.
    destruct (decide (p_id p ∈ p_id <$> players db)) as [Hin|Hout].
    + rewrite HP. simpl. by apply elem_of_fmap_app_l.
    + apply HcovP. unfold newPlayers. by apply list_elem_of_filter.
  - intros e He.
    destruct (decide (e_id e ∈ e_id <$> events db1)) as [Hin|Hout].
    + rewrite HE. simpl. rewrite HP in Hin. simpl in Hin. by apply elem_of_fmap_app_l.
    + apply HcovE. unfold newEvents. by apply list_elem_of_filter.
  - intros d Hd Hplayer.
    destruct (decide (d_id d ∈ d_id <$> decks db2)) as [Hin|Hout].
    + left. rewrite HD. simpl.
      rewrite HE, HP in Hin. simpl in Hin. by apply elem_of_fmap_app_l.
    + destruct (after_decks_covers snapshot db d) as [?|Hfk]; [|by left|].
      * unfold newDecks. apply list_elem_of_filter. fold db2. by rewrite Hp2.
      * right. apply (fk_false db2 _ (d_player d)); [done|by rewrite Hp2].
  - intros m Hm Hplayer Hevent.
    destruct (decide (match_key m ∈ match_key <$> matches db3)) as [Hin|Hout].
    + rewrite HM. simpl.
      rewrite HD, HE, HP in Hin. simpl in Hin. by apply elem_of_fmap_app_l.
    + destruct (after_matches_covers snapshot db m) as [?|Hfk]; [|done|].
      * unfold newMatches. apply list_elem_of_filter. fold db3. by rewrite Hp3, He3.
      * apply (fk_false db3 _ (m_player m)) in Hfk; [|by rewrite Hp3].
        by rewrite He3 in Hfk.
  - intros r Hr Hplayer Hevent.
    destruct (decide (standing_key r ∈ standing_key <$> standings db4)) as [Hin|Hout].
    + rewrite HS. simpl.
      rewrite HM, HD, HE, HP in Hin. simpl in Hin. by apply elem_of_fmap_app_l.
    + destruct (after_standings_covers snapshot db r) as [?|Hfk]; [|done|].
      * unfold newStandings. apply list_elem_of_filter. fold db4. by rewrite Hp4, He4.
      * apply (fk_false db4 _ (s_player r)) in Hfk; [|by rewrite Hp4].
        by rewrite He4 in Hfk.
  - intros a Ha Hdeck.
    destruct (decide (a_id a ∈ a_id <$> archetypes db5)) as [Hin|Hout].
    + rewrite HA. simpl.
      rewrite HS, HM, HD, HE, HP in Hin. simpl in Hin. by apply elem_of_fmap_app_l.
    + destruct (after_archetypes_covers snapshot db a) as [?|Hfk]; [|done|].
      * unfold newArchetypes. apply list_elem_of_filter. fold db5. by rewrite Hd5.
      * exfalso. unfold archetype_fk, references_deck in Hfk. fold db5 in Hfk.
        destruct Hdeck as [Hnone|Hsome].
        -- by rewrite Hnone in Hfk.
        -- apply list_elem_of_fmap in Hsome as (i & Hi & Hin). rewrite Hi in Hfk.
           apply bool_decide_eq_false in Hfk. fold db5 in Hfk. by rewrite Hd5 in Hfk.
Qed.

(** On a target that already holds what the snapshot offers, a merge
    selects nothing but the decks it cannot place, skips them, and
    returns with every count at zero. *)
Lemma mergeDatabases_fixpoint snapshot w :
  merged snapshot (target w) ->
  exists j, mergeDatabases snapshot w = (Returned no_stats, mkWorld (target w) j).
Proof.
  intros (HmP & HmE & HmD & HmM & HmS & HmA).
  set (db := target w) in *.
  assert (HnP : newPlayers snapshot db = []).
  { unfold newPlayers. apply filter_none. intros p Hp Hout. by apply Hout, HmP. }
  assert (HnE : newEvents snapshot db = []).
  { unfold newEvents. apply filter_none. intros e He Hout. by apply Hout, HmE. }
  assert (HnM : newMatches snapshot db = []).
  { unfold newMatches. apply filter_none. intros m Hm (Hout & ? & ?).
    by apply Hout, HmM. }
  assert (HnS : newStandings snapshot db = []).
  { unfold newStandings. apply filter_none. intros s Hs (Hout & ? & ?).
    by apply Hout, HmS. }
  assert (HnA : newArchetypes snapshot db = []).
  { unfold newArchetypes. apply filter_none. intros a Ha (Hout & ?).
    by apply Hout, HmA. }
  assert (HnD : foldl (try_insert merge_insert_deck) (db, 0) (newDecks snapshot db)
                = (db, 0)).
  { apply (try_insert_all_rejected d_id (fun db _ r => deck_fk db r) decks with_decks);
      [merge_law..|]. intros d Hd.
    apply list_elem_of_filter in Hd as [[Hout Hplayer] Hd].
    rewrite (merge_step d_id (fun db _ r => deck_fk db r) decks with_decks
               merge_insert_deck) by merge_law.
    rewrite decide_False by done.
    destruct (HmD d Hd Hplayer) as [?|Hevent]; [done|].
    destruct (deck_fk db d) eqn:Hfk; [|done].
    apply fk_true in Hfk as [? _]. done. }
  unfold mergeDatabases.
  unfold bind at 1, query at 1. simpl. fold db. rewrite HnP.
  unfold bind at 1. simpl. try unfold ret at 1.
  unfold bind at 1, query at 1. simpl. fold db. rewrite HnE.
  unfold bind at 1. simpl. try unfold ret at 1.
  unfold bind at 1, query at 1. simpl. fold db.
  unfold bind at 1. rewrite for_each_try_run. simpl. fold db. rewrite HnD. simpl.
  unfold bind at 1, query at 1. simpl. rewrite HnM.
  unfold bind at 1. simpl. try unfold ret at 1.
  unfold bind at 1, query at 1. simpl. rewrite HnS.
  unfold bind at 1. simpl. try unfold ret at 1.
  unfold bind at 1, query at 1. simpl. rewrite HnA.
  unfold bind at 1. simpl. unfold ret. by eexists.
Qed.

(** X10.  A merge that returns has brought over everything the snapshot
    offers: every player and event id of the snapshot is on the target;
    every snapshot match and standing whose player and event are on the
    target is there under its key; every snapshot archetype whose deck is
    null or on the target is there under its id; and every snapshot deck
    whose player is on the target is there under its id unless its event
    is not on the target. *)
Theorem merge_complete (snapshot : Database) (w w' : World) (s : SyncStats) :
  mergeDatabases snapshot w = (Returned s, w') -> merged snapshot (target w').
Proof. apply mergeDatabases_merged. Qed.

(** X11.  Merging the same snapshot again after a merge that returned
    changes nothing: the second merge returns, leaves every table of the
    target as the first left it, and counts no player, event, deck,
    match, standing or archetype. *)
Theorem merge_twice (snapshot : Database) (w w1 : World) (s : SyncStats) :
  mergeDatabases snapshot w = (Returned s, w1) ->
  exists j, mergeDatabases snapshot w1 = (Returned no_stats, mkWorld (target w1) j).
Proof.
  intros Hrun. by eapply mergeDatabases_fixpoint, mergeDatabases_merged.
Qed.

(** ** The counts of a merge *)

Lemma NoDup_fmap_filter {A K} (key : A -> K) (P : A -> Prop)
    `{forall x, Decision (P x)} (l : list A) :
  NoDup (key <$> l) -> NoDup (key <$> filter P l).
Proof.
  intros Hnd. eapply sublist_NoDup; [exact Hnd|]. apply fmap_sublist, sublist_filter.
Qed.

Section StageGrowth.
Context {Row Key : Type} `{EqDecision Key}.
Variable key : Row -> Key.
Variable constraint : Database -> list Row -> Row -> bool.
Variable table : Database -> list Row.
Variable with_table : list Row -> Database -> Database.
Variable statement : list Row -> Database -> option Database.
Variable select : Database -> list Row.

Hypothesis statement_eq : forall batch db,
  statement batch db =
  (t ← insert_on_conflict_do_nothing key (constraint db) (table db) batch;
   Some (with_table t db)).
Hypothesis table_with : forall t db, table (with_table t db) = t.
Hypothesis with_with : forall t t' db,
  with_table t (with_table t' db) = with_table t db.
Hypothesis with_same : forall db, with_table (table db) db = db.
Hypothesis constraint_with : forall t db,
  constraint (with_table t db) = constraint db.

Lemma merge_stage_growth db :
  NoDup (key <$> select db) ->
  (forall r, r ∈ select db -> key r ∉ key <$> table db) ->
  length (table (merge_stage statement select db).1)
  = length (table db) + (merge_stage statement select db).2.
Proof.
  intros Hnd Hfresh. unfold merge_stage.
  pose proof (try_insert_growth key constraint table with_table statement
                statement_eq table_with with_with with_same constraint_with
                (select db) db 0 Hnd Hfresh) as Hgrow.
  lia.
Qed.
End StageGrowth.

(** X12.  When the snapshot's tables satisfy the unique keys, the counts
    that a returned merge reports are the numbers of rows it added: each
    table of the target has grown by exactly the count reported for
    it. *)
Theorem merge_counts_growth (snapshot : Database) (w w' : World) (s : SyncStats) :
  snapshot_keys_unique snapshot ->
  mergeDatabases snapshot w = (Returned s, w') ->
  length (players (target w')) = length (players (target w)) + stats_players s
  /\ length (events (target w')) = length (events (target w)) + stats_events s
  /\ length (decks (target w')) = length (decks (target w)) + stats_decks s
  /\ length (matches (target w')) = length (matches (target w)) + stats_matches s
  /\ length (standings (target w'))
     = length (standings (target w)) + stats_standings s
  /\ length (archetypes (target w'))
     = length (archetypes (target w)) + stats_archetypes s.
Proof.
  intros (HkP & HkE & HkD & HkM & HkS & HkA) Hrun.
  apply mergeDatabases_Returned in Hrun as (-> & -> & _).
  generalize (target w). clear w w'. intros db.
  destruct (after_tables snapshot db)
    as (aP & aE & aD & aM & aS & aA & [HP _] & [HE _] & [HD _] & [HM _] & [HS _] & [HA _]).
  assert (Hp6 : players (after_archetypes snapshot db)
                = players (after_players snapshot db))
    by (by rewrite HA, HS, HM, HD, HE).
  assert (He6 : events (after_archetypes snapshot db)
                = events (after_events snapshot db))
    by (by rewrite HA, HS, HM, HD).
  assert (Hd6 : decks (after_archetypes snapshot db)
                = decks (after_decks snapshot db))
    by (by rewrite HA, HS, HM).
  assert (Hm6 : matches (after_archetypes snapshot db)
                = matches (after_matches snapshot db))
    by (by rewrite HA, HS).
  assert (Hs6 : standings (after_archetypes snapshot db)
                = standings (after_standings snapshot db))
    by (by rewrite HA).
  assert (He1 : events (after_players snapshot db) = events db) by (by rewrite HP).
  assert (Hd2 : decks (after_events snapshot db) = decks db) by (by rewrite HE, HP).
  assert (Hm3 : matches (after_decks snapshot db) = matches db)
    by (by rewrite HD, HE, HP).
  assert (Hs4 : standings (after_matches snapshot db) = standings db)
    by (by rewrite HM, HD, HE, HP).
  assert (Ha5 : archetypes (after_standings snapshot db) = archetypes db)
    by (by rewrite HS, HM, HD, HE, HP).
  rewrite Hp6, He6, Hd6, Hm6, Hs6. clear Hp6 He6 Hd6 Hm6 Hs6 HP HE HD HM HS HA.
  unfold merge_stats.
  cbn [stats_players stats_events stats_decks stats_matches stats_standings
       stats_archetypes].
  split_and!.
  - unfold after_players at 1.
    apply (merge_stage_growth p_id
             (fun _ t r => bool_decide (p_name r ∉ p_name <$> t))
             players with_players); [merge_law..|by apply NoDup_fmap_filter|].
    intros r Hr. by apply list_elem_of_filter in Hr as [? _].
  - unfold after_events at 1. rewrite <- He1.
    apply (merge_stage_growth e_id (fun _ _ _ => true) events with_events);
      [merge_law..|by apply NoDup_fmap_filter|].
    intros r Hr. by apply list_elem_of_filter in Hr as [? _].
  - unfold after_decks at 1. rewrite <- Hd2.
    apply (merge_stage_growth d_id (fun db _ r => deck_fk db r) decks with_decks);
      [merge_law..|by apply NoDup_fmap_filter|].
    intros r Hr. by apply list_elem_of_filter in Hr as [[? _] _].
  - unfold after_matches at 1. rewrite <- Hm3.
    apply (merge_stage_growth match_key (fun db _ r => match_fk db r) matches
             with_matches); [merge_law..|by apply NoDup_fmap_filter|].
    intros r Hr. by apply list_elem_of_filter in Hr as [[? _] _].
  - unfold after_standings at 1. rewrite <- Hs4.
    apply (merge_stage_growth standing_key (fun db _ r => standing_fk db r) standings
             with_standings); [merge_law..|by apply NoDup_fmap_filter|].
    intros r Hr. by apply list_elem_of_filter in Hr as [[? _] _].
  - unfold after_archetypes at 1. rewrite <- Ha5.
    apply (merge_stage_growth a_id (fun db _ r => archetype_fk db r) archetypes
             with_archetypes); [merge_law..|by apply NoDup_fmap_filter|].
    intros r Hr. by apply list_elem_of_filter in Hr as [[? _] _].
Qed.

(** ** A name that is taken under another id *)

#[global] Instance players_apart_preorder : PreOrder players_apart.
Proof.
  split.
  - intros db. unfold players_apart. split_and!; done.
  - intros a b c (?&?&?&?&?) (?&?&?&?&?).
    unfold players_apart. split_and!; congruence.
Qed.

Lemma merge_insert_player_apart : respects players_apart merge_insert_player.
Proof.
  intros batch db db'. unfold merge_insert_player.
  destruct (insert_on_conflict_do_nothing _ _ _ _) as [t'|]; [|done].
  simpl. intros [= <-]. unfold players_apart. simpl. done.
Qed.

(** The players loop of the merge stops at a row whose id is free and
    whose name is taken, if it has not stopped before. *)
Lemma for_each_players_clash rows count w p :
  NoDup (p_id <$> rows) -> p ∈ rows ->
  p_id p ∉ p_id <$> players (target w) ->
  p_name p ∈ p_name <$> players (target w) ->
  (for_each Players merge_insert_player rows count w).1 = Thrown.
Proof.
  revert count w. induction rows as [|r rows IH]; intros count w Hnd Hp Hid Hname.
  - by apply elem_of_nil in Hp.
  - rewrite fmap_cons in Hnd. apply NoDup_cons in Hnd as [Hr Hnd]. simpl.
    unfold bind, exec.
    rewrite (merge_step p_id (fun _ t r => bool_decide (p_name r ∉ p_name <$> t))
               players with_players merge_insert_player) by merge_law.
    apply elem_of_cons in Hp as [->|Hp].
    + rewrite decide_False by done. by rewrite bool_decide_eq_false_2 by tauto.
    + assert (Hne : p_id r <> p_id p).
      { intros Heq. apply Hr. rewrite Heq. by apply list_elem_of_fmap_2. }
      case_decide as Hkey.
      * by apply IH.
      * case_bool_decide; [|done].
        apply IH; simpl; [done|done| |].
        -- rewrite fmap_app, not_elem_of_app. split; [done|].
           simpl. intros Hin. apply list_elem_of_singleton in Hin. congruence.
        -- by apply elem_of_fmap_app_l.
Qed.

(** X13.  The players loop of the merge has no [catch]: when the
    snapshot, whose player ids are distinct, holds a player whose id is
    not on the target but whose name is, the merge throws in that loop,
    and no event, deck, match, standing or archetype is written. *)
Theorem merge_name_clash_aborts (snapshot : Database) (w : World) (p : Player) :
  NoDup (p_id <$> players snapshot) ->
  p ∈ players snapshot ->
  p_id p ∉ p_id <$> players (target w) ->
  p_name p ∈ p_name <$> players (target w) ->
  (mergeDatabases snapshot w).1 = Thrown
  /\ players_apart (target w) (target (mergeDatabases snapshot w).2).
Proof.
  intros Hnd Hp Hid Hname.
  assert (Hloop : (for_each Players merge_insert_player
                     (newPlayers snapshot (target w)) 0 w).1 = Thrown).
  { apply (for_each_players_clash _ _ _ p); [|  |done|done].
    - by apply NoDup_fmap_filter.
    - unfold newPlayers. by apply list_elem_of_filter. }
  pose proof (evolves_for_each players_apart Players merge_insert_player
                merge_insert_player_apart (newPlayers snapshot (target w)) 0 w)
    as Hframe.
  unfold evolves in Hframe.
  destruct (for_each Players merge_insert_player _ 0 w) as [[n|] w1] eqn:Hfe; [done|].
  assert (Hrun : mergeDatabases snapshot w = (Thrown, w1)).
  { unfold mergeDatabases. unfold bind at 1, query at 1. simpl.
    unfold bind at 1. by rewrite Hfe. }
  rewrite Hrun. by split.
Qed.

(** * The [.env] file of the tunnel setup *)

(** ** Character classes *)

Ltac class_facts :=
  unfold is_space, is_line_terminator, is_env_char, is_placeholder_char,
    is_word_char, in_range in *;
  repeat match goal with
         | H : _ = false |- _ => apply not_true_iff_false in H
         | |- _ = false => apply not_true_iff_false; intros ?
         end;
  rewrite ?orb_true_iff, ?andb_true_iff, ?N.leb_le, ?N.eqb_eq in *;
  lia.

Lemma space_not_env c : is_space c = true -> is_env_char c = false.
Proof. intros H. class_facts. Qed.

Lemma equals_not_env : is_env_char 61 = false.
Proof. done. Qed.

Lemma equals_not_space : is_space 61 = false.
Proof. done. Qed.

Lemma space_not_word c : is_space c = true -> is_word_char c = false.
Proof. intros H. class_facts. Qed.

Lemma env_is_word c : is_env_char c = true -> is_word_char c = true.
Proof. intros H. class_facts. Qed.

Lemma word_not_equals c : is_word_char c = true -> c <> 61%N.
Proof. intros H ->. done. Qed.

(** ** Greedy runs *)

Lemma span_eq class s : (span class s).1 ++ (span class s).2 = s.
Proof.
  induction s as [|c s IH]; simpl; [done|].
  destruct (class c); [|done]. destruct (span class s) as [run rest]. simpl in *.
  by rewrite IH.
Qed.

Lemma span_run class s : forallb class (span class s).1 = true.
Proof.
  induction s as [|c s IH]; simpl; [done|].
  destruct (class c) eqn:Hc; [|done]. destruct (span class s) as [run rest]. simpl in *.
  by rewrite Hc, IH.
Qed.

(** A run that reaches a character outside the class stops there,
    whatever follows. *)
Lemma span_stop class run c rest :
  forallb class run = true -> class c = false ->
  span class (run ++ c :: rest) = (run, c :: rest).
Proof.
  intros Hrun Hc. induction run as [|x run IH]; simpl.
  - by rewrite Hc.
  - simpl in Hrun. apply andb_true_iff in Hrun as [Hx Hrun].
    rewrite Hx, IH by done. done.
Qed.

Lemma span_all class s : forallb class s = true -> span class s = (s, []).
Proof.
  induction s as [|c s IH]; simpl; [done|].
  intros [Hc Hs]%andb_true_iff. by rewrite Hc, IH.
Qed.

(** Either the whole of [s] is in the class, or the run stops inside
    [s]. *)
Lemma span_cases class s :
  (forallb class s = true /\ span class s = (s, []))
  \/ exists run c rest, s = run ++ c :: rest /\ forallb class run = true
                        /\ class c = false /\ span class s = (run, c :: rest).
Proof.
  induction s as [|x s IH]; simpl; [by left|].
  destruct (class x) eqn:Hx.
  - destruct IH as [[Hs ->]|(run & c & rest & -> & Hrun & Hc & ->)].
    + left. done.
    + right. exists (x :: run), c, rest. simpl. rewrite Hx. done.
  - right. exists [], x, s. done.
Qed.

(** ** One line *)

Lemma after_literal_app key rest : after_literal key (key ++ rest) = Some rest.
Proof.
  induction key as [|k key IH]; simpl; [by destruct rest|].
  by rewrite decide_True.
Qed.

Lemma after_literal_Some key line rest :
  after_literal key line = Some rest -> line = key ++ rest.
Proof.
  revert line. induction key as [|k key IH]; intros line; simpl.
  - destruct line; by intros [= <-].
  - destruct line as [|c line]; [done|]. case_decide; [|done]. subst.
    intros Hrest. by rewrite (IH _ Hrest).
Qed.

Lemma assigns_assignment key value : assigns key (assignment key value) = true.
Proof. unfold assigns, assignment. by rewrite after_literal_app. Qed.

(** A line assigns [key] exactly when it is [key], white space, [=] and
    anything. *)
Lemma assigns_shape key line :
  assigns key line = true <->
  exists spaces rest, line = key ++ spaces ++ 61%N :: rest
                      /\ forallb is_space spaces = true.
Proof.
  unfold assigns. split.
  - destruct (after_literal key line) as [tail|] eqn:Hkey; [|done].
    apply after_literal_Some in Hkey as ->.
    pose proof (span_eq is_space tail) as Heq.
    pose proof (span_run is_space tail) as Hrun.
    destruct (span is_space tail) as [spaces rest]. simpl in *.
    destruct rest as [|c rest]; [done|]. intros ->%N.eqb_eq.
    exists spaces, rest. by rewrite Heq.
  - intros (spaces & rest & -> & Hspaces).
    rewrite after_literal_app, span_stop by done. done.
Qed.

Lemma match_assignment_Some line name value :
  match_assignment line = Some (name, value) <->
  line = name ++ 61%N :: value /\ name <> []
  /\ forallb is_env_char name = true
  /\ forallb (fun c => negb (is_line_terminator c)) value = true.
Proof.
  unfold match_assignment. split.
  - pose proof (span_eq is_env_char line) as Heq.
    pose proof (span_run is_env_char line) as Hrun.
    destruct (span is_env_char line) as [[|n run] [|c rest]]; try done.
    simpl in Heq, Hrun.
    destruct (c =? 61)%N eqn:Hc; [|done]. apply N.eqb_eq in Hc as ->.
    destruct (forallb _ rest) eqn:Hrest; [|done]. simpl.
    intros [= <- <-]. done.
  - intros (-> & Hne & Hname & Hvalue).
    rewrite span_stop by done. destruct name; [done|]. by rewrite Hvalue.
Qed.

Lemma match_assignment_assignment key value :
  key <> [] -> forallb is_env_char key = true ->
  forallb (fun c => negb (is_line_terminator c)) value = true ->
  match_assignment (assignment key value) = Some (key, value).
Proof. intros. by apply match_assignment_Some. Qed.

(** A line that is parsed as an assignment to [name] is a line that
    assigns [name]. *)
Lemma match_assignment_assigns line name value :
  match_assignment line = Some (name, value) -> assigns name line = true.
Proof.
  intros (-> & _)%match_assignment_Some. apply assigns_shape.
  by exists [], value.
Qed.

Lemma forallb_app_inv {A} (p : A -> bool) (l1 l2 : list A) :
  forallb p (l1 ++ l2) = true -> forallb p l1 = true /\ forallb p l2 = true.
Proof. rewrite forallb_app. apply andb_true_iff. Qed.

(** A line that assigns a key of word characters is parsed, if at all,
    as an assignment to that key. *)
Lemma assigns_match_assignment key line name value :
  forallb is_word_char key = true ->
  assigns key line = true -> match_assignment line = Some (name, value) ->
  name = key.
Proof.
  intros Hword (spaces & rest & -> & Hspaces)%assigns_shape
         (Hline & Hne & Hname & _)%match_assignment_Some.
  assert (Htail : exists c tail, spaces ++ 61%N :: rest = c :: tail
                                 /\ is_env_char c = false
                                 /\ is_word_char c = false).
  { destruct spaces as [|c spaces]; simpl.
    - by exists 61%N, rest.
    - simpl in Hspaces. apply andb_true_iff in Hspaces as [Hc _].
      exists c, (spaces ++ 61%N :: rest).
      split_and!; [done|by apply space_not_env|by apply space_not_word]. }
  destruct Htail as (c & tail & Htail & Hc_env & Hc_word). rewrite Htail in Hline.
  clear Htail Hspaces spaces rest.
  revert name Hline Hne Hname. induction key as [|k key IH]; intros name Hline Hne Hname.
  - destruct name as [|n name]; [done|]. simpl in *. injection Hline as -> _.
    apply andb_true_iff in Hname as [Hn _]. congruence.
  - simpl in Hword. apply andb_true_iff in Hword as [Hk Hword].
    destruct name as [|n name]; [done|]. simpl in Hline, Hname.
    injection Hline as <- Hline. apply andb_true_iff in Hname as [Hn Hname].
    f_equal. destruct name as [|n' name].
    + simpl in Hline. destruct key as [|k' key]; [done|].
      simpl in Hline, Hword. injection Hline as -> _.
      apply andb_true_iff in Hword as [Hk' _]. done.
    + by apply IH.
Qed.

(** Two different keys of word characters are never assigned by the same
    line. *)
Lemma assigns_one_key key1 key2 line :
  forallb is_word_char key1 = true -> forallb is_word_char key2 = true ->
  assigns key1 line = true -> assigns key2 line = true -> key1 = key2.
Proof.
  intros Hw1 Hw2 (sp1 & r1 & -> & Hsp1)%assigns_shape
         (sp2 & r2 & Heq & Hsp2)%assigns_shape.
  assert (Hhead : forall sp r, forallb is_space sp = true ->
            exists c tail, sp ++ 61%N :: r = c :: tail /\ is_word_char c = false).
  { intros [|c sp] r Hsp; simpl.
    - by exists 61%N, r.
    - simpl in Hsp. apply andb_true_iff in Hsp as [Hc _].
      exists c, (sp ++ 61%N :: r). split; [done|by apply space_not_word]. }
  destruct (Hhead sp1 r1 Hsp1) as (c1 & t1 & Ht1 & Hc1).
  destruct (Hhead sp2 r2 Hsp2) as (c2 & t2 & Ht2 & Hc2).
  rewrite Ht1, Ht2 in Heq. clear Hhead Hsp1 Hsp2 Ht1 Ht2.
  revert key2 Hw2 Heq. induction key1 as [|k1 key1 IH]; intros key2 Hw2 Heq.
  - destruct key2 as [|k2 key2]; [done|]. simpl in *. injection Heq as -> _.
    apply andb_true_iff in Hw2 as [? _]. congruence.
  - simpl in Hw1. apply andb_true_iff in Hw1 as [Hk1 Hw1].
    destruct key2 as [|k2 key2].
    + simpl in Heq. injection Heq as -> _. congruence.
    + simpl in Heq, Hw2. injection Heq as -> Heq.
      apply andb_true_iff in Hw2 as [_ Hw2]. f_equal. by apply IH.
Qed.

(** ** [setEnvVar], line by line *)

Lemma setEnvVar_nil key value : setEnvVar [] key value = [assignment key value].
Proof. done. Qed.

Lemma setEnvVar_cons line lines key value :
  setEnvVar (line :: lines) key value
  = if assigns key line then assignment key value :: lines
    else line :: setEnvVar lines key value.
Proof.
  unfold setEnvVar. simpl. destruct (assigns key line); [done|].
  by destruct (findIndex (assigns key) lines).
Qed.

(** ** [parseEnvFile], line by line *)

Lemma parse_line_other envObj line name :
  (forall value, match_assignment line <> Some (name, value)) ->
  parse_line envObj line !! name = envObj !! name.
Proof.
  intros Hother. unfold parse_line.
  destruct (match_assignment line) as [[n v]|] eqn:Hm; [|done].
  rewrite lookup_insert_ne; [done|]. intros ->. by eapply Hother.
Qed.

Lemma parse_line_agree env1 env2 line name :
  env1 !! name = env2 !! name ->
  parse_line env1 line !! name = parse_line env2 line !! name.
Proof.
  intros Hagree. unfold parse_line.
  destruct (match_assignment line) as [[n v]|]; [|done].
  destruct (decide (n = name)) as [->|Hne].
  - by rewrite !lookup_insert_eq.
  - by rewrite !lookup_insert_ne.
Qed.

Lemma parse_lines_agree env1 env2 lines name :
  env1 !! name = env2 !! name ->
  foldl parse_line env1 lines !! name = foldl parse_line env2 lines !! name.
Proof.
  revert env1 env2. induction lines as [|l lines IH]; intros env1 env2 Hagree; simpl.
  - done.
  - by apply IH, parse_line_agree.
Qed.

Lemma parse_lines_other envObj lines name :
  (forall line, line ∈ lines -> assigns name line = false) ->
  foldl parse_line envObj lines !! name = envObj !! name.
Proof.
  revert envObj. induction lines as [|l lines IH]; intros envObj Hnone; simpl; [done|].
  rewrite IH by (intros line Hline; apply Hnone; set_solver).
  apply parse_line_other. intros value Hm.
  apply match_assignment_assigns in Hm. rewrite Hnone in Hm by set_solver. done.
Qed.

Lemma env_name_literal key : env_name key -> literal_key key.
Proof.
  intros [_ Henv]. unfold literal_key.
  apply forallb_forall. intros c Hc. rewrite forallb_forall in Henv.
  by apply env_is_word, Henv.
Qed.

(** ** Setting a variable and reading it back *)

Lemma setEnvVar_lookup envObj lines key value :
  env_name key -> one_line value -> assigned_once key lines ->
  foldl parse_line envObj (setEnvVar lines key value) !! key = Some value.
Proof.
  intros [Hne Henv] Hvalue. unfold assigned_once.
  revert envObj. induction lines as [|l lines IH]; intros envObj Honce.
  - simpl. unfold parse_line. rewrite match_assignment_assignment by done.
    by rewrite lookup_insert_eq.
  - rewrite setEnvVar_cons. rewrite filter_cons in Honce.
    destruct (assigns key l) eqn:Hl.
    + rewrite decide_True in Honce by done. simpl in Honce.
      assert (Hnil : filter (fun line => assigns key line = true) lines = [])
        by (apply nil_length_inv; lia).
      simpl. rewrite parse_lines_other.
      * unfold parse_line. rewrite match_assignment_assignment by done.
        by rewrite lookup_insert_eq.
      * intros line Hline. destruct (assigns key line) eqn:Hline'; [|done].
        assert (line ∈ filter (fun line => assigns key line = true) lines)
          by (by apply list_elem_of_filter).
        rewrite Hnil in *. by apply elem_of_nil in H.
    + rewrite decide_False in Honce by done. simpl. by apply IH.
Qed.

(** X16.  A variable set with [setEnvVar] is read back by
    [parseEnvFile]: when the key is a name the parser recognises, the
    value holds no line terminator and at most one line of the file
    assigned the key before, the parsed file maps the key to the
    value. *)
Theorem setEnvVar_parseEnvFile (lines : list js_string) (key value : js_string) :
  env_name key -> one_line value -> assigned_once key lines ->
  parseEnvFile (setEnvVar lines key value) !! key = Some value.
Proof. intros. by apply setEnvVar_lookup. Qed.

Lemma setEnvVar_lookup_other envObj lines key value name :
  literal_key key -> name <> key ->
  foldl parse_line envObj (setEnvVar lines key value) !! name
  = foldl parse_line envObj lines !! name.
Proof.
  intros Hkey Hname.
  assert (Hline : forall env line, assigns key line = true ->
            parse_line env line !! name = env !! name).
  { intros env line Hline. apply parse_line_other. intros v Hm.
    apply Hname. by eapply assigns_match_assignment. }
  revert envObj. induction lines as [|l lines IH]; intros envObj.
  - simpl. apply Hline, assigns_assignment.
  - rewrite setEnvVar_cons. destruct (assigns key l) eqn:Hl; simpl.
    + apply parse_lines_agree.
      rewrite !Hline; [done|done|apply assigns_assignment].
    + apply IH.
Qed.

(** X17.  [setEnvVar] for a key of word characters changes what
    [parseEnvFile] reads for that key only: every other name is read as
    before. *)
Theorem setEnvVar_other_names (lines : list js_string) (key value name : js_string) :
  literal_key key -> name <> key ->
  parseEnvFile (setEnvVar lines key value) !! name = parseEnvFile lines !! name.
Proof. intros. by apply setEnvVar_lookup_other. Qed.


(** ** Writing the file and reading it again *)

Lemma split_lines_line line :
  10%N ∉ line -> split_lines line = [line].
Proof.
  induction line as [|c line IH]; intros Hnl; simpl; [done|].
  rewrite not_elem_of_cons in Hnl. destruct Hnl as [Hc Hline].
  destruct (c =? 10)%N eqn:Hc'; [apply N.eqb_eq in Hc'; congruence|].
  by rewrite IH.
Qed.

Lemma split_lines_app line content :
  10%N ∉ line -> split_lines (line ++ 10%N :: content) = line :: split_lines content.
Proof.
  induction line as [|c line IH]; intros Hnl; simpl; [done|].
  rewrite not_elem_of_cons in Hnl. destruct Hnl as [Hc Hline].
  destruct (c =? 10)%N eqn:Hc'; [apply N.eqb_eq in Hc'; congruence|].
  by rewrite IH.
Qed.

(** Lines without a newline, joined and split again, are the same
    lines. *)
Lemma split_join_lines lines :
  lines <> [] -> (forall line, line ∈ lines -> 10%N ∉ line) ->
  split_lines (join_lines lines) = lines.
Proof.
  induction lines as [|l lines IH]; intros Hne Hnl; [done|].
  destruct lines as [|l' lines].
  - simpl. apply split_lines_line, Hnl. set_solver.
  - change (join_lines (l :: l' :: lines)) with (l ++ 10%N :: join_lines (l' :: lines)).
    rewrite split_lines_app by (apply Hnl; set_solver).
    rewrite IH; [done|done|]. intros line Hline. apply Hnl. set_solver.
Qed.

Lemma blank_not_assignment line :
  forallb is_space line = true -> match_assignment line = None.
Proof.
  intros Hblank. destruct (match_assignment line) as [[name value]|] eqn:Hm; [|done].
  apply match_assignment_Some in Hm as (-> & Hne & Hname & _).
  destruct name as [|c name]; [done|]. simpl in *.
  apply andb_true_iff in Hblank as [Hc _]. apply andb_true_iff in Hname as [Hc' _].
  apply space_not_env in Hc. congruence.
Qed.

Lemma parse_lines_nonblank envObj lines :
  foldl parse_line envObj (filter (fun l => forallb is_space l = false) lines)
  = foldl parse_line envObj lines.
Proof.
  revert envObj. induction lines as [|l lines IH]; intros envObj; [done|].
  rewrite filter_cons. destruct (forallb is_space l) eqn:Hl.
  - rewrite decide_False by done. simpl. rewrite IH.
    assert (parse_line envObj l = envObj) as ->; [|done].
    unfold parse_line. by rewrite blank_not_assignment.
  - rewrite decide_True by done. simpl. apply IH.
Qed.

(** X19.  What [main] writes to [.env] is read back as it was parsed
    before writing: splitting the written text at newlines and parsing
    it gives what parsing the lines in memory gives, provided no line
    holds a newline. *)
Theorem env_file_round_trip (envLines : list js_string) :
  (forall line, line ∈ envLines -> 10%N ∉ line) ->
  parseEnvFile (split_lines (envFileContent envLines)) = parseEnvFile envLines.
Proof.
  intros Hnl. unfold envFileContent, parseEnvFile.
  rewrite <- (parse_lines_nonblank ∅ envLines).
  destruct (filter (fun l => forallb is_space l = false) envLines) as [|l ls] eqn:Hf.
  - done.
  - rewrite split_join_lines; [done|done|].
    intros line Hline. apply Hnl. rewrite <- Hf in Hline.
    by apply list_elem_of_filter in Hline as [_ ?].
Qed.

(** ** The three updates of [main] *)

Lemma setEnvVar_filter_other lines key value name :
  literal_key key -> literal_key name -> name <> key ->
  length (filter (fun line => assigns name line = true) (setEnvVar lines key value))
  = length (filter (fun line => assigns name line = true) lines).
Proof.
  intros Hkey Hname Hne.
  assert (Hnot : forall line, assigns key line = true -> assigns name line = false).
  { intros line Hline. destruct (assigns name line) eqn:Hline'; [|done].
    destruct Hne. by eapply assigns_one_key. }
  induction lines as [|l lines IH].
  - rewrite setEnvVar_nil. rewrite filter_cons, decide_False; [done|].
    rewrite Hnot; [done|apply assigns_assignment].
  - rewrite setEnvVar_cons. destruct (assigns key l) eqn:Hl.
    + rewrite !filter_cons. rewrite !decide_False; [done| |].
      * by rewrite (Hnot l).
      * rewrite Hnot; [done|apply assigns_assignment].
    + rewrite !filter_cons. case_decide; simpl; by rewrite IH.
Qed.

Lemma setEnvVar_assigned_once lines key value name :
  literal_key key -> literal_key name -> name <> key ->
  assigned_once name lines -> assigned_once name (setEnvVar lines key value).
Proof.
  intros. unfold assigned_once. by rewrite setEnvVar_filter_other.
Qed.

(** X20.  After the three updates of [main], the lines in memory parse
    to the hostname, the tunnel name and the tunnel id under their keys,
    when these values hold no line terminator and the file had at most
    one line assigning each of the three keys; every other name parses
    as before. *)
Theorem updateEnv_parseEnvFile (envLines : list js_string)
    (hostname tunnelName tunnelId : js_string) :
  one_line hostname -> one_line tunnelName -> one_line tunnelId ->
  assigned_once (js "CLOUDFLARED_TUNNEL_HOSTNAME") envLines ->
  assigned_once (js "CLOUDFLARED_TUNNEL_NAME") envLines ->
  assigned_once (js "CLOUDFLARED_TUNNEL_ID") envLines ->
  let envVars := parseEnvFile (updateEnv envLines hostname tunnelName tunnelId) in
  envVars !! js "CLOUDFLARED_TUNNEL_HOSTNAME" = Some hostname
  /\ envVars !! js "CLOUDFLARED_TUNNEL_NAME" = Some tunnelName
  /\ envVars !! js "CLOUDFLARED_TUNNEL_ID" = Some tunnelId
  /\ forall name, name <> js "CLOUDFLARED_TUNNEL_HOSTNAME" ->
       name <> js "CLOUDFLARED_TUNNEL_NAME" -> name <> js "CLOUDFLARED_TUNNEL_ID" ->
       envVars !! name = parseEnvFile envLines !! name.
Proof.
  intros Hh Hn Hi HonceH HonceN HonceI envVars. unfold envVars, updateEnv.
  set (H := js "CLOUDFLARED_TUNNEL_HOSTNAME") in *.
  set (Nm := js "CLOUDFLARED_TUNNEL_NAME") in *.
  set (I := js "CLOUDFLARED_TUNNEL_ID") in *.
  assert (HH : env_name H) by (split; [done|by vm_compute]).
  assert (HN : env_name Nm) by (split; [done|by vm_compute]).
  assert (HI : env_name I) by (split; [done|by vm_compute]).
  assert (HHN : H <> Nm) by (by vm_compute).
  assert (HHI : H <> I) by (by vm_compute).
  assert (HNI : Nm <> I) by (by vm_compute).
  pose proof (env_name_literal _ HH) as LH.
  pose proof (env_name_literal _ HN) as LN.
  pose proof (env_name_literal _ HI) as LI.
  clearbody H Nm I.
  unfold parseEnvFile. split_and!.
  - rewrite setEnvVar_lookup_other by done.
    rewrite setEnvVar_lookup_other by done.
    by apply setEnvVar_lookup.
  - rewrite setEnvVar_lookup_other by done.
    apply setEnvVar_lookup; [done|done|].
    by apply setEnvVar_assigned_once.
  - apply setEnvVar_lookup; [done|done|].
    apply setEnvVar_assigned_once; [done|done|done|].
    by apply setEnvVar_assigned_once.
  - intros name H1 H2 H3. by rewrite !setEnvVar_lookup_other by done.
Qed.

(** * The configuration template *)

Lemma match_placeholder_shorter s name rest :
  match_placeholder s = Some (name, rest) ->
  s = placeholder name ++ rest /\ name <> []
  /\ forallb is_placeholder_char name = true.
Proof.
  unfold match_placeholder, placeholder.
  destruct s as [|c1 [|c2 s]]; try done.
  destruct (c1 =? 36)%N eqn:Hc1; [|done]. apply N.eqb_eq in Hc1 as ->.
  destruct (c2 =? 123)%N eqn:Hc2; [|done]. apply N.eqb_eq in Hc2 as ->. simpl.
  pose proof (span_eq is_placeholder_char s) as Heq.
  pose proof (span_run is_placeholder_char s) as Hrun.
  destruct (span is_placeholder_char s) as [[|n run] [|c rest']]; try done.
  destruct (c =? 125)%N eqn:Hc; [|done]. apply N.eqb_eq in Hc as ->.
  intros [= <- <-]. simpl in *. rewrite <- Heq. rewrite <- app_assoc. done.
Qed.

Lemma match_placeholder_placeholder name rest :
  name <> [] -> forallb is_placeholder_char name = true ->
  match_placeholder (placeholder name ++ rest) = Some (name, rest).
Proof.
  intros Hne Hname. unfold match_placeholder, placeholder. simpl.
  rewrite <- app_assoc. simpl. rewrite span_stop by done.
  by destruct name.
Qed.

(** ** Fuel *)

Lemma replace_fuel value fuel fuel' s :
  length s < fuel -> length s < fuel' ->
  replace value fuel s = replace value fuel' s.
Proof.
  revert fuel' s. induction fuel as [|fuel IH]; intros fuel' s Hf Hf'; [lia|].
  destruct fuel' as [|fuel']; [lia|]. simpl.
  destruct (match_placeholder s) as [[name rest]|] eqn:Hm.
  - apply match_placeholder_shorter in Hm as (-> & _).
    f_equal. apply IH.
    + unfold placeholder in Hf. simpl in Hf. rewrite !length_app in Hf. simpl in Hf. lia.
    + unfold placeholder in Hf'. simpl in Hf'. rewrite !length_app in Hf'.
      simpl in Hf'. lia.
  - destruct s as [|c s]; [done|]. f_equal. apply IH; simpl in *; lia.
Qed.

Section Render.
Variable value : js_string -> js_string.

Notation render s := (replace value (S (length (s : js_string))) s).

Lemma render_nil : render [] = [].
Proof. done. Qed.

Lemma replace_S fuel s :
  replace value (S fuel) s
  = match match_placeholder s with
    | Some (name, rest) => value name ++ replace value fuel rest
    | None => match s with
              | [] => []
              | c :: s' => c :: replace value fuel s'
              end
    end.
Proof. done. Qed.

Lemma render_match s name rest :
  match_placeholder s = Some (name, rest) ->
  render s = value name ++ render rest.
Proof.
  intros Hm. rewrite (replace_S (length s)), Hm. f_equal.
  apply match_placeholder_shorter in Hm as (-> & _).
  apply replace_fuel; [|lia].
  unfold placeholder. simpl. rewrite !length_app. simpl. lia.
Qed.

Lemma render_skip c s :
  match_placeholder (c :: s) = None -> render (c :: s) = c :: render s.
Proof. intros Hm. by rewrite (replace_S (length (c :: s))), Hm. Qed.

(** What an attempt at the head of [s] finds does not depend on a text
    added behind [s] that starts with a dollar sign. *)
Lemma match_placeholder_app s tail :
  s <> [] ->
  match_placeholder (s ++ 36%N :: tail)
  = (fun m => (m.1, m.2 ++ 36%N :: tail)) <$> match_placeholder s.
Proof.
  intros Hne. unfold match_placeholder.
  destruct s as [|c1 s]; [done|]. clear Hne. simpl.
  destruct s as [|c2 s]; simpl.
  { destruct (c1 =? 36)%N; done. }
  destruct ((c1 =? 36)%N && (c2 =? 123)%N); [|done].
  destruct (span_cases is_placeholder_char s)
    as [[Hall Hs]|(run & c & rest & -> & Hrun & Hc & Hs)].
  - rewrite Hs. rewrite span_stop by done. by destruct s.
  - rewrite Hs. rewrite <- app_assoc. simpl. rewrite span_stop by done.
    destruct run as [|n run]; [done|]. by destruct (c =? 125)%N.
Qed.

Lemma render_app_placeholder pre name post :
  name <> [] -> forallb is_placeholder_char name = true ->
  render (pre ++ placeholder name ++ post)
  = render pre ++ value name ++ render post.
Proof.
  intros Hne Hname.
  remember (length pre) as n eqn:Hn. revert pre Hn.
  induction n as [n IH] using lt_wf_ind. intros pre ->.
  destruct pre as [|c pre].
  - rewrite app_nil_l, render_nil, app_nil_l.
    apply render_match. by apply match_placeholder_placeholder.
  - assert (Htail : placeholder name ++ post
                    = 36%N :: (123%N :: name ++ [125%N]) ++ post) by done.
    pose proof (match_placeholder_app (c :: pre) ((123%N :: name ++ [125%N]) ++ post)
                  ltac:(done)) as Happ.
    rewrite <- Htail in Happ.
    destruct (match_placeholder (c :: pre)) as [[name' rest]|] eqn:Hm.
    + change (match_placeholder ((c :: pre) ++ placeholder name ++ post)
              = Some (name', rest ++ placeholder name ++ post)) in Happ.
      rewrite (render_match _ _ _ Happ), (render_match _ _ _ Hm).
      rewrite <- app_assoc. f_equal.
      apply (IH (length rest)); [|done].
      apply match_placeholder_shorter in Hm as (Hm & _). rewrite Hm.
      unfold placeholder. simpl. rewrite !length_app. simpl. lia.
    + change (match_placeholder ((c :: pre) ++ placeholder name ++ post) = None)
        in Happ.
      rewrite <- app_comm_cons in Happ |- *.
      rewrite render_skip by done.
      rewrite (render_skip c pre) by done. rewrite <- app_comm_cons. f_equal.
      apply (IH (length pre)); [simpl; lia|done].
Qed.

Lemma render_plain s : 36%N ∉ s -> render s = s.
Proof.
  induction s as [|c s IH]; intros Hs; [done|].
  rewrite not_elem_of_cons in Hs. destruct Hs as [Hc Hs].
  rewrite render_skip; [by rewrite IH|].
  unfold match_placeholder. destruct s as [|c' s]; [done|].
  destruct (c =? 36)%N eqn:Hc'; [apply N.eqb_eq in Hc'; congruence|done].
Qed.
End Render.

(** X21.  A placeholder names a variable and is replaced by its value,
    wherever it stands: the text of [config.yml] for a template that
    holds [${name}], with a name of capital letters and underscores, is
    the text for what precedes the placeholder, then the value of the
    variable (the process environment first, the [.env] file second, the
    empty string when neither has it), then the text for what follows. *)
Theorem configYml_placeholder (processEnv envVars : gmap js_string js_string)
    (pre name post : js_string) :
  name <> [] -> forallb is_placeholder_char name = true ->
  configYml processEnv envVars (pre ++ placeholder name ++ post)
  = configYml processEnv envVars pre
    ++ lookup_variable processEnv envVars name
    ++ configYml processEnv envVars post.
Proof. intros. by apply render_app_placeholder. Qed.

(** X22.  A template without a dollar sign is copied to [config.yml] as
    it is. *)
Theorem configYml_plain (processEnv envVars : gmap js_string js_string)
    (template : js_string) :
  36%N ∉ template -> configYml processEnv envVars template = template.
Proof. intros. by apply render_plain. Qed.

(** * The recent-events report *)

(** X23.  [fetchRecentEvents] prints the ten most recent events of the
    target, or all of them when there are fewer: the rows are events of
    the target, each no more often than the target holds it, most recent
    first (date, then id, descending), and an event that is left out is
    no more recent than any that is printed. *)
Theorem recent_events (db : Database) :
  let rows := fetchRecentEvents db in
  length rows = length (events db) `min` 10
  /\ StronglySorted event_date_desc_id_desc rows
  /\ rows ⊆+ events db
  /\ (forall e, e ∈ events db -> e ∉ rows ->
        length rows = 10 /\ forall r, r ∈ rows -> event_date_desc_id_desc r e).
Proof.
  intros rows. unfold rows, fetchRecentEvents.
  set (all := merge_sort event_date_desc_id_desc (events db)).
  assert (Hperm : all ≡ₚ events db) by apply merge_sort_Permutation.
  assert (Hsorted : StronglySorted event_date_desc_id_desc all)
    by (apply StronglySorted_merge_sort; apply _).
  assert (Hsplit : all = take 10 all ++ drop 10 all) by (by rewrite take_drop).
  split_and!.
  - rewrite length_take, (Permutation_length Hperm). lia.
  - rewrite Hsplit in Hsorted. by apply StronglySorted_app_1_l in Hsorted.
  - rewrite <- Hperm. apply sublist_submseteq, sublist_take.
  - intros e He Hout.
    assert (Hin : e ∈ all) by (by rewrite Hperm).
    rewrite Hsplit in Hin. apply elem_of_app in Hin as [?|Hin]; [done|].
    split.
    + rewrite length_take.
      destruct (decide (length all <= 10)) as [Hle|?]; [|lia].
      rewrite drop_ge in Hin by done. by apply elem_of_nil in Hin.
    + intros r Hr. rewrite Hsplit in Hsorted.
      by eapply StronglySorted_app_1_elem_of.
Qed.

Import Examples Scenarios.

#[local] Existing Instance node.

(** * The claims at concrete inputs *)

(** Scenario 3 of the specification: event 200, with eight players, some
    matches and no standings, is classified incomplete and returned;
    event 201, with no player, is not. *)
Lemma incomplete_classification_witness :
  getIncompleteEventIds target_incomplete = [200%Z]
  /\ (where_incomplete target_incomplete (event 200 20240201 (Some 8%Z)) = true <->
      (exists n, e_players (event 200 20240201 (Some 8%Z)) = Some n /\ (0 < n)%Z)
      /\ (200%Z ∉ s_event_id <$> standings target_incomplete
          \/ 200%Z ∉ m_event_id <$> matches target_incomplete))
  /\ length (incompleteEvents target_incomplete) <= 100.
Proof.
  destruct (incomplete_classification target_incomplete)
    as (Hwhere & _ & _ & Hlen & _ & _ & _).
  split_and!; [reflexivity| |exact Hlen].
  apply (Hwhere (event 200 20240201 (Some 8%Z))).
Defined.

(** Two standings written twice to a target that has their event and
    players. *)
Lemma upsert_twice_witness :
  let rows := [standing 100 1 "Alice"; standing 100 2 "Bob"] in
  let w := mkWorld target_ready [] in
  let w1 := (write standings_category rows w).2 in
  standings_category ∈ categories
  /\ write standings_category rows w = (Returned 2, w1)
  /\ standings (target w1) = rows
  /\ NoDup (standing_key <$> standings (target w1))
  /\ exists j, write standings_category rows w1 = (Returned 2, mkWorld (target w1) j).
Proof.
  intros rows w w1.
  assert (Hc : standings_category ∈ categories) by (apply list_elem_of_In; simpl; by left).
  assert (Hrun : write standings_category rows w = (Returned 2, w1))
    by (vm_compute; reflexivity).
  destruct upsert_twice as (Hcategory & _ & _).
  destruct (Hcategory standings_category rows w w1 2 Hc Hrun)
    as (Hnd & _ & _ & Hagain).
  split_and!; [exact Hc|exact Hrun|reflexivity| |exact Hagain].
  apply Hnd. simpl. constructor.
Defined.

(** Scenario 1 run twice: event 100 has standings upstream but no
    matches, so it is still incomplete after the first run and is on the
    second run's worklist; the second run leaves the target as it is. *)
Lemma second_run_identical_witness :
  let w := mkWorld empty_db [] in
  let w1 := (sync upstream_alice w).2 in
  upstream_keys_unique upstream_alice
  /\ (exists s1, sync upstream_alice w = (Returned s1, w1))
  /\ getIncompleteEventIds (target w1) = [100%Z]
  /\ allEventIdsToSync upstream_alice (target w) = [100%Z]
  /\ size (getLocalEventIds (target w1)) < PARAMETER_LIMIT
  /\ length (negativeIds (players (target w1))) <= max_arguments
  /\ exists s2 j2,
       sync upstream_alice w1 = (Returned s2, mkWorld (target w1) j2)
       /\ new_events s2 = 0
       /\ stats_events (stats s2) = 0
       /\ stats_players (stats s2) = 0.
Proof.
  intros w w1.
  assert (Hkeys : upstream_keys_unique upstream_alice).
  { unfold upstream_keys_unique. simpl.
    split_and!; try constructor; try constructor; apply not_elem_of_nil. }
  assert (Hrun : sync upstream_alice w
                 = (Returned (mkSummary 1 0 1 (mkStats 1 1 0 0 1 0)), w1))
    by (vm_compute; reflexivity).
  assert (Hinc : getIncompleteEventIds (target w1) = [100%Z])
    by (vm_compute; reflexivity).
  assert (Hall : allEventIdsToSync upstream_alice (target w) = [100%Z])
    by (vm_compute; reflexivity).
  assert (Hwork : forall e, e ∈ getIncompleteEventIds (target w1) ->
                            e ∈ allEventIdsToSync upstream_alice (target w)).
  { intros e. rewrite Hinc, Hall. done. }
  assert (Hsize : size (getLocalEventIds (target w1)) < PARAMETER_LIMIT)
    by (apply Nat.ltb_lt; vm_compute; reflexivity).
  assert (Hspread : length (negativeIds (players (target w1))) <= max_arguments)
    by (apply Nat.leb_le; vm_compute; reflexivity).
  destruct (second_run_identical upstream_alice w w1 _ Hkeys Hrun Hwork Hsize Hspread)
    as (s2 & j2 & Hrun2 & Hn & He & Hp & _).
  split_and!; [exact Hkeys|eexists; exact Hrun|exact Hinc|exact Hall|exact Hsize
               |exact Hspread|].
  exists s2, j2. split_and!; [exact Hrun2|exact Hn|exact He|exact Hp].
Defined.


(** Scenario 2 of the specification: Alice's upstream id 7 belongs to
    Bob on the target, so she is given -1. *)
Lemma synthesized_ids_disjoint_witness :
  let st := players_runs target_bob [(upstream_alice, [100%Z])] in
  NoDup (p_id <$> players target_bob)
  /\ st.2 = [mkPlayer (-1) "Alice"]
  /\ players st.1 = [mkPlayer 7 "Bob"; mkPlayer (-1) "Alice"]
  /\ NoDup (p_id <$> st.2)
  /\ (forall p, p ∈ st.2 ->
        (p_id p < 0)%Z /\ p ∈ players st.1 /\ p_id p ∉ p_id <$> players target_bob).
Proof.
  intros st.
  assert (Hnd : NoDup (p_id <$> players target_bob)).
  { simpl. constructor; [apply not_elem_of_nil|constructor]. }
  destruct (synthesized_ids_disjoint target_bob [(upstream_alice, [100%Z])] Hnd)
    as (Hsynth & Hall & _ & _).
  split_and!; [exact Hnd|reflexivity|reflexivity|exact Hsynth|exact Hall].
Defined.

(** [upstream_full] against an empty target: the six stages run one after
    the other, each of them writes, and the journal holds their
    statements in the order of the stages. *)
Lemma pipeline_order_witness :
  let w := mkWorld empty_db [] in
  let new := upstreamEvents upstream_full (getLocalEventIds empty_db) in
  let stages := in_order (pipeline upstream_full new [100%Z]) w in
  allEventIdsToSync upstream_full empty_db = [100%Z]
  /\ stages.1 = Returned [2; 1; 2; 1; 1; 1]
  /\ sync upstream_full w
     = (Returned (mkSummary 1 0 1 (mkStats 1 2 1 1 2 1)), stages.2)
  /\ journal stages.2
     = [(Players, 2); (Events, 1); (Standings, 2); (Matches, 1); (Decks, 1);
        (Archetypes, 1)]
  /\ events (target stages.2) = [event 100 20240101 (Some 8%Z)].
Proof.
  intros w new stages.
  assert (Hall : allEventIdsToSync upstream_full empty_db = [100%Z])
    by (vm_compute; reflexivity).
  assert (Hstages : stages = (Returned [2; 1; 2; 1; 1; 1], stages.2))
    by (vm_compute; reflexivity).
  assert (Hsize : size (getLocalEventIds (target w)) < PARAMETER_LIMIT)
    by (apply Nat.ltb_lt; vm_compute; reflexivity).
  assert (HE : allEventIdsToSync upstream_full (target w) <> [])
    by (change (target w) with empty_db; rewrite Hall; discriminate).
  destruct (pipeline_order upstream_full w) as (Horder & _).
  specialize (Horder Hsize HE).
  change (target w) with empty_db in Horder. rewrite Hall in Horder.
  fold new in Horder. fold stages in Horder. rewrite Hstages in Horder.
  split_and!; [exact Hall|by rewrite Hstages|exact Horder
               |vm_compute; reflexivity|vm_compute; reflexivity].
Defined.

(** ** Where the claims as written fail *)

(** C1.  The input on which the reconciler fails the claim: an upstream
    that is itself a synced copy holds Alice under the synthesized id -1,
    which the target gave to Bob.  Her upstream id collides with a
    different target player, so she is to get the next negative id, -2;
    the reconciler tests positive ids only, keeps -1, and the insert is
    rejected: the run aborts. *)
Lemma reconciler_negative_collision :
  let names := referencedPlayerNames upstream_negative [100%Z] in
  upstreamPlayerMap (upstreamPlayers upstream_negative names) !! "Alice"
  = Some (Some (-1)%Z)
  /\ mkPlayer (-1) "Bob" ∈ players target_negative
  /\ (minNegativeId (players target_negative) - 1 = -2)%Z
  /\ playersToSync upstream_negative names (players target_negative)
     = [mkPlayer (-1) "Alice"]
  /\ insert_players [mkPlayer (-1) "Alice"] target_negative = None
  /\ sync upstream_negative (mkWorld target_negative [])
     = (Thrown, mkWorld target_negative [(Players, 1)]).
Proof.
  intros names. split_and!; try (vm_compute; reflexivity).
  apply list_elem_of_In. simpl. by left.
Qed.

(** C2 as written: an event whose player count is nonzero and that has no
    standing row is to be classified incomplete.  Event 6 declares the
    count -3 and has no rows at all; the query does not return it. *)
Lemma incomplete_nonzero_counterexample :
  let e := event 6 20240301 (Some (-3)%Z) in
  e ∈ events target_negative_count
  /\ (exists n, e_players e = Some n /\ n <> 0%Z)
  /\ e_id e ∉ s_event_id <$> standings target_negative_count
  /\ where_incomplete target_negative_count e = false
  /\ getIncompleteEventIds target_negative_count = [].
Proof.
  intros e. split_and!; try (vm_compute; reflexivity).
  - apply list_elem_of_In. simpl. by left.
  - exists (-3)%Z. split; [reflexivity|discriminate].
  - simpl. apply not_elem_of_nil.
Qed.

(** C4 as written: the second run is to leave the target as it is and
    report zeros.  With one event that stays incomplete the second run
    changes nothing yet reports one standing; with 101 incomplete events
    on the target the first run handles the 100 most recent and the
    second run writes the remaining one. *)
Lemma second_run_counterexample :
  (let r1 := sync upstream_alice (mkWorld empty_db []) in
   let r2 := sync upstream_alice r1.2 in
   target r2.2 = target r1.2
   /\ r2.1 = Returned (mkSummary 0 1 1 (mkStats 0 0 0 0 1 0)))
  /\ (let r1 := sync upstream_many (mkWorld target_many []) in
      let r2 := sync upstream_many r1.2 in
      r1.1 = Returned (mkSummary 0 100 100 (mkStats 0 0 100 0 100 0))
      /\ r2.1 = Returned (mkSummary 0 1 1 (mkStats 0 0 1 0 1 0))
      /\ length (standings (target r1.2)) = 100
      /\ length (standings (target r2.2)) = 101).
Proof. split; cbv zeta; split_and!; vm_compute; reflexivity. Qed.

(** C8 as written: the decks selected are to be those whose player and
    event are on the target.  The snapshot's deck 5 belongs to event 999,
    which the target lacks, and is selected all the same; its insert is
    rejected and skipped. *)
Lemma merge_deck_selection_counterexample :
  newDecks snapshot_orphan target_ready = [deck 5 999 "Alice"]
  /\ 999%Z ∉ e_id <$> events target_ready
  /\ for_each_try Decks merge_insert_deck (newDecks snapshot_orphan target_ready) 0
       (mkWorld target_ready [])
     = (Returned 0, mkWorld target_ready [(Decks, 1)]).
Proof.
  split_and!; try (vm_compute; reflexivity).
  simpl. intros Hin. apply list_elem_of_In in Hin. simpl in Hin.
  destruct Hin as [[=]|[]].
Qed.

(** C9 as written: a record that violates a constraint is to be skipped
    and the stage is to go on.  In the sync, the match of a player the
    target lacks makes [syncMatches] throw, and the valid match after it
    is not written; a player row whose id is taken makes the whole run
    throw before any event is written. *)
Lemma sync_violation_counterexample :
  syncMatches upstream_ghost [100%Z] (mkWorld target_ready [])
  = (Thrown, mkWorld target_ready [(Matches, 2)])
  /\ sync upstream_negative (mkWorld target_negative [])
     = (Thrown, mkWorld target_negative [(Players, 1)]).
Proof. split; vm_compute; reflexivity. Qed.

(** * The further properties at concrete inputs *)

Ltac in_list := apply list_elem_of_In; simpl; tauto.

(** Event 100 of [upstream_alice] against an empty target: Alice is
    inserted, and her standing can resolve its player. *)
Lemma players_stage_resolves_witness :
  let w := mkWorld empty_db [] in
  let w' := (syncPlayers upstream_alice [100%Z] w).2 in
  syncPlayers upstream_alice [100%Z] w = (Returned 1, w')
  /\ references_player (target w') "Alice" = true.
Proof.
  intros w w'.
  assert (Hrun : syncPlayers upstream_alice [100%Z] w = (Returned 1, w'))
    by (vm_compute; reflexivity).
  destruct (players_stage_resolves upstream_alice [100%Z] w w' 1 Hrun) as (HS & _ & _).
  split; [exact Hrun|].
  apply (HS (standing 100 1 "Alice")); in_list.
Defined.

Lemma upstream_full_schema : upstream_schema upstream_full.
Proof.
  unfold upstream_schema, upstream_keys_unique. simpl.
  split_and!; try (apply (bool_decide_unpack _); vm_compute; exact I).
  intros p id Hp. apply list_elem_of_In in Hp. simpl in Hp.
  destruct Hp as [<-|[<-|[]]]; simpl; intros [= <-]. lia.
Qed.

Lemma target_bob_within : run_within upstream_full target_bob.
Proof.
  unfold run_within. cbv zeta. split_and!.
  - apply Nat.ltb_lt. vm_compute. reflexivity.
  - apply (bool_decide_unpack _). vm_compute. exact I.
  - apply Nat.ltb_lt. vm_compute. reflexivity.
  - apply Nat.ltb_lt. vm_compute. reflexivity.
  - apply Z.leb_le. vm_compute. reflexivity.
Qed.

(** [upstream_full] against a target on which Alice's upstream id 7 is
    Bob's: the run returns, Alice gets -1 and Bob is left alone. *)
Lemma sync_returns_witness :
  let w := mkWorld target_bob [] in
  upstream_schema upstream_full
  /\ run_within upstream_full target_bob
  /\ (exists j', sync upstream_full w
                 = (Returned (sync_summary upstream_full target_bob),
                    mkWorld (sync_result upstream_full target_bob) j'))
  /\ players (sync_result upstream_full target_bob)
     = [mkPlayer 7 "Bob"; mkPlayer (-1) "Alice"]
  /\ sync_summary upstream_full target_bob = mkSummary 1 0 1 (mkStats 1 1 1 1 2 1).
Proof.
  intros w.
  split_and!; [exact upstream_full_schema|exact target_bob_within|
               |vm_compute; reflexivity..].
  exact (sync_returns upstream_full w upstream_full_schema target_bob_within).
Defined.

(** [upstream_full] against an empty target: every upstream row is found
    on the target afterwards. *)
Lemma sync_mirrors_upstream_witness :
  let w := mkWorld empty_db [] in
  let w' := (sync upstream_full w).2 in
  upstream_keys_unique upstream_full
  /\ sync upstream_full w = (Returned (mkSummary 1 0 1 (mkStats 1 2 1 1 2 1)), w')
  /\ present standing_key (standings (target w')) (standing 100 2 "Bob")
  /\ present match_key (matches (target w')) (game 1 100 1 "Alice" "Bob")
  /\ present d_id (decks (target w')) (deck 5 100 "Alice")
  /\ present a_id (archetypes (target w')) (archetype 9 5)
  /\ present e_id (events (target w')) (event 100 20240101 (Some 8%Z)).
Proof.
  intros w w'.
  assert (Hkeys : upstream_keys_unique upstream_full) by apply upstream_full_schema.
  assert (Hrun : sync upstream_full w
                 = (Returned (mkSummary 1 0 1 (mkStats 1 2 1 1 2 1)), w'))
    by (vm_compute; reflexivity).
  assert (Hall : allEventIdsToSync upstream_full (target w) = [100%Z])
    by (vm_compute; reflexivity).
  destruct (sync_mirrors_upstream upstream_full w w' _ Hkeys Hrun)
    as (HS & HM & HD & HA & HE).
  rewrite Hall in HS, HM, HD, HA.
  split_and!; [exact Hkeys|exact Hrun|..].
  - apply HS; in_list.
  - apply HM; in_list.
  - apply HD; in_list.
  - apply (HA _ (deck 5 100 "Alice")); [in_list|in_list|in_list|reflexivity].
  - apply HE; [in_list|]. simpl. apply not_elem_of_nil.
Defined.

(** After the same run, event 100 has standings and matches and is not
    returned by the incompleteness query. *)
Lemma sync_completes_witness :
  let w := mkWorld empty_db [] in
  let w' := (sync upstream_full w).2 in
  sync upstream_full w = (Returned (mkSummary 1 0 1 (mkStats 1 2 1 1 2 1)), w')
  /\ 100%Z ∈ allEventIdsToSync upstream_full (target w)
  /\ 100%Z ∉ getIncompleteEventIds (target w').
Proof.
  intros w w'.
  assert (Hrun : sync upstream_full w
                 = (Returned (mkSummary 1 0 1 (mkStats 1 2 1 1 2 1)), w'))
    by (vm_compute; reflexivity).
  assert (Hall : 100%Z ∈ allEventIdsToSync upstream_full (target w))
    by (apply (bool_decide_unpack _); vm_compute; exact I).
  split_and!; [exact Hrun|exact Hall|].
  apply (sync_completes upstream_full w w' _ 100%Z Hrun Hall); in_list.
Defined.

(** The same run sent two players, one event, two standings, one match,
    one deck and one archetype. *)
Lemma summary_counts_rows_sent_witness :
  let w := mkWorld empty_db [] in
  let w' := (sync upstream_full w).2 in
  sync upstream_full w = (Returned (mkSummary 1 0 1 (mkStats 1 2 1 1 2 1)), w')
  /\ rows_sent Players (journal w') = 2
  /\ rows_sent Standings (journal w') = 2
  /\ rows_sent Archetypes (journal w') = 1.
Proof.
  intros w w'.
  assert (Hrun : sync upstream_full w
                 = (Returned (mkSummary 1 0 1 (mkStats 1 2 1 1 2 1)), w'))
    by (vm_compute; reflexivity).
  destruct (summary_counts_rows_sent upstream_full w w' _ Hrun)
    as (_ & _ & HP & _ & HS & _ & _ & HA).
  split_and!; [exact Hrun|exact HP|exact HS|exact HA].
Defined.

(** Three matches in batches of two, written to a target that has their
    event and players: two statements, the first one full, and both are
    in the journal when the loop returns. *)
Lemma batch_loop_statements_witness :
  let bs := batches 2 (length three_games) 0 three_games in
  let run := write_batches Matches upsert_matches 2 three_games
               (mkWorld target_ready []) in
  0 < 2
  /\ length bs = 2
  /\ bs !! 1 = Some [game 3 100 2 "Alice" "Bob"]
  /\ [game 3 100 2 "Alice" "Bob"] = slice (1 * 2) (1 * 2 + 2) three_games
  /\ (forall b, bs !! 0 = Some b -> length b = 2)
  /\ run.1 = Returned 3
  /\ journal run.2 = [(Matches, 2); (Matches, 1)].
Proof.
  intros bs run.
  destruct (batch_loop_statements Matches upsert_matches 2 three_games
              (mkWorld target_ready []) (Nat.lt_0_succ 1))
    as (Hlen & Hk & Hfull & issued & _ & Hj & Hret & _).
  assert (Hb : bs !! 1 = Some [game 3 100 2 "Alice" "Bob"])
    by (vm_compute; reflexivity).
  assert (Hrun : run.1 = Returned 3) by (vm_compute; reflexivity).
  split_and!; [exact (Nat.lt_0_succ 1)|exact Hlen|exact Hb|exact (Hk 1 _ Hb)|
               |exact Hrun|].
  - intros b Hb0. apply (Hfull 0 b Hb0). apply Nat.ltb_lt. vm_compute. reflexivity.
  - destruct (Hret 3 Hrun) as [-> _]. exact Hj.
Defined.

(** Event 100 of [upstream_alice] against a target that knows Alice
    under another id: nothing is written. *)
Lemma players_stage_skips_known_witness :
  let w := mkWorld target_alice [] in
  referencedPlayerNames upstream_alice [100%Z] = ["Alice"]
  /\ players_stage_within upstream_alice [100%Z] (players target_alice)
  /\ syncPlayers upstream_alice [100%Z] w = (Returned 0, w).
Proof.
  intros w.
  assert (Hnames : referencedPlayerNames upstream_alice [100%Z] = ["Alice"])
    by (vm_compute; reflexivity).
  assert (Hwithin : players_stage_within upstream_alice [100%Z] (players target_alice))
    by (apply (bool_decide_unpack _); vm_compute; exact I).
  split_and!; [exact Hnames|exact Hwithin|].
  rewrite (players_stage_skips_known upstream_alice [100%Z] w).
  - by rewrite decide_True by exact Hwithin.
  - intros name Hname.
    rewrite Hnames in Hname. apply list_elem_of_singleton in Hname as ->. in_list.
Defined.

(** [snapshot_small] merged into [target_ready]: Carol, event 300 and
    its rows arrive; deck 6, whose event 999 is nowhere, is skipped. *)
Lemma merge_complete_witness :
  let w := mkWorld target_ready [] in
  let w' := (mergeDatabases snapshot_small w).2 in
  mergeDatabases snapshot_small w = (Returned (mkStats 1 1 1 1 1 1), w')
  /\ merged snapshot_small (target w')
  /\ d_id <$> decks (target w') = [5%Z].
Proof.
  intros w w'.
  assert (Hrun : mergeDatabases snapshot_small w = (Returned (mkStats 1 1 1 1 1 1), w'))
    by (vm_compute; reflexivity).
  split_and!; [exact Hrun| |vm_compute; reflexivity].
  exact (merge_complete snapshot_small w w' _ Hrun).
Defined.

(** The same merge run a second time. *)
Lemma merge_twice_witness :
  let w := mkWorld target_ready [] in
  let w1 := (mergeDatabases snapshot_small w).2 in
  mergeDatabases snapshot_small w = (Returned (mkStats 1 1 1 1 1 1), w1)
  /\ exists j, mergeDatabases snapshot_small w1
               = (Returned no_stats, mkWorld (target w1) j).
Proof.
  intros w w1.
  assert (Hrun : mergeDatabases snapshot_small w = (Returned (mkStats 1 1 1 1 1 1), w1))
    by (vm_compute; reflexivity).
  split; [exact Hrun|].
  exact (merge_twice snapshot_small w w1 _ Hrun).
Defined.

Lemma snapshot_small_keys : snapshot_keys_unique snapshot_small.
Proof.
  unfold snapshot_keys_unique. simpl.
  split_and!; apply (bool_decide_unpack _); vm_compute; exact I.
Qed.

(** The same merge: every table has grown by the count reported. *)
Lemma merge_counts_growth_witness :
  let w := mkWorld target_ready [] in
  let w' := (mergeDatabases snapshot_small w).2 in
  snapshot_keys_unique snapshot_small
  /\ mergeDatabases snapshot_small w = (Returned (mkStats 1 1 1 1 1 1), w')
  /\ length (players (target w')) = length (players (target w)) + 1
  /\ length (decks (target w')) = length (decks (target w)) + 1.
Proof.
  intros w w'.
  assert (Hrun : mergeDatabases snapshot_small w = (Returned (mkStats 1 1 1 1 1 1), w'))
    by (vm_compute; reflexivity).
  destruct (merge_counts_growth snapshot_small w w' _ snapshot_small_keys Hrun)
    as (HP & _ & HD & _).
  split_and!; [exact snapshot_small_keys|exact Hrun|exact HP|exact HD].
Defined.

(** Alice is player 1 on the target and player 42 in the snapshot: the
    merge throws in its players loop. *)
Lemma merge_name_clash_aborts_witness :
  let w := mkWorld target_ready [] in
  NoDup (p_id <$> players snapshot_clash)
  /\ mkPlayer 42 "Alice" ∈ players snapshot_clash
  /\ 42%Z ∉ p_id <$> players (target w)
  /\ "Alice" ∈ p_name <$> players (target w)
  /\ (mergeDatabases snapshot_clash w).1 = Thrown
  /\ players_apart (target w) (target (mergeDatabases snapshot_clash w).2).
Proof.
  intros w.
  assert (H1 : NoDup (p_id <$> players snapshot_clash))
    by (apply (bool_decide_unpack _); vm_compute; exact I).
  assert (H2 : mkPlayer 42 "Alice" ∈ players snapshot_clash) by in_list.
  assert (H3 : 42%Z ∉ p_id <$> players (target w))
    by (apply (bool_decide_unpack _); vm_compute; exact I).
  assert (H4 : "Alice" ∈ p_name <$> players (target w)) by in_list.
  destruct (merge_name_clash_aborts snapshot_clash w (mkPlayer 42 "Alice") H1 H2 H3 H4)
    as [Hthrown Hapart].
  split_and!; [exact H1|exact H2|exact H3|exact H4|exact Hthrown|exact Hapart].
Defined.

(** The tunnel id set in a file whose second line assigns it, with
    spaces around the equals sign. *)
Lemma setEnvVar_parseEnvFile_witness :
  env_name (js "CLOUDFLARED_TUNNEL_ID") /\ one_line (js "abc")
  /\ assigned_once (js "CLOUDFLARED_TUNNEL_ID") env_lines
  /\ setEnvVar env_lines (js "CLOUDFLARED_TUNNEL_ID") (js "abc")
     = [js "POSTGRES_DB=mtgo"; js "CLOUDFLARED_TUNNEL_ID=abc"; js ""]
  /\ parseEnvFile (setEnvVar env_lines (js "CLOUDFLARED_TUNNEL_ID") (js "abc"))
       !! js "CLOUDFLARED_TUNNEL_ID" = Some (js "abc").
Proof.
  assert (H1 : env_name (js "CLOUDFLARED_TUNNEL_ID")) by (split; [done|by vm_compute]).
  assert (H2 : one_line (js "abc")) by (by vm_compute).
  assert (H3 : assigned_once (js "CLOUDFLARED_TUNNEL_ID") env_lines)
    by (unfold assigned_once; vm_compute; lia).
  split_and!; [exact H1|exact H2|exact H3|vm_compute; reflexivity|].
  exact (setEnvVar_parseEnvFile env_lines _ _ H1 H2 H3).
Defined.

(** The same update leaves the database name as the file has it. *)
Lemma setEnvVar_other_names_witness :
  literal_key (js "CLOUDFLARED_TUNNEL_ID")
  /\ js "POSTGRES_DB" <> js "CLOUDFLARED_TUNNEL_ID"
  /\ parseEnvFile env_lines !! js "POSTGRES_DB" = Some (js "mtgo")
  /\ parseEnvFile (setEnvVar env_lines (js "CLOUDFLARED_TUNNEL_ID") (js "abc"))
       !! js "POSTGRES_DB" = parseEnvFile env_lines !! js "POSTGRES_DB".
Proof.
  assert (H1 : literal_key (js "CLOUDFLARED_TUNNEL_ID")) by (by vm_compute).
  assert (H2 : js "POSTGRES_DB" <> js "CLOUDFLARED_TUNNEL_ID") by (by vm_compute).
  split_and!; [exact H1|exact H2|vm_compute; reflexivity|].
  exact (setEnvVar_other_names env_lines _ (js "abc") _ H1 H2).
Defined.


(** The three lines written and read again: the empty line is dropped
    from the file, and the two assignments parse as before. *)
Lemma env_file_round_trip_witness :
  (forall line, line ∈ env_lines -> 10%N ∉ line)
  /\ envFileContent env_lines
     = js "POSTGRES_DB=mtgo" ++ 10%N :: js "CLOUDFLARED_TUNNEL_ID = old"
  /\ parseEnvFile (split_lines (envFileContent env_lines)) = parseEnvFile env_lines.
Proof.
  assert (H1 : forall line, line ∈ env_lines -> 10%N ∉ line).
  { intros line Hline. apply list_elem_of_In in Hline. simpl in Hline.
    destruct Hline as [<-|[<-|[<-|[]]]];
      apply (bool_decide_unpack _); vm_compute; exact I. }
  split_and!; [exact H1|vm_compute; reflexivity|].
  exact (env_file_round_trip env_lines H1).
Defined.

(** The three updates of [main] on the three-line file. *)
Lemma updateEnv_parseEnvFile_witness :
  let envVars := parseEnvFile (updateEnv env_lines (js "db.example.com") (js "mtgo")
                                 (js "abc")) in
  one_line (js "db.example.com") /\ one_line (js "mtgo") /\ one_line (js "abc")
  /\ assigned_once (js "CLOUDFLARED_TUNNEL_HOSTNAME") env_lines
  /\ assigned_once (js "CLOUDFLARED_TUNNEL_NAME") env_lines
  /\ assigned_once (js "CLOUDFLARED_TUNNEL_ID") env_lines
  /\ envVars !! js "CLOUDFLARED_TUNNEL_HOSTNAME" = Some (js "db.example.com")
  /\ envVars !! js "CLOUDFLARED_TUNNEL_NAME" = Some (js "mtgo")
  /\ envVars !! js "CLOUDFLARED_TUNNEL_ID" = Some (js "abc").
Proof.
  intros envVars.
  assert (H1 : one_line (js "db.example.com")) by (by vm_compute).
  assert (H2 : one_line (js "mtgo")) by (by vm_compute).
  assert (H3 : one_line (js "abc")) by (by vm_compute).
  assert (H4 : assigned_once (js "CLOUDFLARED_TUNNEL_HOSTNAME") env_lines)
    by (unfold assigned_once; vm_compute; lia).
  assert (H5 : assigned_once (js "CLOUDFLARED_TUNNEL_NAME") env_lines)
    by (unfold assigned_once; vm_compute; lia).
  assert (H6 : assigned_once (js "CLOUDFLARED_TUNNEL_ID") env_lines)
    by (unfold assigned_once; vm_compute; lia).
  destruct (updateEnv_parseEnvFile env_lines _ _ _ H1 H2 H3 H4 H5 H6)
    as (Hh & Hn & Hi & _).
  split_and!; [exact H1|exact H2|exact H3|exact H4|exact H5|exact H6
              |exact Hh|exact Hn|exact Hi].
Defined.

(** A template line that names the tunnel id, which only the [.env]
    file defines. *)
Lemma configYml_placeholder_witness :
  let envVars := parseEnvFile [js "CLOUDFLARED_TUNNEL_ID=abc"] in
  js "CLOUDFLARED_TUNNEL_ID" <> []
  /\ forallb is_placeholder_char (js "CLOUDFLARED_TUNNEL_ID") = true
  /\ configYml ∅ envVars (js "tunnel: ${CLOUDFLARED_TUNNEL_ID}!")
     = js "tunnel: abc!"
  /\ configYml ∅ envVars
       (js "tunnel: " ++ placeholder (js "CLOUDFLARED_TUNNEL_ID") ++ js "!")
     = configYml ∅ envVars (js "tunnel: ")
       ++ lookup_variable ∅ envVars (js "CLOUDFLARED_TUNNEL_ID")
       ++ configYml ∅ envVars (js "!").
Proof.
  intros envVars.
  assert (H1 : js "CLOUDFLARED_TUNNEL_ID" <> []) by done.
  assert (H2 : forallb is_placeholder_char (js "CLOUDFLARED_TUNNEL_ID") = true)
    by (by vm_compute).
  split_and!; [exact H1|exact H2|vm_compute; reflexivity|].
  exact (configYml_placeholder ∅ envVars (js "tunnel: ") _ (js "!") H1 H2).
Defined.

(** A template line without a dollar sign. *)
Lemma configYml_plain_witness :
  36%N ∉ js "loglevel: info"
  /\ configYml ∅ ∅ (js "loglevel: info") = js "loglevel: info".
Proof.
  assert (H1 : 36%N ∉ js "loglevel: info")
    by (apply (bool_decide_unpack _); vm_compute; exact I).
  split; [exact H1|]. exact (configYml_plain ∅ ∅ _ H1).
Defined.

